(** * Infinizoomer: tile world, viewport, enhancement pipeline, world continuity

    A shallow embedding of the TypeScript sources (the App component, the
    ImageDisplay component, gpsUtils, serviceEnhance, serviceCompareScenes,
    the useGps hook) together with the properties of the specification that
    concern them and further properties of the code.

    Conventions of the embedding.
    - A JavaScript [number] that is an integer by construction (tile indices,
      pixel coordinates, natural image sizes) is a [Z]; every other [number]
      (pan, zoom, cursor and viewport sizes, GPS angles, distances) is an
      idealised real [R]: no rounding, no NaN, no infinities.
    - [Math.floor] and [Math.ceil] on reals are [Zfloor] and [Zceil]; on a
      quotient of two integers they are written with [Z.div], and
      [Math_floor_div_spec] / [Math_ceil_div_spec] show that this is the same
      number.
    - A [Map<string, TileData>] is a [gmap string TileData]; the key of tile
      (x, y) is the template string [`${x}:${y}`].
    - React state is one record; a handler is a function from the state
      before to the state after, applied to the state of the render that
      created it.  A handler that awaits is split at the await: the values
      that its closure holds are arguments of the second half, which runs on
      whatever state is current when it resumes.
    - What the outside world answers (the enhancement model, the scene
      comparator, the clock, the canvas box) is an argument of the handler
      that asks. *)

From Stdlib Require Import ZArith Reals Lra Lia Zfloor Ascii.
From stdpp Require Import gmap strings pretty list.

Open Scope Z_scope.

(** ** JavaScript arithmetic *)

Module JS.

(** [Math.floor(a / b)] for integers [a], [b] with [0 < b]. *)
Definition Math_floor_div (a b : Z) : Z := (a / b)%Z.

(** [Math.ceil(a / b)] for integers [a], [b] with [0 < b]. *)
Definition Math_ceil_div (a b : Z) : Z := (- ((- a) / b))%Z.

(** The remainder operator [%]: truncated, with the sign of the dividend. *)
Definition rem (a b : Z) : Z := Z.rem a b.

(** [x > y] on numbers. *)
Definition gt (x y : R) : bool := if Rlt_dec y x then true else false.

(** [x >= y] and [x === y] on numbers. *)
Definition ge (x y : R) : bool := if Rle_dec y x then true else false.
Definition eq (x y : R) : bool := if Req_dec_T x y then true else false.

Definition Math_min (x y : R) : R := Rmin x y.
Definition Math_max (x y : R) : R := Rmax x y.

End JS.

(** ** types.ts *)

Inductive AppState :=
| IDLE | LOADING | LOADED | SELECTING | ANALYZING | ENHANCING | ENHANCED
| CAMERA_ACTIVE.

Global Instance AppState_eq_dec : EqDecision AppState.
Proof. solve_decision. Defined.

(** The members of [LocationStatus] that the components name; the
    declaration of the enum is not among the sources. *)
Inductive LocationStatus :=
| NOT_SUPPORTED | REQUESTING | ACQUIRED | UNAVAILABLE | VGPS_ACTIVE
| VGPS_CALIBRATING.

Record Rect (N : Type) := mkRect { rx : N; ry : N; rw : N; rh : N }.
Arguments mkRect {N} _ _ _ _.
Arguments rx {N} _.
Arguments ry {N} _.
Arguments rw {N} _.
Arguments rh {N} _.

(** ** Rasters

    An [HTMLImageElement] (and a canvas) is its natural size and its pixels.
    A pixel is either transparent ([None]) or an opaque colour. *)

Definition Pixel : Type := option Z.

Record Image := mkImage {
  naturalWidth : Z;
  naturalHeight : Z;
  pixelAt : Z → Z → Pixel
}.

(** The pixel of [img] at column [i], row [j]; transparent outside the
    raster. *)
Definition sample (img : Image) (i j : Z) : Pixel :=
  if decide ((0 ≤ i < naturalWidth img)%Z ∧ (0 ≤ j < naturalHeight img)%Z)
  then pixelAt img i j else None.

(** Modelled from the spec: [cropImage] of utils/imageUtils, which is not
    among the sources ("Cropper: crop(image, rect, outWidth, outHeight) →
    raster, used by both tileization and retiling").  Every call of the
    program passes the rectangle's own size as the output size, so the
    raster is the part of [img] under [rect], transparent where [rect]
    leaves the image. *)
Definition cropImage (img : Image) (rect : Rect Z) (outW outH : Z) : Image :=
  {| naturalWidth := outW;
     naturalHeight := outH;
     pixelAt := λ i j, sample img (rx rect + i) (ry rect + j) |}.

Record TileData := mkTile { image : Image; isEnhanced : bool }.

(** ** The tile store of the App component *)

Definition TILE_SIZE : Z := 512.

(** The map key [`${x}:${y}`]. *)
Definition tileKey (x y : Z) : string := pretty x +:+ ":" +:+ pretty y.

(** Whether a string contains the separator of the key. *)
Fixpoint hasColon (s : string) : bool :=
  match s with
  | EmptyString => false
  | String c s' => if decide (c = ":"%char) then true else hasColon s'
  end.

Section Tileize.

(** [tileizeImage] is written for the constant [TILE_SIZE]; the loop is
    kept generic in the tile edge [T]. *)
Variable T : Z.

Definition numTiles (extent : Z) : Z := JS.Math_ceil_div extent T.

Definition tileCropRect (img : Image) (x y : Z) : Rect Z :=
  {| rx := x * T;
     ry := y * T;
     rw := Z.min T (naturalWidth img - x * T);
     rh := Z.min T (naturalHeight img - y * T) |}.

(** The body of the inner loop, for one [(x, y)]. *)
Definition tileizeCell (img : Image) (y : Z) (newTiles : gmap string TileData)
    (x : Z) : gmap string TileData :=
  let cropRect := tileCropRect img x y in
  if decide ((0 < rw cropRect)%Z ∧ (0 < rh cropRect)%Z) then
    let tileImage := cropImage img cropRect (rw cropRect) (rh cropRect) in
    <[tileKey x y := {| image := tileImage; isEnhanced := false |}]> newTiles
  else newTiles.

Definition tileizeRow (img : Image) (newTiles : gmap string TileData)
    (y : Z) : gmap string TileData :=
  foldl (tileizeCell img y) newTiles (seqZ 0 (numTiles (naturalWidth img))).

(** The tile map built by the two nested loops. *)
Definition tileizeWith (img : Image) : gmap string TileData :=
  foldl (tileizeRow img) ∅ (seqZ 0 (numTiles (naturalHeight img))).

End Tileize.

(** The tile that [tileizeCell] stores for [(x, y)]. *)
Definition tileAt (T : Z) (img : Image) (x y : Z) : TileData :=
  let cropRect := tileCropRect T img x y in
  {| image := cropImage img cropRect (rw cropRect) (rh cropRect);
     isEnhanced := false |}.


(** ** types.ts, continued *)

Record GPSCoordinates := mkGPS { latitude : R; longitude : R }.

Inductive CaptureType := EQUIRECTANGULAR | PERSPECTIVE.

(** The capture id: ['capture-default'] or [`capture-${Date.now()}`]. *)
Inductive CaptureId := capture_default | capture_at (now : Z).

(** A capture.  The [camera] field is left out: every capture of the
    program carries the constant [defaultCamera]. *)
Record Capture := mkCapture {
  capId : CaptureId;
  capType : CaptureType;
  capImage : Image;
  capGps : option GPSCoordinates;
  capLocationStatus : option LocationStatus
}.

(** ** utils/gpsUtils.ts *)

(** [Math.atan2(y, x)]. *)
Definition Math_atan2 (y x : R) : R :=
  if Rlt_dec 0 x then atan (y / x)
  else if Rlt_dec x 0 then
    (if Rle_dec 0 y then atan (y / x) + PI else atan (y / x) - PI)
  else if Rlt_dec 0 y then PI / 2
  else if Rlt_dec y 0 then - (PI / 2)
  else 0.

Definition calculateDistance (coords1 coords2 : GPSCoordinates) : R :=
  let R := 6371000%R in
  let φ1 := (latitude coords1 * PI / 180)%R in
  let φ2 := (latitude coords2 * PI / 180)%R in
  let Δφ := ((latitude coords2 - latitude coords1) * PI / 180)%R in
  let Δλ := ((longitude coords2 - longitude coords1) * PI / 180)%R in
  let a := (sin (Δφ / 2) * sin (Δφ / 2) +
            cos φ1 * cos φ2 * sin (Δλ / 2) * sin (Δλ / 2))%R in
  let c := (2 * Math_atan2 (sqrt a) (sqrt (1 - a)))%R in
  let d := (R * c)%R in
  d.

(** ** utils/serviceCompareScenes.ts *)

(** What the outside world does during one call: encoding the two images
    ([imageToDataUrl], awaited before the [try]) can reject; the model call
    can reject or return text that [JSON.parse] refuses; otherwise the parsed
    object has the field [isSameScene] or lacks it. *)
Inductive SceneOracle :=
| EncodingRejects
| ModelCallFails
| ModelAnswers (isSameScene : option bool).

(** The result of awaiting a promise. *)
Inductive Awaited (A : Type) :=
| Resolved (a : A)
| Rejected.
Arguments Resolved {A} _.
Arguments Rejected {A}.

Definition serviceCompareScenes (oracle : SceneOracle) : Awaited bool :=
  match oracle with
  | EncodingRejects => Rejected
  | ModelAnswers isSameScene => Resolved (default false isSameScene)
  | ModelCallFails => Resolved true
  end.

(** ** utils/serviceEnhance.ts *)

(** One part of the model's answer: text (with what [JSON.parse] makes of it:
    nothing, or an object whose [foundTheBanana] is truthy or not), inline
    image data, or neither. *)
Inductive ResponsePart :=
| TextPart (foundTheBanana : option bool)
| InlineDataPart (data : Image)
| EmptyPart.

(** The model call rejects (or returns no candidates, content or parts), or
    it returns parts. *)
Inductive EnhanceReply :=
| EnhanceFails
| EnhanceParts (parts : list ResponsePart).

Definition serviceEnhance (croppedImageDataUrl : Image) (prompt : string)
    (hasFoundBanana : bool) (reply : EnhanceReply) : Image * bool :=
  if decide (prompt = "") then (croppedImageDataUrl, false)
  else
    match reply with
    | EnhanceFails => (croppedImageDataUrl, false)
    | EnhanceParts parts =>
        foldl (λ '(imageSrc, foundTheBanana) part,
                 match part with
                 | TextPart (Some true) => (imageSrc, true)
                 | TextPart _ => (imageSrc, foundTheBanana)
                 | InlineDataPart data => (data, foundTheBanana)
                 | EmptyPart => (imageSrc, foundTheBanana)
                 end)
              (croppedImageDataUrl, false) parts
    end.

(** ** The App component: state *)

Definition GPS_DISTANCE_THRESHOLD_METERS : R := 100.

Record WorldSize := mkWorldSize { width : Z; height : Z }.

Record Point := mkPoint { px : R; py : R }.

Record EnhancementJob := mkJob { jobWorldRect : Rect R; jobScreenRect : Rect R }.

(** [{src, worldRect}]: a raster (as a data URL) and the world rectangle it
    shows.  The rectangle is the stitched one, whose fields are integers. *)
Record RegionImage := mkRegion { src : Image; worldRect : Rect Z }.

Record App := mkApp {
  appState : AppState;
  captures : list Capture;
  tiles : gmap string TileData;
  worldSize : WorldSize;
  pan : Point;
  zoom : R;
  enhancementJob : option EnhancementJob;
  stitchedEnhanceImage : option RegionImage;
  enhancedResult : option RegionImage;
  showBananaBanner : bool;
  hasFoundBanana : bool;
  isDefaultWorld : bool
}.

(** The state of the first render. *)
Definition initialApp : App :=
  {| appState := IDLE; captures := []; tiles := ∅;
     worldSize := mkWorldSize 0 0;
     pan := mkPoint 0 0; zoom := 1;
     enhancementJob := None; stitchedEnhanceImage := None;
     enhancedResult := None;
     showBananaBanner := false; hasFoundBanana := false;
     isDefaultWorld := false |}.

(** The state setters of [useState]. *)
Definition setAppState (v : AppState) (s : App) : App :=
  mkApp v (captures s) (tiles s) (worldSize s) (pan s) (zoom s)
    (enhancementJob s) (stitchedEnhanceImage s) (enhancedResult s)
    (showBananaBanner s) (hasFoundBanana s) (isDefaultWorld s).
Definition setCaptures (v : list Capture) (s : App) : App :=
  mkApp (appState s) v (tiles s) (worldSize s) (pan s) (zoom s)
    (enhancementJob s) (stitchedEnhanceImage s) (enhancedResult s)
    (showBananaBanner s) (hasFoundBanana s) (isDefaultWorld s).
Definition setTiles (v : gmap string TileData) (s : App) : App :=
  mkApp (appState s) (captures s) v (worldSize s) (pan s) (zoom s)
    (enhancementJob s) (stitchedEnhanceImage s) (enhancedResult s)
    (showBananaBanner s) (hasFoundBanana s) (isDefaultWorld s).
Definition setWorldSize (v : WorldSize) (s : App) : App :=
  mkApp (appState s) (captures s) (tiles s) v (pan s) (zoom s)
    (enhancementJob s) (stitchedEnhanceImage s) (enhancedResult s)
    (showBananaBanner s) (hasFoundBanana s) (isDefaultWorld s).
Definition setPan (v : Point) (s : App) : App :=
  mkApp (appState s) (captures s) (tiles s) (worldSize s) v (zoom s)
    (enhancementJob s) (stitchedEnhanceImage s) (enhancedResult s)
    (showBananaBanner s) (hasFoundBanana s) (isDefaultWorld s).
Definition setZoom (v : R) (s : App) : App :=
  mkApp (appState s) (captures s) (tiles s) (worldSize s) (pan s) v
    (enhancementJob s) (stitchedEnhanceImage s) (enhancedResult s)
    (showBananaBanner s) (hasFoundBanana s) (isDefaultWorld s).
Definition setEnhancementJob (v : option EnhancementJob) (s : App) : App :=
  mkApp (appState s) (captures s) (tiles s) (worldSize s) (pan s) (zoom s)
    v (stitchedEnhanceImage s) (enhancedResult s)
    (showBananaBanner s) (hasFoundBanana s) (isDefaultWorld s).
Definition setStitchedEnhanceImage (v : option RegionImage) (s : App) : App :=
  mkApp (appState s) (captures s) (tiles s) (worldSize s) (pan s) (zoom s)
    (enhancementJob s) v (enhancedResult s)
    (showBananaBanner s) (hasFoundBanana s) (isDefaultWorld s).
Definition setEnhancedResult (v : option RegionImage) (s : App) : App :=
  mkApp (appState s) (captures s) (tiles s) (worldSize s) (pan s) (zoom s)
    (enhancementJob s) (stitchedEnhanceImage s) v
    (showBananaBanner s) (hasFoundBanana s) (isDefaultWorld s).
Definition setShowBananaBanner (v : bool) (s : App) : App :=
  mkApp (appState s) (captures s) (tiles s) (worldSize s) (pan s) (zoom s)
    (enhancementJob s) (stitchedEnhanceImage s) (enhancedResult s)
    v (hasFoundBanana s) (isDefaultWorld s).
Definition setHasFoundBanana (v : bool) (s : App) : App :=
  mkApp (appState s) (captures s) (tiles s) (worldSize s) (pan s) (zoom s)
    (enhancementJob s) (stitchedEnhanceImage s) (enhancedResult s)
    (showBananaBanner s) v (isDefaultWorld s).
Definition setIsDefaultWorld (v : bool) (s : App) : App :=
  mkApp (appState s) (captures s) (tiles s) (worldSize s) (pan s) (zoom s)
    (enhancementJob s) (stitchedEnhanceImage s) (enhancedResult s)
    (showBananaBanner s) (hasFoundBanana s) v.

(** Statements of a handler, in program order: [s |> f |> g]. *)
Notation "s |> f" := (f s) (at level 45, left associativity, only parsing).

(** ** The App component: worlds and captures *)

(** [tileizeImage]: the loops of [tileizeWith] at [TILE_SIZE], then the two
    setters.  The awaits inside the loop (cropping and decoding one tile) do
    not touch the state. *)
Definition tileizeImage (capture : Capture) (s : App) : App :=
  let img := capImage capture in
  let newTiles := tileizeWith TILE_SIZE img in
  s |> setWorldSize (mkWorldSize (naturalWidth img) (naturalHeight img))
    |> setTiles newTiles.

Definition startNewWorld (img : Image) (gps : option GPSCoordinates)
    (locationStatus : option LocationStatus) (now : Z) (s : App) : App :=
  let newCapture := mkCapture (capture_at now) EQUIRECTANGULAR img gps
                      locationStatus in
  s |> setCaptures [newCapture]
    |> tileizeImage newCapture
    |> setPan (mkPoint 0 0)
    |> setZoom 1
    |> setIsDefaultWorld false
    |> setHasFoundBanana false
    |> setShowBananaBanner false
    |> setAppState LOADED.

(** [setCaptures(prev => [...prev, newCapture])] with a PERSPECTIVE capture. *)
Definition addCapture (img : Image) (gps : option GPSCoordinates)
    (locationStatus : option LocationStatus) (now : Z) (s : App) : App :=
  let newCapture := mkCapture (capture_at now) PERSPECTIVE img gps
                      locationStatus in
  s |> setCaptures (captures s ++ [newCapture]).

(** The flag [isNewWorldGps] of [handleNewCapture]. *)
Definition isNewWorldGps (baseCapture : Capture) (gps : option GPSCoordinates)
    (s : App) : bool :=
  match gps with
  | Some gps =>
      match capGps baseCapture with
      | Some baseGps =>
          JS.gt (calculateDistance gps baseGps) GPS_DISTANCE_THRESHOLD_METERS
      | None => isDefaultWorld s
      end
  | None => false
  end.

Definition handleNewCapture (img : Image) (gps : option GPSCoordinates)
    (locationStatus : option LocationStatus) (now : Z) (oracle : SceneOracle)
    (s : App) : App :=
  match captures s with
  | [] => startNewWorld img gps locationStatus now s
  | baseCapture :: _ =>
      if isNewWorldGps baseCapture gps s then
        startNewWorld img gps locationStatus now s
      else if isDefaultWorld s then
        let s := setAppState ANALYZING s in
        match serviceCompareScenes oracle with
        | Resolved isSameScene =>
            if negb isSameScene then
              startNewWorld img gps locationStatus now s
            else
              s |> addCapture img gps locationStatus now
                |> setAppState LOADED
        | Rejected =>
            s |> addCapture img gps locationStatus now
              |> setAppState LOADED
        end
      else
        addCapture img gps locationStatus now s
  end.

(** [loadInitialImage], up to the first await. *)
Definition loadInitialImage (s : App) : App := setAppState LOADING s.

(** The [onload] of the fetched starter image.  [capturesLength] is the
    [captures.length] that the closure holds. *)
Definition initialImage_onload (capturesLength : nat) (img : Image)
    (s : App) : App :=
  if decide (0 < capturesLength)%nat then s
  else
    let newCapture := mkCapture capture_default EQUIRECTANGULAR img None None in
    s |> setCaptures [newCapture]
      |> tileizeImage newCapture
      |> setPan (mkPoint 0 0)
      |> setZoom 1
      |> setIsDefaultWorld true
      |> setAppState LOADED.

(** The fetch fails, or the image does not decode. *)
Definition initialImage_onerror (s : App) : App := setAppState IDLE s.

Definition resetState (s : App) : App :=
  s |> setCaptures []
    |> setTiles ∅
    |> setShowBananaBanner false
    |> setEnhancementJob None
    |> setStitchedEnhanceImage None
    |> setEnhancedResult None
    |> setIsDefaultWorld false
    |> loadInitialImage.

Definition handleUseDeviceCamClick (s : App) : App := setAppState CAMERA_ACTIVE s.
Definition handleCameraClose (s : App) : App := setAppState LOADED s.

(** ** The App component: the enhancement pipeline *)

(** A fresh canvas of the given size: transparent. *)
Definition createCanvas (w h : Z) : Image :=
  {| naturalWidth := w; naturalHeight := h; pixelAt := λ _ _, None |}.

(** [ctx.drawImage(img, dx, dy)]: the image at its natural size with its
    top-left corner at [(dx, dy)]; where the image is transparent the canvas
    keeps what it had. *)
Definition drawImage (canvas img : Image) (dx dy : Z) : Image :=
  {| naturalWidth := naturalWidth canvas;
     naturalHeight := naturalHeight canvas;
     pixelAt := λ i j, match sample img (i - dx) (j - dy) with
                       | Some c => Some c
                       | None => pixelAt canvas i j
                       end |}.

(** [canvas.toDataURL('image/png')], and the decoding of such a URL by an
    [Image]: lossless, so the raster itself stands for its data URL. *)
Definition toDataURL (canvas : Image) : Image := canvas.

Definition enhancePrompt : string :=
  "Enhance this image, increasing its resolution and adding fine details. The enhancement must be consistent with the original image's content, style, and lighting. Do not add new objects.".

(** The tile columns (or rows) [start, start + 1, ..., end] of a loop
    [for (let x = start; x <= end; x++)]. *)
Definition tileRange (startTile endTile : Z) : list Z :=
  seqZ startTile (endTile - startTile + 1).

(** The stitching loops of [handleInpaint]: every stored tile of the range is
    drawn at its place. *)
Definition stitchCell (tiles : gmap string TileData) (stitchedWorldRect : Rect Z)
    (y : Z) (canvas : Image) (x : Z) : Image :=
  match tiles !! tileKey x y with
  | Some tile =>
      let canvasX := x * TILE_SIZE - rx stitchedWorldRect in
      let canvasY := y * TILE_SIZE - ry stitchedWorldRect in
      drawImage canvas (image tile) canvasX canvasY
  | None => canvas
  end.

Definition stitchTiles (tiles : gmap string TileData) (stitchedWorldRect : Rect Z)
    (startTileX endTileX startTileY endTileY : Z) : Image :=
  foldl (λ canvas y,
           foldl (stitchCell tiles stitchedWorldRect y) canvas
                 (tileRange startTileX endTileX))
        (createCanvas (rw stitchedWorldRect) (rh stitchedWorldRect))
        (tileRange startTileY endTileY).

(** [handleInpaint], as a callback: [render] is the state of the render that
    created it (the callback reads [appState] and [tiles] there), [s] the
    state when it runs (the setters act there).  [has2dContext] tells
    whether [stitchedCanvas.getContext('2d')] gave a context. *)
Definition handleInpaint_from (render : App) (has2dContext : bool)
    (worldRect screenRect : Rect R) (s : App) : App :=
  if decide (appState render ≠ LOADED) then s
  else
    let startTileX := Zfloor (rx worldRect / IZR TILE_SIZE) in
    let startTileY := Zfloor (ry worldRect / IZR TILE_SIZE) in
    let endTileX := Zfloor ((rx worldRect + rw worldRect) / IZR TILE_SIZE) in
    let endTileY := Zfloor ((ry worldRect + rh worldRect) / IZR TILE_SIZE) in
    if negb has2dContext then s
    else
      let stitchedWorldRect :=
        {| rx := startTileX * TILE_SIZE;
           ry := startTileY * TILE_SIZE;
           rw := (endTileX - startTileX + 1) * TILE_SIZE;
           rh := (endTileY - startTileY + 1) * TILE_SIZE |} in
      let stitchedCanvas :=
        stitchTiles (tiles render) stitchedWorldRect
          startTileX endTileX startTileY endTileY in
      let stitchedSrc := toDataURL stitchedCanvas in
      s |> setStitchedEnhanceImage (Some (mkRegion stitchedSrc stitchedWorldRect))
        |> setEnhancementJob (Some (mkJob worldRect screenRect))
        |> setAppState ENHANCING.

(** [handleInpaint] called from the render that is current. *)
Definition handleInpaint (has2dContext : bool) (worldRect screenRect : Rect R)
    (s : App) : App :=
  handleInpaint_from s has2dContext worldRect screenRect s.

(** [performEnhancement] after [await serviceEnhance(...)]: the closure holds
    [stitchedEnhanceImage] and [hasFoundBanana] of the render that created
    it; the setters act on the current state. *)
Definition performEnhancement_resume (stitchedEnhanceImage : RegionImage)
    (hasFoundBanana : bool) (reply : EnhanceReply) (s : App) : App :=
  let '(enhancedStitchedSrc, foundTheBanana) :=
    serviceEnhance (src stitchedEnhanceImage) enhancePrompt hasFoundBanana
      reply in
  let s := if foundTheBanana
           then s |> setShowBananaBanner true |> setHasFoundBanana true
           else s in
  s |> setEnhancedResult
         (Some (mkRegion enhancedStitchedSrc (worldRect stitchedEnhanceImage)))
    |> setAppState ENHANCED
    |> setEnhancementJob None.

(** [performEnhancement] with nothing happening during the await. *)
Definition performEnhancement (reply : EnhanceReply) (s : App) : App :=
  match stitchedEnhanceImage s with
  | None => s
  | Some stitched => performEnhancement_resume stitched (hasFoundBanana s) reply s
  end.

(** The retiling loops of [enhancedImage.onload]. *)
Definition retileCell (enhancedImage : Image) (worldRect : Rect Z) (y : Z)
    (updatedTiles : gmap string TileData) (x : Z) : gmap string TileData :=
  let cropRect :=
    {| rx := x * TILE_SIZE - rx worldRect;
       ry := y * TILE_SIZE - ry worldRect;
       rw := TILE_SIZE;
       rh := TILE_SIZE |} in
  let tileImage := cropImage enhancedImage cropRect TILE_SIZE TILE_SIZE in
  <[tileKey x y := {| image := tileImage; isEnhanced := true |}]> updatedTiles.

Definition retile (enhancedImage : Image) (worldRect : Rect Z)
    : gmap string TileData :=
  let startTileX := JS.Math_floor_div (rx worldRect) TILE_SIZE in
  let startTileY := JS.Math_floor_div (ry worldRect) TILE_SIZE in
  let endTileX := JS.Math_floor_div (rx worldRect + rw worldRect) TILE_SIZE in
  let endTileY := JS.Math_floor_div (ry worldRect + rh worldRect) TILE_SIZE in
  foldl (λ updatedTiles y,
           foldl (retileCell enhancedImage worldRect y) updatedTiles
                 (tileRange startTileX endTileX))
        ∅ (tileRange startTileY endTileY).

(** [enhancedImage.onload] of [handleEnhancementComplete]: the closure holds
    the [enhancedResult] of the render that created it; [setTiles] merges
    into the tile map that is current when the image has decoded. *)
Definition enhancedImage_onload (enhancedResult : RegionImage) (s : App) : App :=
  let updatedTiles := retile (src enhancedResult) (worldRect enhancedResult) in
  s |> setTiles (updatedTiles ∪ tiles s)
    |> setStitchedEnhanceImage None
    |> setEnhancedResult None
    |> setAppState LOADED.

(** [handleEnhancementComplete] with nothing happening while the enhanced
    image decodes. *)
Definition handleEnhancementComplete (s : App) : App :=
  match enhancedResult s with
  | None => s
  | Some result => enhancedImage_onload result s
  end.

(** ** The ImageDisplay component

    Its props come from the App state ([isBusy], [pan], [zoom], [tiles],
    [worldSize]); [onPanChange], [onZoomChange] and [onInpaint] are the App's
    [setPan], [setZoom] and [handleInpaint]. *)

(** [canvas.getBoundingClientRect()]. *)
Record CanvasBox := mkCanvasBox { cssWidth : R; cssHeight : R }.

(** The component's own state and its pending timeout.  The timeout calls
    the [triggerInference] of the render in which it was set, so it is kept
    as the App state of that render. *)
Record Display := mkDisplay {
  isPanning : bool;
  panStart : Point;
  inferenceTimer : option App
}.

Definition initialDisplay : Display :=
  {| isPanning := false; panStart := mkPoint 0 0; inferenceTimer := None |}.

Definition setIsPanning (v : bool) (d : Display) : Display :=
  mkDisplay v (panStart d) (inferenceTimer d).
Definition setPanStart (v : Point) (d : Display) : Display :=
  mkDisplay (isPanning d) v (inferenceTimer d).
Definition clearInferenceTimer (d : Display) : Display :=
  mkDisplay (isPanning d) (panStart d) None.
(** [render] is the state of the render whose handler resets the timer. *)
Definition resetInferenceTimer (render : App) (d : Display) : Display :=
  mkDisplay (isPanning d) (panStart d) (Some render).

(** The prop [isBusy={appState !== AppState.LOADED}]. *)
Definition isBusy (s : App) : bool := bool_decide (appState s ≠ LOADED).

(** The [viewRectWorld] of [getTransform]. *)
Definition getTransform (canvas : option CanvasBox) (s : App) : Rect R :=
  match canvas with
  | None => mkRect 0%R 0%R 0%R 0%R
  | Some box =>
      let finalScale := zoom s in
      {| rx := (- px (pan s) / finalScale)%R;
         ry := (- py (pan s) / finalScale)%R;
         rw := (cssWidth box / finalScale)%R;
         rh := (cssHeight box / finalScale)%R |}
  end.

(** The column that [draw] reads for grid column [x]. *)
Definition wrappedX (numWorldTilesX x : Z) : Z :=
  JS.rem (JS.rem x numWorldTilesX + numWorldTilesX) numWorldTilesX.

(** The tile that [draw] paints at grid position [(x, y)], if any.  [draw]
    returns before its loops when the world has width 0. *)
Definition drawLookup (tiles : gmap string TileData) (worldSize : WorldSize)
    (tileSize : Z) (x y : Z) : option TileData :=
  if decide (width worldSize = 0) then None
  else
    let numWorldTilesX := JS.Math_ceil_div (width worldSize) tileSize in
    tiles !! tileKey (wrappedX numWorldTilesX x) y.

(** [triggerInference]: the call of [onInpaint] that it makes, if any.
    [s] is the state of the render that created the callback, [canvas] is
    [canvasRef.current] when it runs, [window] is
    [(innerWidth, innerHeight)]. *)
Definition triggerInference (canvas : option CanvasBox) (window : R * R)
    (s : App) : option (Rect R * Rect R) :=
  if isBusy s || bool_decide (canvas = None) then None
  else
    let viewRectWorld := getTransform canvas s in
    if JS.gt (zoom s) 1.01 then
      let screenRect := mkRect 0%R 0%R (fst window) (snd window) in
      Some (viewRectWorld, screenRect)
    else None.

(** The vertical clamp that follows the comment "Clamp vertical pan". *)
Definition clampPanY (canvas : option CanvasBox) (worldSize : WorldSize)
    (zoom newPanY : R) : R :=
  match canvas with
  | Some box =>
      let cssHeight := cssHeight box in
      let worldPixelHeight := (IZR (height worldSize) * zoom)%R in
      if JS.gt worldPixelHeight cssHeight then
        JS.Math_max (JS.Math_min newPanY 0) (cssHeight - worldPixelHeight)
      else ((cssHeight - worldPixelHeight) / 2)%R
  | None => newPanY
  end.

(** [handleWheel]; [pos] is [getMousePos(e)]. *)
Definition handleWheel (canvas : option CanvasBox) (deltaY : R) (pos : Point)
    (sd : App * Display) : App * Display :=
  let '(s, d) := sd in
  if isBusy s then sd
  else
    let d := clearInferenceTimer d in
    let isZoomingIn := JS.gt 0 deltaY in
    let zoomIntensity := 0.1%R in
    let zoomFactor := if isZoomingIn then exp zoomIntensity
                      else exp (- zoomIntensity) in
    let newZoom := JS.Math_max 0.1 (JS.Math_min (zoom s * zoomFactor) 50) in
    let newPanX := (px (pan s) - (px pos - px (pan s)) * (zoomFactor - 1))%R in
    let newPanY := (py (pan s) - (py pos - py (pan s)) * (zoomFactor - 1))%R in
    let newPanY := clampPanY canvas (worldSize s) newZoom newPanY in
    (s |> setZoom newZoom |> setPan (mkPoint newPanX newPanY),
     if isZoomingIn then resetInferenceTimer s d else d).

Definition handleMouseDown (button : Z) (pos : Point)
    (sd : App * Display) : App * Display :=
  let '(s, d) := sd in
  if isBusy s || bool_decide (button ≠ 0) then sd
  else
    (s, d |> clearInferenceTimer
          |> setIsPanning true
          |> setPanStart (mkPoint (px pos - px (pan s)) (py pos - py (pan s)))).

Definition handleMouseMove (canvas : option CanvasBox) (pos : Point)
    (sd : App * Display) : App * Display :=
  let '(s, d) := sd in
  if isPanning d then
    let d := clearInferenceTimer d in
    let newPanY := (py pos - py (panStart d))%R in
    let newPanY := clampPanY canvas (worldSize s) (zoom s) newPanY in
    (setPan (mkPoint (px pos - px (panStart d)) newPanY) s, d)
  else sd.

Definition handleMouseUp (sd : App * Display) : App * Display :=
  let '(s, d) := sd in
  if isPanning d then
    let d := setIsPanning false d in
    (s, if negb (isBusy s) then resetInferenceTimer s d else d)
  else sd.

Definition handleMouseLeave (sd : App * Display) : App * Display :=
  let '(s, d) := sd in
  if isPanning d then (s, setIsPanning false d) else sd.

Definition handleZoomIn (sd : App * Display) : App * Display :=
  let '(s, d) := sd in
  let d := clearInferenceTimer d in
  (setZoom (JS.Math_min (zoom s * 1.25) 50) s, resetInferenceTimer s d).

Definition handleZoomOut (sd : App * Display) : App * Display :=
  let '(s, d) := sd in
  let d := clearInferenceTimer d in
  (setZoom (JS.Math_max 0.1 (zoom s / 1.25)) s, d).

Definition handleResetZoom (canvas : option CanvasBox)
    (sd : App * Display) : App * Display :=
  let '(s, d) := sd in
  let d := clearInferenceTimer d in
  let s' :=
    match canvas with
    | Some box =>
        let cssHeight := cssHeight box in
        let worldPixelHeight := (IZR (height (worldSize s)) * 1.0)%R in
        let newPanY := if JS.gt worldPixelHeight cssHeight then 0%R
                       else ((cssHeight - worldPixelHeight) / 2)%R in
        setPan (mkPoint 0 newPanY) s
    | None => setPan (mkPoint 0 0) s
    end in
  (setZoom 1.0 s', resetInferenceTimer s d).

(** ** The running application

    What can happen to the mounted application, one event at a time.  The
    conditions under which the JSX mounts a component or enables a button
    decide whether its handler can run at all. *)

Inductive Event :=
| Wheel (canvas : option CanvasBox) (deltaY : R) (pos : Point)
| MouseDown (button : Z) (pos : Point)
| MouseMove (canvas : option CanvasBox) (pos : Point)
| MouseUp
| MouseLeave
| ZoomInClick
| ZoomOutClick
| ResetZoomClick (canvas : option CanvasBox)
| InferenceTimerFires (canvas : option CanvasBox) (window : R * R)
    (has2dContext : bool)
| SelectionAnimatorComplete (reply : EnhanceReply)
| PixelDissolveComplete
| NewCapture (img : Image) (gps : option GPSCoordinates)
    (locationStatus : option LocationStatus) (now : Z) (oracle : SceneOracle)
| ResetClick
| InitialImageLoads (capturesLength : nat) (img : Image)
| InitialImageFails
| UseDeviceCamClick
| CameraCloseClick.

(** [tiles.size > 0 && ![ENHANCED, ENHANCING, CAMERA_ACTIVE].includes(appState)] *)
Definition displayMounted (s : App) : bool :=
  bool_decide (0 < size (tiles s))%nat &&
  bool_decide (appState s ∉ [ENHANCED; ENHANCING; CAMERA_ACTIVE]).

(** [appState === ENHANCING && enhancementJob && stitchedEnhanceImage] *)
Definition animatorMounted (s : App) : bool :=
  bool_decide (appState s = ENHANCING) &&
  bool_decide (is_Some (enhancementJob s)) &&
  bool_decide (is_Some (stitchedEnhanceImage s)).

(** [appState === ENHANCED && stitchedEnhanceImage && enhancedResult] *)
Definition dissolveMounted (s : App) : bool :=
  bool_decide (appState s = ENHANCED) &&
  bool_decide (is_Some (stitchedEnhanceImage s)) &&
  bool_decide (is_Some (enhancedResult s)).

Definition isActionable (s : App) : bool := bool_decide (appState s = LOADED).

(** The [disabled] attributes of the three view buttons. *)
Definition zoomInDisabled (s : App) : bool := isBusy s || JS.ge (zoom s) 50.
Definition zoomOutDisabled (s : App) : bool := isBusy s.
Definition resetViewDisabled (s : App) : bool :=
  isBusy s ||
  (JS.eq (zoom s) 1 && JS.eq (px (pan s)) 0 && JS.eq (py (pan s)) 0).

(** The timeout fires: the [triggerInference] of the render that set it
    runs, and through [onInpaint] the [handleInpaint] of that render. *)
Definition inferenceTimerFires (canvas : option CanvasBox) (window : R * R)
    (has2dContext : bool) (sd : App * Display) : App * Display :=
  let '(s, d) := sd in
  match inferenceTimer d with
  | Some render =>
      let d := clearInferenceTimer d in
      match triggerInference canvas window render with
      | Some (worldRect, screenRect) =>
          (handleInpaint_from render has2dContext worldRect screenRect s, d)
      | None => (s, d)
      end
  | None => sd
  end.

(** When the ImageDisplay is not mounted its state is gone; the next mount
    starts from the initial one. *)
Definition remount (sd : App * Display) : App * Display :=
  if displayMounted (fst sd) then sd else (fst sd, initialDisplay).

(** One event, before the re-render. *)
Definition handle (sd : App * Display) (ev : Event) : App * Display :=
  let '(s, d) := sd in
  match ev with
  | Wheel canvas deltaY pos =>
      if displayMounted s then handleWheel canvas deltaY pos sd else sd
  | MouseDown button pos =>
      if displayMounted s then handleMouseDown button pos sd else sd
  | MouseMove canvas pos =>
      if displayMounted s then handleMouseMove canvas pos sd else sd
  | MouseUp => if displayMounted s then handleMouseUp sd else sd
  | MouseLeave => if displayMounted s then handleMouseLeave sd else sd
  | ZoomInClick =>
      if displayMounted s && negb (zoomInDisabled s) then handleZoomIn sd
      else sd
  | ZoomOutClick =>
      if displayMounted s && negb (zoomOutDisabled s) then handleZoomOut sd
      else sd
  | ResetZoomClick canvas =>
      if displayMounted s && negb (resetViewDisabled s)
      then handleResetZoom canvas sd
      else sd
  | InferenceTimerFires canvas window has2dContext =>
      inferenceTimerFires (if displayMounted s then canvas else None)
        window has2dContext sd
  | SelectionAnimatorComplete reply =>
      if animatorMounted s then (performEnhancement reply s, d) else sd
  | PixelDissolveComplete =>
      if dissolveMounted s then (handleEnhancementComplete s, d) else sd
  | NewCapture img gps locationStatus now oracle =>
      (handleNewCapture img gps locationStatus now oracle s, d)
  | ResetClick => if isActionable s then (resetState s, d) else sd
  | InitialImageLoads capturesLength img =>
      (initialImage_onload capturesLength img s, d)
  | InitialImageFails => (initialImage_onerror s, d)
  | UseDeviceCamClick =>
      if isActionable s then (handleUseDeviceCamClick s, d) else sd
  | CameraCloseClick =>
      if bool_decide (appState s = CAMERA_ACTIVE) then (handleCameraClose s, d)
      else sd
  end.

Definition step (sd : App * Display) (ev : Event) : App * Display :=
  remount (handle sd ev).

(** The first render runs [loadInitialImage]. *)
Definition mounted : App * Display := (loadInitialImage initialApp, initialDisplay).

Definition run (events : list Event) : App * Display := foldl step mounted events.

(** Whether the event creates an enhancement job: the timer fires,
    [triggerInference] calls [onInpaint] and [handleInpaint] passes both of
    its early returns. *)
Definition createsJob (sd : App * Display) (ev : Event) : bool :=
  match ev with
  | InferenceTimerFires canvas window has2dContext =>
      match inferenceTimer (snd sd) with
      | Some render =>
          bool_decide (is_Some (triggerInference
                                  (if displayMounted (fst sd) then canvas
                                   else None)
                                  window render)) &&
          bool_decide (appState render = LOADED) && has2dContext
      | None => false
      end
  | _ => false
  end.



(** ** Vocabulary of the statements *)

(** The pixel [(i, j)] lies in the rectangle. *)
Definition inRect (r : Rect Z) (i j : Z) : Prop :=
  rx r ≤ i < rx r + rw r ∧ ry r ≤ j < ry r + rh r.

(** The tile that [retileCell] stores for [(x, y)]. *)
Definition enhancedTileAt (enhancedImage : Image) (worldRect : Rect Z)
    (x y : Z) : TileData :=
  let cropRect :=
    {| rx := x * TILE_SIZE - rx worldRect;
       ry := y * TILE_SIZE - ry worldRect;
       rw := TILE_SIZE;
       rh := TILE_SIZE |} in
  {| image := cropImage enhancedImage cropRect TILE_SIZE TILE_SIZE;
     isEnhanced := true |}.

(** What one stored tile contributes to the stitched canvas at the canvas
    pixel [(i, j)]. *)
Definition stitchHit (tiles : gmap string TileData) (stitchedWorldRect : Rect Z)
    (x y i j : Z) : Pixel :=
  match tiles !! tileKey x y with
  | Some tile =>
      sample (image tile) (i - (x * TILE_SIZE - rx stitchedWorldRect))
        (j - (y * TILE_SIZE - ry stitchedWorldRect))
  | None => None
  end.

(** No stored tile is larger than a grid cell. *)
Definition tilesFit (tiles : gmap string TileData) : Prop :=
  ∀ k tile, tiles !! k = Some tile →
    naturalWidth (image tile) ≤ TILE_SIZE ∧
    naturalHeight (image tile) ≤ TILE_SIZE.

(** Every cell of the world's grid has a tile. *)
Definition gridCovered (tiles : gmap string TileData) (ws : WorldSize) : Prop :=
  ∀ col row,
    0 ≤ col < JS.Math_ceil_div (width ws) TILE_SIZE →
    0 ≤ row < JS.Math_ceil_div (height ws) TILE_SIZE →
    is_Some (tiles !! tileKey col row).

(** The stored keys are the cells of the world's grid and nothing else. *)
Definition gridExact (tiles : gmap string TileData) (ws : WorldSize) : Prop :=
  ∀ k, is_Some (tiles !! k) ↔
       ∃ col row,
         0 ≤ col < JS.Math_ceil_div (width ws) TILE_SIZE ∧
         0 ≤ row < JS.Math_ceil_div (height ws) TILE_SIZE ∧
         k = tileKey col row.

(** The handlers of the viewport leave everything but [pan] and [zoom]. *)
Definition sameWorld (s s' : App) : Prop :=
  appState s' = appState s ∧ captures s' = captures s ∧ tiles s' = tiles s ∧
  worldSize s' = worldSize s ∧ enhancementJob s' = enhancementJob s ∧
  stitchedEnhanceImage s' = stitchedEnhanceImage s ∧
  enhancedResult s' = enhancedResult s ∧
  isDefaultWorld s' = isDefaultWorld s.



(** The zoom lies in [0.1, 50]. *)
Definition zoomInRange (s : App) : Prop := (0.1 <= zoom s <= 50)%R.

(** The vertical clamp of the viewport for a canvas of the given box: a
    world taller than the viewport covers it, a smaller one is centred. *)
Definition verticalClamp (box : CanvasBox) (s : App) : Prop :=
  let worldPixelHeight := (IZR (height (worldSize s)) * zoom s)%R in
  ((worldPixelHeight > cssHeight box)%R →
   (cssHeight box - worldPixelHeight <= py (pan s) <= 0)%R) ∧
  (¬ (worldPixelHeight > cssHeight box)%R →
   py (pan s) = ((cssHeight box - worldPixelHeight) / 2)%R).

(** The placeholder world's baseline capture carries no GPS coordinate. *)
Definition placeholderHasNoGps (s : App) : Prop :=
  isDefaultWorld s = true →
  ∃ baseCapture rest, captures s = baseCapture :: rest ∧ capGps baseCapture = None.

(** ** Concrete inputs *)

(** An opaque image of one colour. *)
Definition solidImage (w h colour : Z) : Image :=
  {| naturalWidth := w; naturalHeight := h; pixelAt := λ _ _, Some colour |}.

(** Reduction stops at the services and at the loops. *)
Arguments serviceEnhance : simpl never.
Arguments stitchTiles : simpl never.
Arguments retile : simpl never.
Arguments tileizeWith : simpl never.
Arguments calculateDistance : simpl never.
Arguments handleWheel : simpl never.
Arguments handleMouseDown : simpl never.
Arguments handleMouseMove : simpl never.
Arguments handleMouseUp : simpl never.
Arguments handleMouseLeave : simpl never.
Arguments handleZoomIn : simpl never.
Arguments handleZoomOut : simpl never.
Arguments handleResetZoom : simpl never.
Arguments handleInpaint_from : simpl never.
Arguments handleInpaint : simpl never.
Arguments handleNewCapture : simpl never.
Arguments triggerInference : simpl never.
Arguments inferenceTimerFires : simpl never.

(** Two worlds of one tile each, and an enhanced raster. *)
Definition worldA : Image := solidImage 512 512 1.
Definition worldB : Image := solidImage 512 512 2.
Definition enhancedA : Image := solidImage 512 512 9.

(** The starter image has loaded: the placeholder world. *)
Definition defaultWorldA : App :=
  initialImage_onload 0 worldA (loadInitialImage initialApp).

(** A view inside the only tile, and a view that is wider than the world. *)
Definition viewInside : Rect R := mkRect 0%R 0%R 256%R 192%R.
Definition viewBeyond : Rect R := mkRect 0%R 0%R 600%R 192%R.
Definition screen : Rect R := mkRect 0%R 0%R 1024%R 768%R.

(** What [handleInpaint] stitches for the two views. *)
Definition stitchedRectInside : Rect Z := mkRect 0 0 512 512.
Definition stitchedInside : RegionImage :=
  mkRegion (stitchTiles (tiles defaultWorldA) stitchedRectInside 0 0 0 0)
    stitchedRectInside.
Definition stitchedRectBeyond : Rect Z := mkRect 0 0 1024 512.
Definition stitchedBeyond : RegionImage :=
  mkRegion (stitchTiles (tiles defaultWorldA) stitchedRectBeyond 0 1 0 0)
    stitchedRectBeyond.

Definition someGps : GPSCoordinates := mkGPS 48 11.

(** A world of 1000 x 1000 pixels, just loaded, on a canvas 900 pixels high. *)
Definition tallWorld : App :=
  initialImage_onload 0 (solidImage 1000 1000 3) (loadInitialImage initialApp).
Definition lowCanvas : CanvasBox := mkCanvasBox 1200 900.

(** A world of two tile columns. *)
Definition wideWorld : Image := solidImage 1024 512 4.

(** Three points on the equator: 150 m and 50 m east of the first. *)
Definition gpsOrigin : GPSCoordinates := mkGPS 0 0.
Definition gps50mEast : GPSCoordinates :=
  mkGPS 0 (50 * 180 / (6371000 * PI)).


(** ** The ImageDisplay component: [draw] *)

(** The grid positions that the two loops of [draw] visit for a view
    rectangle, in the order of the loops. *)
Definition drawRange (viewRectWorld : Rect R) (tileSize : Z) : list (Z * Z) :=
  let startTileX := Zfloor (rx viewRectWorld / IZR tileSize) in
  let endTileX :=
    Zceil ((rx viewRectWorld + rw viewRectWorld) / IZR tileSize) in
  let startTileY := Zfloor (ry viewRectWorld / IZR tileSize) in
  let endTileY :=
    Zceil ((ry viewRectWorld + rh viewRectWorld) / IZR tileSize) in
  y ← seqZ startTileY (endTileY - startTileY);
  x ← seqZ startTileX (endTileX - startTileX);
  [(x, y)].

(** One call [ctx.drawImage(tile.image, dx, dy, dWidth, dHeight)]: the
    image is scaled to the destination size. *)
Record DrawCall := mkDrawCall {
  drawnTile : TileData;
  destX : Z;
  destY : Z;
  destWidth : Z;
  destHeight : Z
}.

(** The [drawImage] calls of [draw], in order.  [has2dContext] tells
    whether [canvas.getContext('2d')] gave a context. *)
Definition draw (has2dContext : bool) (canvas : option CanvasBox)
    (tileSize : Z) (s : App) : list DrawCall :=
  if negb has2dContext || bool_decide (canvas = None) ||
     bool_decide (width (worldSize s) = 0)
  then []
  else
    let viewRectWorld := getTransform canvas s in
    omap (λ '(x, y),
            match drawLookup (tiles s) (worldSize s) tileSize x y with
            | Some tile =>
                Some (mkDrawCall tile (x * tileSize) (y * tileSize)
                        tileSize tileSize)
            | None => None
            end)
         (drawRange viewRectWorld tileSize).

(** ** Vocabulary of the further properties *)

(** The capture sequence: with no capture there is no tile, no job and no
    pending result, and the application is loading or idle; otherwise the
    baseline capture is the panorama and every later capture a perspective
    image, and the placeholder flag is set exactly when the baseline is the
    starter image. *)
Definition capturesInvariant (s : App) : Prop :=
  match captures s with
  | [] =>
      tiles s = ∅ ∧ enhancementJob s = None ∧
      stitchedEnhanceImage s = None ∧ enhancedResult s = None ∧
      isDefaultWorld s = false ∧
      (appState s = LOADING ∨ appState s = IDLE)
  | baseCapture :: rest =>
      capType baseCapture = EQUIRECTANGULAR ∧
      Forall (λ capture, capType capture = PERSPECTIVE) rest ∧
      (isDefaultWorld s = true ↔ capId baseCapture = capture_default)
  end.

(** The world is the baseline capture's image: its size is the size of
    that image, every cell of its grid has a tile, and a tile map that is
    not empty belongs to a world of positive width and height. *)
Definition gridInvariant (s : App) : Prop :=
  match captures s with
  | [] => True
  | baseCapture :: _ =>
      worldSize s = mkWorldSize (naturalWidth (capImage baseCapture))
                      (naturalHeight (capImage baseCapture)) ∧
      gridCovered (tiles s) (worldSize s) ∧
      (tiles s ≠ ∅ → 0 < width (worldSize s) ∧ 0 < height (worldSize s))
  end.

(** While a job is live, the component that will end its phase is mounted
    and there are tiles; the state is never SELECTING. *)
Definition animationInvariant (s : App) : Prop :=
  (appState s = ENHANCING → animatorMounted s = true ∧ tiles s ≠ ∅) ∧
  (appState s = ENHANCED → dissolveMounted s = true ∧ tiles s ≠ ∅) ∧
  appState s ≠ SELECTING.

(** The banner is shown only in a world whose banana has been found. *)
Definition bannerInvariant (s : App) : Prop :=
  showBananaBanner s = true → hasFoundBanana s = true.

(** The state with another view. *)
Definition withView (pan : Point) (zoom : R) (s : App) : App :=
  s |> setPan pan |> setZoom zoom.

(** The events of the viewport. *)
Definition isViewportEvent (ev : Event) : bool :=
  match ev with
  | Wheel _ _ _ | MouseDown _ _ | MouseMove _ _ | MouseUp | MouseLeave
  | ZoomInClick | ZoomOutClick | ResetZoomClick _ => true
  | _ => false
  end.

(** What the further properties need of a reachable state, taken
    together. *)
Definition reachableInvariant (s : App) : Prop :=
  capturesInvariant s ∧ gridInvariant s ∧ animationInvariant s ∧
  bannerInvariant s.

(** ** The App component: where captures come from *)


(** A [File], as far as [handleFileLoad] looks at it: its MIME type. *)
Record File := mkFile { fileType : string }.

(** What [exifr.parse] does: it throws, it returns nothing, or it returns
    an object whose [latitude] and [longitude] are numbers or are not. *)
Inductive ExifResult :=
| ExifThrows
| ExifNothing
| ExifObject (exifLatitude exifLongitude : option R).

(** [handleFileLoad].  [decoded] is the image that the [FileReader] and the
    image decoder deliver; when one of them fails no callback runs.  The
    capture is handled when the image has decoded, with nothing happening
    in between. *)
Definition handleFileLoad (file : option File) (exif : ExifResult)
    (decoded : option Image) (now : Z) (oracle : SceneOracle) (s : App) : App :=
  match file with
  | None => s
  | Some file =>
      if negb (String.prefix "image/" (fileType file)) then s
      else
        match exif with
        | ExifThrows =>
            match decoded with
            | Some img => handleNewCapture img None None now oracle s
            | None => s
            end
        | _ =>
            let gps :=
              match exif with
              | ExifObject (Some latitude) (Some longitude) =>
                  Some (mkGPS latitude longitude)
              | _ => None
              end in
            match decoded with
            | Some img =>
                handleNewCapture img gps
                  (match gps with Some _ => Some ACQUIRED | None => None end)
                  now oracle s
            | None => s
            end
        end
  end.

(** ** Vocabulary for [serviceEnhance] *)

(** The data of the last part of the answer that carries inline data. *)
Definition lastInlineData (parts : list ResponsePart) : option Image :=
  last (omap (λ part, match part with
                      | InlineDataPart data => Some data
                      | _ => None
                      end) parts).

(** Some text part of the answer reports the banana. *)
Definition reportsBanana (parts : list ResponsePart) : bool :=
  existsb (λ part, match part with
                   | TextPart (Some true) => true
                   | _ => false
                   end) parts.

(** ** [dataUrlToBase64] *)

(** [s.split(separator)] for a separator of one character. *)
Fixpoint String_split (separator : ascii) (s : string) : list string :=
  match s with
  | EmptyString => [EmptyString]
  | String c rest =>
      if decide (c = separator) then EmptyString :: String_split separator rest
      else
        match String_split separator rest with
        | first :: others => String c first :: others
        | [] => [String c EmptyString]
        end
  end.

Module ServiceEnhance.

(** [dataUrlToBase64] of utils/serviceEnhance.ts. *)
Definition dataUrlToBase64 (dataUrl : string) : string :=
  let parts := String_split "," dataUrl in
  if bool_decide (1 < length parts)%nat then default "" (parts !! 1%nat)
  else "".

(** The data URL that [serviceEnhance] builds from an inline-data part:
    [`data:${mimeType};base64,${imageData}`]. *)
Definition imageSrcOf (mimeType imageData : string) : string :=
  "data:" +:+ mimeType +:+ ";base64," +:+ imageData.

End ServiceEnhance.

Module ServiceCompareScenes.

(** [dataUrlToBase64] of utils/serviceCompareScenes.ts:
    [dataUrl.split(',')[1] ?? '']. *)
Definition dataUrlToBase64 (dataUrl : string) : string :=
  default "" (String_split "," dataUrl !! 1%nat).

End ServiceCompareScenes.

(** Whether a string contains a comma. *)
Fixpoint hasComma (s : string) : bool :=
  match s with
  | EmptyString => false
  | String c s' => if decide (c = ","%char) then true else hasComma s'
  end.

(** ** The hook [useGps] *)

Module GpsStatus.
Inductive t := IDLE | REQUESTING | ACQUIRED | UNAVAILABLE.
End GpsStatus.

Record PathPoint := mkPathPoint {
  coordinates : option GPSCoordinates;
  timestamp : Z;
  status : GpsStatus.t
}.

(** The state of the hook. *)
Record Gps := mkGps {
  gpsStatus : GpsStatus.t;
  currentCoordinates : option GPSCoordinates;
  path : list PathPoint
}.

Definition initialGps : Gps :=
  {| gpsStatus := GpsStatus.IDLE; currentCoordinates := None; path := [] |}.

Definition setGpsStatus (v : GpsStatus.t) (g : Gps) : Gps :=
  mkGps v (currentCoordinates g) (path g).
Definition setCurrentCoordinates (v : option GPSCoordinates) (g : Gps) : Gps :=
  mkGps (gpsStatus g) v (path g).
Definition setPath (f : list PathPoint → list PathPoint) (g : Gps) : Gps :=
  mkGps (gpsStatus g) (currentCoordinates g) (f (path g)).

(** [now] is [Date.now()]. *)
Definition addPathPoint (status : GpsStatus.t)
    (coordinates : option GPSCoordinates) (now : Z) (g : Gps) : Gps :=
  setPath (λ prevPath, prevPath ++ [mkPathPoint coordinates now status]) g.

Definition handleSuccess (position : GPSCoordinates) (now : Z) (g : Gps) : Gps :=
  let newCoordinates :=
    {| latitude := latitude position; longitude := longitude position |} in
  g |> setGpsStatus GpsStatus.ACQUIRED
    |> setCurrentCoordinates (Some newCoordinates)
    |> addPathPoint GpsStatus.ACQUIRED (Some newCoordinates) now.

Definition handleError (now : Z) (g : Gps) : Gps :=
  g |> setGpsStatus GpsStatus.UNAVAILABLE
    |> setCurrentCoordinates None
    |> addPathPoint GpsStatus.UNAVAILABLE None now.

(** What [watchPosition] reports. *)
Inductive GpsEvent :=
| PositionSuccess (position : GPSCoordinates) (now : Z)
| PositionError (now : Z).

Definition gpsStep (g : Gps) (ev : GpsEvent) : Gps :=
  match ev with
  | PositionSuccess position now => handleSuccess position now g
  | PositionError now => handleError now g
  end.

(** The effect of the mount and the reports that follow.  Without
    [navigator.geolocation] no watch is registered, so nothing follows. *)
Definition useGps (hasGeolocation : bool) (now : Z) (events : list GpsEvent)
    : Gps :=
  if negb hasGeolocation then setGpsStatus GpsStatus.UNAVAILABLE initialGps
  else
    foldl gpsStep
      (initialGps |> setGpsStatus GpsStatus.REQUESTING
                  |> addPathPoint GpsStatus.REQUESTING None now)
      events.

(** The last point of the path shows the current status and coordinates. *)
Definition pathMirrorsStatus (g : Gps) : Prop :=
  ∃ point, last (path g) = Some point ∧
           status point = gpsStatus g ∧
           coordinates point = currentCoordinates g.

(** A point carries coordinates exactly when its status is ACQUIRED. *)
Definition pointWellFormed (point : PathPoint) : Prop :=
  is_Some (coordinates point) ↔ status point = GpsStatus.ACQUIRED.
(** * Properties *)

(** ** The definitions on small inputs *)

Example tileKey_3_1 : tileKey 3 1 = "3:1".
Proof. reflexivity. Qed.

Example tileKey_negative_column : tileKey (-1) 0 = "-1:0".
Proof. reflexivity. Qed.

Example numTiles_1000 : numTiles 512 1000 = 2.
Proof. reflexivity. Qed.

Example numTiles_1024 : numTiles 512 1024 = 2.
Proof. reflexivity. Qed.

Example numTiles_empty : numTiles 512 0 = 0.
Proof. reflexivity. Qed.

Example wrappedX_left_of_world : wrappedX 4 (-1) = 3.
Proof. reflexivity. Qed.

Example wrappedX_right_of_world : wrappedX 4 9 = 1.
Proof. reflexivity. Qed.

Example tileize_1000_by_600_edge_tile :
  tileCropRect 512 (solidImage 1000 600 7) 1 1 = mkRect 512 512 488 88.
Proof. reflexivity. Qed.

Example serviceCompareScenes_failure :
  serviceCompareScenes ModelCallFails = Resolved true.
Proof. reflexivity. Qed.

Example serviceCompareScenes_missing_field :
  serviceCompareScenes (ModelAnswers None) = Resolved false.
Proof. reflexivity. Qed.

Example serviceEnhance_last_image_wins :
  serviceEnhance worldA enhancePrompt false
    (EnhanceParts [InlineDataPart worldB; TextPart (Some true);
                   InlineDataPart enhancedA])
  = (enhancedA, true).
Proof. reflexivity. Qed.
(** ** Arithmetic facts *)

Lemma Math_floor_div_spec (a b : Z) :
  (0 < b)%Z → JS.Math_floor_div a b = Zfloor (IZR a / IZR b).
Proof.
  intros Hb. unfold JS.Math_floor_div. symmetry. apply Zfloor_eq.
  assert (Hb' : (0 < IZR b)%R) by (apply IZR_lt; lia).
  pose proof (Z.div_mod a b ltac:(lia)) as Hdm.
  pose proof (Z.mod_pos_bound a b Hb) as [Hm0 Hm1].
  assert (Ha : IZR a = (IZR b * IZR (a / b) + IZR (a mod b))%R).
  { rewrite <- mult_IZR, <- plus_IZR. f_equal. lia. }
  apply IZR_le in Hm0. apply IZR_lt in Hm1.
  split.
  - apply (Rmult_le_reg_l (IZR b)); [done|].
    replace (IZR b * (IZR a / IZR b))%R with (IZR a) by (field; lra). lra.
  - apply (Rmult_lt_reg_l (IZR b)); [done|].
    replace (IZR b * (IZR a / IZR b))%R with (IZR a) by (field; lra). lra.
Qed.

Lemma Math_ceil_div_spec (a b : Z) :
  (0 < b)%Z → JS.Math_ceil_div a b = Zceil (IZR a / IZR b).
Proof.
  intros Hb. unfold JS.Math_ceil_div, Zceil.
  fold (JS.Math_floor_div (- a) b). rewrite Math_floor_div_spec by done.
  do 2 f_equal. rewrite opp_IZR. field.
  apply not_0_IZR. lia.
Qed.

(** ** Tile keys *)

Lemma pretty_N_char_no_colon (d : N) : pretty_N_char d ≠ ":"%char.
Proof. unfold pretty_N_char. by repeat case_match. Qed.

Lemma pretty_N_go_no_colon (n : N) (s : string) :
  hasColon s = false → hasColon (pretty_N_go n s) = false.
Proof.
  revert s. induction (N.lt_wf_0 n) as [n _ IH]. intros s Hs.
  destruct (decide (n = 0%N)) as [->|Hn].
  - by rewrite pretty_N_go_0.
  - rewrite pretty_N_go_step by lia. apply IH.
    + apply N.div_lt; lia.
    + simpl. rewrite decide_False; [done|apply pretty_N_char_no_colon].
Qed.

Lemma pretty_N_no_colon (n : N) : hasColon (pretty n) = false.
Proof.
  unfold pretty, pretty_N. case_decide; [done|].
  by apply pretty_N_go_no_colon.
Qed.

Lemma pretty_Z_no_colon (z : Z) : hasColon (pretty z) = false.
Proof.
  destruct z as [|p|p]; [done|apply pretty_N_no_colon|].
  unfold pretty, pretty_Z. simpl. apply (pretty_N_no_colon (Npos p)).
Qed.

Lemma split_at_colon (a a' b b' : string) :
  hasColon a = false → hasColon a' = false →
  a +:+ ":" +:+ b = a' +:+ ":" +:+ b' → a = a' ∧ b = b'.
Proof.
  revert a'. induction a as [|c a IH]; intros [|c' a'] Ha Ha' Heq;
    simpl in *.
  - by simplify_eq.
  - by simplify_eq.
  - by simplify_eq.
  - injection Heq as -> Heq.
    case_decide; [done|]. destruct (IH a' Ha Ha' Heq) as [-> ->]. done.
Qed.

(** The template string determines the tile coordinates. *)
Lemma tileKey_inj (x y x' y' : Z) :
  tileKey x y = tileKey x' y' → x = x' ∧ y = y'.
Proof.
  unfold tileKey. intros Heq.
  apply split_at_colon in Heq as [Hx Hy]; [|apply pretty_Z_no_colon..].
  split; by apply (inj pretty).
Qed.

(** ** Tileization *)

Section TileizeFacts.

Variable T : Z.
Hypothesis T_pos : 0 < T.

Lemma numTiles_bounds (extent : Z) :
  (numTiles T extent - 1) * T < extent ≤ numTiles T extent * T.
Proof.
  unfold numTiles, JS.Math_ceil_div.
  pose proof (Z.div_mod (- extent) T ltac:(lia)).
  pose proof (Z.mod_pos_bound (- extent) T T_pos). nia.
Qed.

Lemma lt_numTiles (extent x : Z) : x < numTiles T extent ↔ x * T < extent.
Proof. pose proof (numTiles_bounds extent). split; nia. Qed.

Lemma numTiles_nonneg (extent : Z) : 0 ≤ extent → 0 ≤ numTiles T extent.
Proof. pose proof (numTiles_bounds extent). nia. Qed.

Lemma numTiles_zero : numTiles T 0 = 0.
Proof. pose proof (numTiles_bounds 0). nia. Qed.

(** Inside the grid the guard [cropRect.w > 0 && cropRect.h > 0] holds. *)
Lemma tileCropRect_nonempty (img : Image) (x y : Z) :
  x < numTiles T (naturalWidth img) → y < numTiles T (naturalHeight img) →
  0 < rw (tileCropRect T img x y) ∧ 0 < rh (tileCropRect T img x y).
Proof. rewrite !lt_numTiles. simpl. lia. Qed.

Lemma tileizeCell_inside (img : Image) (y x : Z) (m : gmap string TileData) :
  x < numTiles T (naturalWidth img) → y < numTiles T (naturalHeight img) →
  tileizeCell T img y m x = <[tileKey x y := tileAt T img x y]> m.
Proof.
  intros Hx Hy. unfold tileizeCell.
  by rewrite decide_True by by apply tileCropRect_nonempty.
Qed.

Section Row.

Variables (img : Image) (y : Z).
Hypothesis y_inside : y < numTiles T (naturalHeight img).

Let inside (xs : list Z) : Prop :=
  Forall (λ x, x < numTiles T (naturalWidth img)) xs.

Lemma row_lookup_other (xs : list Z) (m : gmap string TileData) (k : string) :
  inside xs → (∀ x, x ∈ xs → k ≠ tileKey x y) →
  foldl (tileizeCell T img y) m xs !! k = m !! k.
Proof.
  intros Hin. revert m. induction Hin as [|x xs Hx _ IH]; intros m Hk; [done|].
  simpl. rewrite IH by (intros; apply Hk; by right).
  rewrite tileizeCell_inside by done.
  apply lookup_insert_ne. intros Heq. by apply (Hk x); [left|].
Qed.

Lemma row_lookup_cell (xs : list Z) (m : gmap string TileData) (x : Z) :
  inside xs → x ∈ xs →
  foldl (tileizeCell T img y) m xs !! tileKey x y = Some (tileAt T img x y).
Proof.
  intros Hin. revert m.
  induction Hin as [|x0 xs Hx0 Hin IH]; intros m Hx; [by inversion Hx|].
  simpl. destruct (decide (x ∈ xs)) as [|Hnot]; [by apply IH|].
  apply elem_of_cons in Hx as [->|]; [|done].
  rewrite row_lookup_other; [|done|].
  - rewrite tileizeCell_inside by done. apply lookup_insert_eq.
  - intros x' Hx' [-> _]%tileKey_inj. done.
Qed.

Lemma row_lookup_origin (xs : list Z) (m : gmap string TileData)
    (k : string) (t : TileData) :
  inside xs → foldl (tileizeCell T img y) m xs !! k = Some t →
  m !! k = Some t ∨ ∃ x, x ∈ xs ∧ k = tileKey x y ∧ t = tileAt T img x y.
Proof.
  intros Hin. revert m.
  induction Hin as [|x0 xs Hx0 Hin IH]; intros m Hk; [by left|].
  simpl in Hk. apply IH in Hk as [Hk|(x & ? & ? & ?)].
  - rewrite tileizeCell_inside in Hk by done.
    apply lookup_insert_Some in Hk as [[<- <-]|[_ Hk]]; [|by left].
    right. exists x0. split; [by left|done].
  - right. exists x. split; [by right|done].
Qed.

Lemma row_size (xs : list Z) (m : gmap string TileData) :
  inside xs → NoDup xs → (∀ x, x ∈ xs → m !! tileKey x y = None) →
  size (foldl (tileizeCell T img y) m xs) = (size m + length xs)%nat.
Proof.
  intros Hin. revert m.
  induction Hin as [|x0 xs Hx0 Hin IH]; intros m Hnd Hfresh; simpl; [lia|].
  apply NoDup_cons in Hnd as [Hx0' Hnd].
  rewrite tileizeCell_inside by done. rewrite IH; [|done|].
  - rewrite map_size_insert_None by (apply Hfresh; by left). lia.
  - intros x Hx. rewrite lookup_insert_ne; [apply Hfresh; by right|].
    intros [-> _]%tileKey_inj. done.
Qed.

End Row.

End TileizeFacts.

Section TileizeGrid.

Variable T : Z.
Hypothesis T_pos : 0 < T.
Variable img : Image.

Let cols : list Z := seqZ 0 (numTiles T (naturalWidth img)).

Let cols_inside : Forall (λ x, x < numTiles T (naturalWidth img)) cols.
Proof. apply Forall_forall. intros x Hx%elem_of_seqZ. lia. Qed.

Let inside (ys : list Z) : Prop :=
  Forall (λ y, y < numTiles T (naturalHeight img)) ys.

Lemma grid_lookup_other (ys : list Z) (m : gmap string TileData) (k : string) :
  inside ys → (∀ x y, x ∈ cols → y ∈ ys → k ≠ tileKey x y) →
  foldl (tileizeRow T img) m ys !! k = m !! k.
Proof.
  intros Hin. revert m. induction Hin as [|y ys Hy _ IH]; intros m Hk; [done|].
  simpl. rewrite IH by (intros; apply Hk; [done|by right]).
  apply row_lookup_other; [done..|]. intros x Hx. apply Hk; [done|by left].
Qed.

Lemma grid_lookup_cell (ys : list Z) (m : gmap string TileData) (x y : Z) :
  inside ys → x ∈ cols → y ∈ ys →
  foldl (tileizeRow T img) m ys !! tileKey x y = Some (tileAt T img x y).
Proof.
  intros Hin Hx. revert m.
  induction Hin as [|y0 ys Hy0 Hin IH]; intros m Hy; [by inversion Hy|].
  simpl. destruct (decide (y ∈ ys)) as [|Hnot]; [by apply IH|].
  apply elem_of_cons in Hy as [->|]; [|done].
  rewrite grid_lookup_other; [|done|].
  - by apply row_lookup_cell.
  - intros x' y' _ Hy' [_ ->]%tileKey_inj. done.
Qed.

Lemma grid_lookup_origin (ys : list Z) (m : gmap string TileData)
    (k : string) (t : TileData) :
  inside ys → foldl (tileizeRow T img) m ys !! k = Some t →
  m !! k = Some t ∨
  ∃ x y, x ∈ cols ∧ y ∈ ys ∧ k = tileKey x y ∧ t = tileAt T img x y.
Proof.
  intros Hin. revert m.
  induction Hin as [|y0 ys Hy0 Hin IH]; intros m Hk; [by left|].
  simpl in Hk. apply IH in Hk as [Hk|(x & y & ? & ? & ? & ?)].
  - apply row_lookup_origin in Hk; [|done..].
    destruct Hk as [Hk|(x & ? & ? & ?)]; [by left|].
    right. exists x, y0. split_and!; [done|by left|done..].
  - right. exists x, y. split_and!; [done|by right|done..].
Qed.

Lemma grid_size (ys : list Z) (m : gmap string TileData) :
  inside ys → NoDup ys →
  (∀ x y, x ∈ cols → y ∈ ys → m !! tileKey x y = None) →
  size (foldl (tileizeRow T img) m ys)
  = (size m + length ys * length cols)%nat.
Proof.
  intros Hin. revert m.
  induction Hin as [|y0 ys Hy0 Hin IH]; intros m Hnd Hfresh; simpl; [lia|].
  apply NoDup_cons in Hnd as [Hy0' Hnd]. rewrite IH; [|done|].
  - unfold tileizeRow. fold cols. rewrite row_size; [lia|done..| |].
    + apply NoDup_seqZ.
    + intros x Hx. apply Hfresh; [done|by left].
  - intros x y Hx Hy. unfold tileizeRow. fold cols.
    rewrite row_lookup_other; [apply Hfresh; [done|by right]|done..|].
    intros x' _ [_ ->]%tileKey_inj. done.
Qed.

Let rows_inside :
  inside (seqZ 0 (numTiles T (naturalHeight img))).
Proof. apply Forall_forall. intros y Hy%elem_of_seqZ. lia. Qed.

(** What the two loops leave in the map: the tile of every grid cell and
    nothing else. *)
Lemma tileizeWith_lookup (k : string) (t : TileData) :
  tileizeWith T img !! k = Some t ↔
  ∃ x y, 0 ≤ x < numTiles T (naturalWidth img) ∧
         0 ≤ y < numTiles T (naturalHeight img) ∧
         k = tileKey x y ∧ t = tileAt T img x y.
Proof.
  unfold tileizeWith. split.
  - intros [Hk|(x & y & Hx%elem_of_seqZ & Hy%elem_of_seqZ & ? & ?)]
      %grid_lookup_origin; [by rewrite lookup_empty in Hk| |done].
    exists x, y. split_and!; [lia..|done|done].
  - intros (x & y & Hx & Hy & -> & ->).
    apply grid_lookup_cell; [done|apply elem_of_seqZ; lia..].
Qed.

Lemma tileizeWith_size :
  size (tileizeWith T img)
  = (Z.to_nat (numTiles T (naturalWidth img))
     * Z.to_nat (numTiles T (naturalHeight img)))%nat.
Proof.
  unfold tileizeWith. rewrite grid_size; [|done|apply NoDup_seqZ|].
  - unfold cols. rewrite map_size_empty, !length_seqZ. lia.
  - intros. apply lookup_empty.
Qed.

End TileizeGrid.

(** ** The grid of [tileizeImage] *)

(** C3 (as amended).  For every image of natural size W x H (both
    nonnegative) and every tile edge T > 0, the loops of [tileizeImage] store
    exactly ceil(W/T) * ceil(H/T) tiles; the keys are the [`${x}:${y}`] with
    0 <= x < ceil(W/T) and 0 <= y < ceil(H/T); the tile of (x, y) is the crop
    of the rectangle at (x*T, y*T) of size (min(T, W - x*T), min(T, H - y*T));
    every pixel of [0,W) x [0,H) lies in the rectangle of exactly one tile
    and no rectangle leaves [0,W) x [0,H); an image with W = 0 or H = 0 gives
    the empty map.  [tileizeImage] stores this map for T = TILE_SIZE and
    records the world size W x H as it is. *)
Theorem tileize_grid (T : Z) (img : Image) :
  0 < T → 0 ≤ naturalWidth img → 0 ≤ naturalHeight img →
  let W := naturalWidth img in
  let H := naturalHeight img in
  let numCols := JS.Math_ceil_div W T in
  let numRows := JS.Math_ceil_div H T in
  let rect x y := mkRect (x * T) (y * T) (Z.min T (W - x * T))
                    (Z.min T (H - y * T)) in
  let newTiles := tileizeWith T img in
  (numCols = Zceil (IZR W / IZR T) ∧ numRows = Zceil (IZR H / IZR T)) ∧
  size newTiles = Z.to_nat (numCols * numRows) ∧
  (∀ k t, newTiles !! k = Some t ↔
     ∃ x y, 0 ≤ x < numCols ∧ 0 ≤ y < numRows ∧ k = tileKey x y ∧
            t = {| image := cropImage img (rect x y) (rw (rect x y))
                              (rh (rect x y));
                   isEnhanced := false |}) ∧
  (∀ i j, 0 ≤ i < W → 0 ≤ j < H →
     ∃ x y, (0 ≤ x < numCols ∧ 0 ≤ y < numRows) ∧ inRect (rect x y) i j ∧
            ∀ x' y', 0 ≤ x' < numCols → 0 ≤ y' < numRows →
                     inRect (rect x' y') i j → x' = x ∧ y' = y) ∧
  (∀ x y i j, 0 ≤ x < numCols → 0 ≤ y < numRows → inRect (rect x y) i j →
     0 ≤ i < W ∧ 0 ≤ j < H) ∧
  (W = 0 ∨ H = 0 → newTiles = ∅) ∧
  (∀ capture s,
     tiles (tileizeImage capture s) = tileizeWith TILE_SIZE (capImage capture) ∧
     worldSize (tileizeImage capture s)
     = mkWorldSize (naturalWidth (capImage capture))
         (naturalHeight (capImage capture))).
Proof.
  intros HT HW HH W H numCols numRows rect newTiles.
  assert (Hcols : ∀ x, x < numCols ↔ x * T < W) by (intros; by apply lt_numTiles).
  assert (Hrows : ∀ y, y < numRows ↔ y * T < H) by (intros; by apply lt_numTiles).
  split_and!.
  - by apply Math_ceil_div_spec.
  - by apply Math_ceil_div_spec.
  - unfold newTiles. rewrite tileizeWith_size by done.
    pose proof (numTiles_nonneg T HT W HW) as Hc.
    pose proof (numTiles_nonneg T HT H HH) as Hr.
    change (numTiles T W) with numCols in Hc.
    change (numTiles T H) with numRows in Hr.
    change (numTiles T (naturalWidth img)) with numCols.
    change (numTiles T (naturalHeight img)) with numRows. lia.
  - intros k t. unfold newTiles. by rewrite tileizeWith_lookup.
  - intros i j Hi Hj. exists (i / T), (j / T).
    pose proof (Z.div_mod i T ltac:(lia)).
    pose proof (Z.mod_pos_bound i T HT).
    pose proof (Z.div_mod j T ltac:(lia)).
    pose proof (Z.mod_pos_bound j T HT).
    assert (0 ≤ i / T) by (apply Z.div_pos; lia).
    assert (0 ≤ j / T) by (apply Z.div_pos; lia).
    split; [split|split].
    + split; [done|]. apply Hcols. nia.
    + split; [done|]. apply Hrows. nia.
    + unfold inRect, rect. simpl. nia.
    + intros x' y' Hx' Hy' [Hi' Hj']. simpl in *. split; nia.
  - intros x y i j Hx Hy [Hi Hj]. simpl in *.
    destruct Hx as [Hx0 Hx%Hcols]. destruct Hy as [Hy0 Hy%Hrows]. nia.
  - intros Hzero. apply map_eq. intros k. rewrite lookup_empty.
    apply eq_None_not_Some. intros [t Ht].
    apply tileizeWith_lookup in Ht as (x & y & Hx & Hy & _); [|done].
    fold W H in Hx, Hy. change (numTiles T W) with numCols in Hx.
    change (numTiles T H) with numRows in Hy.
    destruct Hx as [Hx0 Hx%Hcols]. destruct Hy as [Hy0 Hy%Hrows]. nia.
  - done.
Qed.

(** Zero width, positive height: the recorded world size is not 0 x 0. *)
Lemma tileize_zero_width_keeps_height :
  let capture := mkCapture capture_default EQUIRECTANGULAR (solidImage 0 7 0)
                   None None in
  (naturalWidth (capImage capture) = 0 ∨ naturalHeight (capImage capture) = 0) ∧
  tiles (tileizeImage capture initialApp) = ∅ ∧
  worldSize (tileizeImage capture initialApp) = mkWorldSize 0 7 ∧
  worldSize (tileizeImage capture initialApp) ≠ mkWorldSize 0 0.
Proof. split_and!; [by left|done|done|discriminate]. Qed.

Lemma tileize_grid_witness :
  size (tileizeWith 512 (solidImage 1000 600 7)) = 4%nat.
Proof.
  destruct (tileize_grid 512 (solidImage 1000 600 7)) as (_ & Hsize & _);
    [simpl; lia..|].
  exact Hsize.
Defined.

(** ** Retiling *)

Lemma elem_of_tileRange (a b x : Z) : x ∈ tileRange a b ↔ a ≤ x ≤ b.
Proof. unfold tileRange. rewrite elem_of_seqZ. lia. Qed.

Lemma NoDup_tileRange (a b : Z) : NoDup (tileRange a b).
Proof. apply NoDup_seqZ. Qed.

Section Retile.

Variables (enhancedImage : Image) (worldRect : Rect Z).

Let cell := retileCell enhancedImage worldRect.
Let tileOf := enhancedTileAt enhancedImage worldRect.

Lemma retileRow_lookup_other (y : Z) (xs : list Z)
    (m : gmap string TileData) (k : string) :
  (∀ x, x ∈ xs → k ≠ tileKey x y) → foldl (cell y) m xs !! k = m !! k.
Proof.
  revert m. induction xs as [|x xs IH]; intros m Hk; [done|].
  simpl. rewrite IH by (intros; apply Hk; by right).
  apply lookup_insert_ne. intros Heq. by apply (Hk x); [left|].
Qed.

Lemma retileRow_lookup_cell (y : Z) (xs : list Z)
    (m : gmap string TileData) (x : Z) :
  x ∈ xs → foldl (cell y) m xs !! tileKey x y = Some (tileOf x y).
Proof.
  revert m. induction xs as [|x0 xs IH]; intros m Hx; [by inversion Hx|].
  simpl. destruct (decide (x ∈ xs)) as [|Hnot]; [by apply IH|].
  apply elem_of_cons in Hx as [->|]; [|done].
  rewrite retileRow_lookup_other; [apply lookup_insert_eq|].
  intros x' Hx' [-> _]%tileKey_inj. done.
Qed.

Lemma retileRow_lookup_origin (y : Z) (xs : list Z)
    (m : gmap string TileData) (k : string) (t : TileData) :
  foldl (cell y) m xs !! k = Some t →
  m !! k = Some t ∨ ∃ x, x ∈ xs ∧ k = tileKey x y ∧ t = tileOf x y.
Proof.
  revert m. induction xs as [|x0 xs IH]; intros m Hk; [by left|].
  simpl in Hk. apply IH in Hk as [Hk|(x & ? & ? & ?)].
  - unfold cell, retileCell in Hk.
    apply lookup_insert_Some in Hk as [[<- <-]|[_ Hk]]; [|by left].
    right. exists x0. split; [by left|done].
  - right. exists x. split; [by right|done].
Qed.

Variable xs : list Z.

Let rows (m : gmap string TileData) (ys : list Z) : gmap string TileData :=
  foldl (λ updatedTiles y, foldl (cell y) updatedTiles xs) m ys.

Lemma retileRows_lookup_other (ys : list Z) (m : gmap string TileData)
    (k : string) :
  (∀ x y, x ∈ xs → y ∈ ys → k ≠ tileKey x y) → rows m ys !! k = m !! k.
Proof.
  revert m. induction ys as [|y ys IH]; intros m Hk; [done|].
  simpl. rewrite IH by (intros; apply Hk; [done|by right]).
  apply retileRow_lookup_other. intros x Hx. apply Hk; [done|by left].
Qed.

Lemma retileRows_lookup_cell (ys : list Z) (m : gmap string TileData)
    (x y : Z) :
  x ∈ xs → y ∈ ys → rows m ys !! tileKey x y = Some (tileOf x y).
Proof.
  intros Hx. revert m.
  induction ys as [|y0 ys IH]; intros m Hy; [by inversion Hy|].
  simpl. destruct (decide (y ∈ ys)) as [|Hnot]; [by apply IH|].
  apply elem_of_cons in Hy as [->|]; [|done].
  rewrite retileRows_lookup_other; [by apply retileRow_lookup_cell|].
  intros x' y' _ Hy' [_ ->]%tileKey_inj. done.
Qed.

Lemma retileRows_lookup_origin (ys : list Z) (m : gmap string TileData)
    (k : string) (t : TileData) :
  rows m ys !! k = Some t →
  m !! k = Some t ∨
  ∃ x y, x ∈ xs ∧ y ∈ ys ∧ k = tileKey x y ∧ t = tileOf x y.
Proof.
  revert m. induction ys as [|y0 ys IH]; intros m Hk; [by left|].
  simpl in Hk. apply IH in Hk as [Hk|(x & y & ? & ? & ? & ?)].
  - apply retileRow_lookup_origin in Hk as [Hk|(x & ? & ? & ?)]; [by left|].
    right. exists x, y0. split_and!; [done|by left|done..].
  - right. exists x, y. split_and!; [done|by right|done..].
Qed.

End Retile.

(** The tiles that the retiling loops produce: one for every cell of the
    range, each flagged as enhanced. *)
Lemma retile_lookup (enhancedImage : Image) (worldRect : Rect Z)
    (k : string) (t : TileData) :
  retile enhancedImage worldRect !! k = Some t ↔
  ∃ x y,
    rx worldRect / TILE_SIZE ≤ x ≤ (rx worldRect + rw worldRect) / TILE_SIZE ∧
    ry worldRect / TILE_SIZE ≤ y ≤ (ry worldRect + rh worldRect) / TILE_SIZE ∧
    k = tileKey x y ∧ t = enhancedTileAt enhancedImage worldRect x y.
Proof.
  unfold retile, JS.Math_floor_div. split.
  - intros [Hk|(x & y & Hx%elem_of_tileRange & Hy%elem_of_tileRange & ? & ?)]
      %retileRows_lookup_origin; [by rewrite lookup_empty in Hk|].
    by exists x, y.
  - intros (x & y & Hx & Hy & -> & ->).
    by apply retileRows_lookup_cell; apply elem_of_tileRange.
Qed.

Lemma retile_lookup_None (enhancedImage : Image) (worldRect : Rect Z)
    (k : string) :
  (∀ x y,
     rx worldRect / TILE_SIZE ≤ x ≤ (rx worldRect + rw worldRect) / TILE_SIZE →
     ry worldRect / TILE_SIZE ≤ y ≤ (ry worldRect + rh worldRect) / TILE_SIZE →
     k ≠ tileKey x y) →
  retile enhancedImage worldRect !! k = None.
Proof.
  intros Hk. apply eq_None_not_Some. intros [t Ht].
  apply retile_lookup in Ht as (x & y & Hx & Hy & -> & _). by eapply Hk.
Qed.

(** The range of an aligned one-tile rectangle has four tile positions. *)
Example retile_range_of_one_tile :
  dom (retile enhancedA (mkRect 0 0 512 512))
  = {[tileKey 0 0; tileKey 1 0; tileKey 0 1; tileKey 1 1]}.
Proof. vm_compute. reflexivity. Qed.

(** ** Stitching *)

Lemma sample_outside (img : Image) (i j : Z) :
  ¬ (0 ≤ i < naturalWidth img ∧ 0 ≤ j < naturalHeight img) →
  sample img i j = None.
Proof. intros Hout. unfold sample. by rewrite decide_False. Qed.

Lemma sample_inside (img : Image) (i j : Z) :
  0 ≤ i < naturalWidth img → 0 ≤ j < naturalHeight img →
  sample img i j = pixelAt img i j.
Proof. intros Hi Hj. unfold sample. by rewrite decide_True. Qed.

Section Stitch.

Variables (tiles : gmap string TileData) (stitchedWorldRect : Rect Z).
Variables (i j : Z).

Let hit (x y : Z) : Pixel := stitchHit tiles stitchedWorldRect x y i j.
Let cell := stitchCell tiles stitchedWorldRect.

Lemma stitchCell_pixel (y : Z) (canvas : Image) (x : Z) :
  pixelAt (cell y canvas x) i j
  = match hit x y with Some c => Some c | None => pixelAt canvas i j end.
Proof.
  unfold cell, stitchCell, hit, stitchHit.
  by destruct (tiles !! tileKey x y).
Qed.

Lemma stitchRow_miss (y : Z) (xs : list Z) (canvas : Image) :
  (∀ x, x ∈ xs → hit x y = None) →
  pixelAt (foldl (cell y) canvas xs) i j = pixelAt canvas i j.
Proof.
  revert canvas. induction xs as [|x xs IH]; intros canvas Hmiss; [done|].
  simpl. rewrite IH by (intros; apply Hmiss; by right).
  rewrite stitchCell_pixel, Hmiss; [done|by left].
Qed.

Lemma stitchRow_hit (y : Z) (xs : list Z) (canvas : Image) (x : Z) (c : Z) :
  x ∈ xs → hit x y = Some c → (∀ x', x' ∈ xs → x' ≠ x → hit x' y = None) →
  pixelAt (foldl (cell y) canvas xs) i j = Some c.
Proof.
  intros Hx Hhit. revert canvas.
  induction xs as [|x0 xs IH]; intros canvas Hothers; [by inversion Hx|].
  simpl. destruct (decide (x ∈ xs)) as [Hin|Hnot].
  - apply IH; [done|]. intros x' Hx'. apply Hothers. by right.
  - apply elem_of_cons in Hx as [->|]; [|done].
    rewrite stitchRow_miss.
    + by rewrite stitchCell_pixel, Hhit.
    + intros x' Hx'. apply Hothers; [by right|]. by intros ->.
Qed.

Variable xs : list Z.

Let rows (canvas : Image) (ys : list Z) : Image :=
  foldl (λ canvas y, foldl (cell y) canvas xs) canvas ys.

Lemma stitchRows_miss (ys : list Z) (canvas : Image) :
  (∀ x y, x ∈ xs → y ∈ ys → hit x y = None) →
  pixelAt (rows canvas ys) i j = pixelAt canvas i j.
Proof.
  revert canvas. induction ys as [|y ys IH]; intros canvas Hmiss; [done|].
  simpl. rewrite IH by (intros; apply Hmiss; [done|by right]).
  apply stitchRow_miss. intros x Hx. apply Hmiss; [done|by left].
Qed.

Lemma stitchRows_hit (ys : list Z) (canvas : Image) (x y : Z) (c : Z) :
  x ∈ xs → y ∈ ys → hit x y = Some c →
  (∀ x' y', x' ∈ xs → y' ∈ ys → (x', y') ≠ (x, y) → hit x' y' = None) →
  pixelAt (rows canvas ys) i j = Some c.
Proof.
  intros Hx Hy Hhit. revert canvas.
  induction ys as [|y0 ys IH]; intros canvas Hothers; [by inversion Hy|].
  simpl. destruct (decide (y ∈ ys)) as [Hin|Hnot].
  - apply IH; [done|]. intros x' y' Hx' Hy'. apply Hothers; [done|by right].
  - apply elem_of_cons in Hy as [->|]; [|done].
    rewrite stitchRows_miss.
    + apply stitchRow_hit with x; [done..|].
      intros x' Hx' Hne. apply Hothers; [done|by left|congruence].
    + intros x' y' Hx' Hy'. apply Hothers; [done|by right|].
      intros [= -> ->]. done.
Qed.

Lemma stitchRows_size (ys : list Z) (canvas : Image) :
  naturalWidth (rows canvas ys) = naturalWidth canvas ∧
  naturalHeight (rows canvas ys) = naturalHeight canvas.
Proof.
  revert canvas. induction ys as [|y ys IH]; intros canvas; [done|].
  simpl. destruct (IH (foldl (cell y) canvas xs)) as [-> ->].
  clear IH. revert canvas. induction xs as [|x xs' IH]; intros canvas; [done|].
  simpl. destruct (IH (cell y canvas x)) as [-> ->].
  unfold cell, stitchCell. by destruct (tiles !! tileKey x y).
Qed.

End Stitch.

(** The stitched canvas shows, in the cell of every tile of the range, the
    pixels of that tile (transparent where there is none), as long as no
    stored tile is larger than a cell. *)
Lemma stitchTiles_pixel (tiles : gmap string TileData)
    (startTileX endTileX startTileY endTileY x y i j : Z) :
  tilesFit tiles →
  startTileX ≤ x ≤ endTileX → startTileY ≤ y ≤ endTileY →
  0 ≤ i < TILE_SIZE → 0 ≤ j < TILE_SIZE →
  let stitchedWorldRect :=
    {| rx := startTileX * TILE_SIZE;
       ry := startTileY * TILE_SIZE;
       rw := (endTileX - startTileX + 1) * TILE_SIZE;
       rh := (endTileY - startTileY + 1) * TILE_SIZE |} in
  pixelAt (stitchTiles tiles stitchedWorldRect startTileX endTileX
             startTileY endTileY)
    ((x - startTileX) * TILE_SIZE + i) ((y - startTileY) * TILE_SIZE + j)
  = match tiles !! tileKey x y with
    | Some tile => sample (image tile) i j
    | None => None
    end.
Proof.
  intros Hfit Hx Hy Hi Hj rect. unfold stitchTiles.
  set (I := (x - startTileX) * TILE_SIZE + i).
  set (J := (y - startTileY) * TILE_SIZE + j).
  assert (Hself : stitchHit tiles rect x y I J
                  = match tiles !! tileKey x y with
                    | Some tile => sample (image tile) i j
                    | None => None
                    end).
  { unfold stitchHit. destruct (tiles !! tileKey x y); [|done].
    f_equal; unfold I, J, rect; simpl; lia. }
  assert (Hothers : ∀ x' y', (x', y') ≠ (x, y) →
                             stitchHit tiles rect x' y' I J = None).
  { intros x' y' Hne. unfold stitchHit.
    destruct (tiles !! tileKey x' y') as [tile|] eqn:Htile; [|done].
    apply Hfit in Htile as [Hw Hh]. apply sample_outside.
    unfold I, J, rect, TILE_SIZE in *. simpl.
    assert (x' ≠ x ∨ y' ≠ y) as [?|?] by (destruct (decide (x' = x)); [right|left]; congruence);
      lia. }
  rewrite <- Hself.
  destruct (stitchHit tiles rect x y I J) as [c|] eqn:Hhit.
  - apply stitchRows_hit with x y; [by apply elem_of_tileRange..|done|].
    intros x' y' _ _. apply Hothers.
  - rewrite stitchRows_miss; [done|].
    intros x' y' _ _. destruct (decide ((x', y') = (x, y))) as [[= -> ->]|];
      [done|by apply Hothers].
Qed.

Lemma stitchTiles_size (tiles : gmap string TileData) (rect : Rect Z)
    (startTileX endTileX startTileY endTileY : Z) :
  naturalWidth (stitchTiles tiles rect startTileX endTileX startTileY endTileY)
  = rw rect ∧
  naturalHeight (stitchTiles tiles rect startTileX endTileX startTileY endTileY)
  = rh rect.
Proof. unfold stitchTiles. apply stitchRows_size. Qed.

(** ** One enhancement job, from trigger to merge *)



Lemma handleInpaint_accepted (worldRect screenRect : Rect R) (s : App) :
  appState s = LOADED →
  let startTileX := Zfloor (rx worldRect / IZR TILE_SIZE) in
  let startTileY := Zfloor (ry worldRect / IZR TILE_SIZE) in
  let endTileX := Zfloor ((rx worldRect + rw worldRect) / IZR TILE_SIZE) in
  let endTileY := Zfloor ((ry worldRect + rh worldRect) / IZR TILE_SIZE) in
  let stitchedWorldRect :=
    {| rx := startTileX * TILE_SIZE;
       ry := startTileY * TILE_SIZE;
       rw := (endTileX - startTileX + 1) * TILE_SIZE;
       rh := (endTileY - startTileY + 1) * TILE_SIZE |} in
  handleInpaint true worldRect screenRect s
  = s |> setStitchedEnhanceImage
           (Some (mkRegion
                    (stitchTiles (tiles s) stitchedWorldRect
                       startTileX endTileX startTileY endTileY)
                    stitchedWorldRect))
      |> setEnhancementJob (Some (mkJob worldRect screenRect))
      |> setAppState ENHANCING.
Proof.
  intros Hloaded. unfold handleInpaint, handleInpaint_from.
  rewrite decide_False by (by intros ?). done.
Qed.

Lemma serviceEnhance_fails (img : Image) (hasFoundBanana : bool) :
  serviceEnhance img enhancePrompt hasFoundBanana EnhanceFails = (img, false).
Proof. done. Qed.

(** The merge of [enhancedImage.onload], key by key. *)
Lemma enhancedImage_onload_lookup (result : RegionImage) (s : App) (k : string) :
  tiles (enhancedImage_onload result s) !! k
  = match retile (src result) (worldRect result) !! k with
    | Some t => Some t
    | None => tiles s !! k
    end.
Proof.
  unfold enhancedImage_onload. simpl. rewrite lookup_union.
  destruct (retile _ _ !! k), (tiles s !! k); done.
Qed.

(** The retiling range of a stitched rectangle: it starts at the first
    stitched tile and ends one past the last. *)
Lemma stitched_retile_range (startTile endTile : Z) :
  startTile * TILE_SIZE / TILE_SIZE = startTile ∧
  (startTile * TILE_SIZE + (endTile - startTile + 1) * TILE_SIZE) / TILE_SIZE
  = endTile + 1.
Proof.
  split; [by apply Z.div_mul|].
  replace (startTile * TILE_SIZE + (endTile - startTile + 1) * TILE_SIZE)
    with ((endTile + 1) * TILE_SIZE) by lia.
  by apply Z.div_mul.
Qed.

(** C7 (as amended).  When the enhancer fails, its result is the stitched
    input, the job still completes, and every tile position of the stitched
    region then holds the TILE_SIZE x TILE_SIZE crop of the stitched raster
    at that position: the pixels of the tile that was there before the job
    (transparent where it was smaller, or absent), with [isEnhanced] set to
    true.  Keys outside the retiled range keep their tile. *)
Theorem enhancer_failure_retiles_same_pixels
    (worldRect screenRect : Rect R) (s : App) :
  appState s = LOADED → tilesFit (tiles s) →
  let startTileX := Zfloor (rx worldRect / IZR TILE_SIZE) in
  let startTileY := Zfloor (ry worldRect / IZR TILE_SIZE) in
  let endTileX := Zfloor ((rx worldRect + rw worldRect) / IZR TILE_SIZE) in
  let endTileY := Zfloor ((ry worldRect + rh worldRect) / IZR TILE_SIZE) in
  let after :=
    s |> handleInpaint true worldRect screenRect
      |> performEnhancement EnhanceFails
      |> handleEnhancementComplete in
  appState after = LOADED ∧
  enhancementJob after = None ∧
  (∀ x y, startTileX ≤ x ≤ endTileX → startTileY ≤ y ≤ endTileY →
     ∃ tile,
       tiles after !! tileKey x y = Some tile ∧
       isEnhanced tile = true ∧
       naturalWidth (image tile) = TILE_SIZE ∧
       naturalHeight (image tile) = TILE_SIZE ∧
       ∀ i j, 0 ≤ i < TILE_SIZE → 0 ≤ j < TILE_SIZE →
         pixelAt (image tile) i j
         = match tiles s !! tileKey x y with
           | Some before => sample (image before) i j
           | None => None
           end) ∧
  (∀ k, (∀ x y, startTileX ≤ x ≤ endTileX + 1 →
                startTileY ≤ y ≤ endTileY + 1 → k ≠ tileKey x y) →
        tiles after !! k = tiles s !! k).
Proof.
  intros Hloaded Hfit sx sy ex ey.
  rewrite (handleInpaint_accepted worldRect screenRect s Hloaded).
  fold sx sy ex ey.
  set (rect := {| rx := sx * TILE_SIZE; ry := sy * TILE_SIZE;
                  rw := (ex - sx + 1) * TILE_SIZE;
                  rh := (ey - sy + 1) * TILE_SIZE |}).
  set (canvas := stitchTiles (tiles s) rect sx ex sy ey).
  unfold performEnhancement. simpl.
  destruct (stitched_retile_range sx ex) as [Hsx Hex].
  destruct (stitched_retile_range sy ey) as [Hsy Hey].
  split_and!; [done..| |].
  - intros x y Hx Hy. exists (enhancedTileAt canvas rect x y).
    split_and!; [|done..|].
    + apply lookup_union_Some_l, retile_lookup.
      exists x, y. simpl. rewrite Hsx, Hex, Hsy, Hey.
      split_and!; [lia..|done|done].
    + intros i j Hi Hj. simpl.
      destruct (stitchTiles_size (tiles s) rect sx ex sy ey) as [Hw Hh].
      rewrite sample_inside.
      * replace (x * TILE_SIZE - sx * TILE_SIZE + i)
          with ((x - sx) * TILE_SIZE + i) by lia.
        replace (y * TILE_SIZE - sy * TILE_SIZE + j)
          with ((y - sy) * TILE_SIZE + j) by lia.
        by apply stitchTiles_pixel.
      * fold canvas in Hw. rewrite Hw. unfold TILE_SIZE in *. simpl. lia.
      * fold canvas in Hh. rewrite Hh. unfold TILE_SIZE in *. simpl. lia.
  - intros k Hk. rewrite lookup_union_r; [done|].
    apply retile_lookup_None. simpl. rewrite Hsx, Hex, Hsy, Hey. done.
Qed.


(** ** Invariants of the running application *)

Lemma tilesFit_empty : tilesFit ∅.
Proof. intros k tile Hk. by rewrite lookup_empty in Hk. Qed.

Lemma tilesFit_tileize (img : Image) : tilesFit (tileizeWith TILE_SIZE img).
Proof.
  intros k tile Hk.
  apply tileizeWith_lookup in Hk as (x & y & _ & _ & _ & ->); [|done].
  simpl. lia.
Qed.

Lemma tilesFit_retile_union (enhancedImage : Image) (worldRect : Rect Z)
    (m : gmap string TileData) :
  tilesFit m → tilesFit (retile enhancedImage worldRect ∪ m).
Proof.
  intros Hfit k tile [Hk|[_ Hk]]%lookup_union_Some_raw; [|by eapply Hfit].
  apply retile_lookup in Hk as (x & y & _ & _ & _ & ->). done.
Qed.

Ltac viewport_handler :=
  intros [s d]; unfold sameWorld; simpl; repeat case_match; simpl; done.

Lemma handleWheel_sameWorld canvas deltaY pos sd :
  sameWorld (fst sd) (fst (handleWheel canvas deltaY pos sd)).
Proof. revert sd. unfold handleWheel. viewport_handler. Qed.

Lemma handleMouseDown_sameWorld button pos sd :
  sameWorld (fst sd) (fst (handleMouseDown button pos sd)).
Proof. revert sd. unfold handleMouseDown. viewport_handler. Qed.

Lemma handleMouseMove_sameWorld canvas pos sd :
  sameWorld (fst sd) (fst (handleMouseMove canvas pos sd)).
Proof. revert sd. unfold handleMouseMove. viewport_handler. Qed.

Lemma handleMouseUp_sameWorld sd :
  sameWorld (fst sd) (fst (handleMouseUp sd)).
Proof. revert sd. unfold handleMouseUp. viewport_handler. Qed.

Lemma handleMouseLeave_sameWorld sd :
  sameWorld (fst sd) (fst (handleMouseLeave sd)).
Proof. revert sd. unfold handleMouseLeave. viewport_handler. Qed.

Lemma handleZoomIn_sameWorld sd :
  sameWorld (fst sd) (fst (handleZoomIn sd)).
Proof. revert sd. unfold handleZoomIn. viewport_handler. Qed.

Lemma handleZoomOut_sameWorld sd :
  sameWorld (fst sd) (fst (handleZoomOut sd)).
Proof. revert sd. unfold handleZoomOut. viewport_handler. Qed.

Lemma handleResetZoom_sameWorld canvas sd :
  sameWorld (fst sd) (fst (handleResetZoom canvas sd)).
Proof. revert sd. unfold handleResetZoom. viewport_handler. Qed.


Lemma handleInpaint_sameTiles render has2dContext worldRect screenRect s :
  let s' := handleInpaint_from render has2dContext worldRect screenRect s in
  tiles s' = tiles s ∧ captures s' = captures s ∧
  worldSize s' = worldSize s ∧ isDefaultWorld s' = isDefaultWorld s ∧
  enhancedResult s' = enhancedResult s ∧ zoom s' = zoom s.
Proof.
  unfold handleInpaint_from. case_decide; [done|]. by destruct has2dContext.
Qed.

Lemma performEnhancement_resume_sameTiles stitched found reply s :
  let s' := performEnhancement_resume stitched found reply s in
  tiles s' = tiles s ∧ captures s' = captures s ∧
  worldSize s' = worldSize s ∧ isDefaultWorld s' = isDefaultWorld s ∧
  stitchedEnhanceImage s' = stitchedEnhanceImage s.
Proof.
  unfold performEnhancement_resume.
  destruct (serviceEnhance _ _ _ _) as [enhancedSrc []]; by repeat split.
Qed.

Lemma performEnhancement_sameTiles reply s :
  let s' := performEnhancement reply s in
  tiles s' = tiles s ∧ captures s' = captures s ∧
  worldSize s' = worldSize s ∧ isDefaultWorld s' = isDefaultWorld s ∧
  stitchedEnhanceImage s' = stitchedEnhanceImage s.
Proof.
  unfold performEnhancement.
  destruct (stitchedEnhanceImage s) as [stitched|] eqn:Hstitched;
    [|by repeat split].
  rewrite <- Hstitched. apply performEnhancement_resume_sameTiles.
Qed.

(** What [handleNewCapture] does is one of two things: it starts a new world
    from the capture, or it appends the capture and leaves the world alone. *)
Lemma handleNewCapture_cases img gps locationStatus now oracle s :
  let s' := handleNewCapture img gps locationStatus now oracle s in
  (∃ s0, s' = startNewWorld img gps locationStatus now s0 ∧
         stitchedEnhanceImage s0 = stitchedEnhanceImage s ∧
         enhancedResult s0 = enhancedResult s) ∨
  (captures s ≠ [] ∧
   captures s'
   = captures s ++ [mkCapture (capture_at now) PERSPECTIVE img gps locationStatus] ∧
   tiles s' = tiles s ∧ worldSize s' = worldSize s ∧
   isDefaultWorld s' = isDefaultWorld s ∧
   stitchedEnhanceImage s' = stitchedEnhanceImage s ∧
   enhancedResult s' = enhancedResult s).
Proof.
  unfold handleNewCapture.
  destruct (captures s) as [|baseCapture rest] eqn:Hcaptures.
  { left. by exists s. }
  destruct (isNewWorldGps baseCapture gps s).
  { left. by exists s. }
  destruct (isDefaultWorld s) eqn:Hdefault.
  - destruct (serviceCompareScenes oracle) as [[]|]; simpl.
    + right. by rewrite Hcaptures.
    + left. by exists (setAppState ANALYZING s).
    + right. by rewrite Hcaptures.
  - right. simpl. by rewrite Hcaptures.
Qed.

Lemma fst_step (sd : App * Display) (ev : Event) :
  fst (step sd ev) = fst (handle sd ev).
Proof. unfold step, remount. by destruct (displayMounted _). Qed.

(** Along every run, no stored tile is larger than a grid cell. *)
Lemma step_tilesFit sd ev :
  tilesFit (tiles (fst sd)) → tilesFit (tiles (fst (step sd ev))).
Proof.
  rewrite fst_step. destruct sd as [s d]. intros Hfit.
  destruct ev; simpl in *.
  - destruct (displayMounted s); [|done].
    by destruct (handleWheel_sameWorld canvas deltaY pos (s, d))
      as (_ & _ & -> & _).
  - destruct (displayMounted s); [|done].
    by destruct (handleMouseDown_sameWorld button pos (s, d))
      as (_ & _ & -> & _).
  - destruct (displayMounted s); [|done].
    by destruct (handleMouseMove_sameWorld canvas pos (s, d))
      as (_ & _ & -> & _).
  - destruct (displayMounted s); [|done].
    by destruct (handleMouseUp_sameWorld (s, d)) as (_ & _ & -> & _).
  - destruct (displayMounted s); [|done].
    by destruct (handleMouseLeave_sameWorld (s, d)) as (_ & _ & -> & _).
  - destruct (displayMounted s && negb _); [|done].
    by destruct (handleZoomIn_sameWorld (s, d)) as (_ & _ & -> & _).
  - destruct (displayMounted s && negb _); [|done].
    by destruct (handleZoomOut_sameWorld (s, d)) as (_ & _ & -> & _).
  - destruct (displayMounted s && negb _); [|done].
    by destruct (handleResetZoom_sameWorld canvas (s, d)) as (_ & _ & -> & _).
  - unfold inferenceTimerFires.
    destruct (inferenceTimer d) as [render|]; [|done].
    destruct (triggerInference _ _ _) as [[worldRect screenRect]|]; [|done].
    simpl.
    by destruct (handleInpaint_sameTiles render has2dContext worldRect
                   screenRect s) as (-> & _).
  - destruct (animatorMounted s); [|done]. simpl.
    by destruct (performEnhancement_sameTiles reply s) as (-> & _).
  - destruct (dissolveMounted s); [|done]. simpl.
    unfold handleEnhancementComplete.
    destruct (enhancedResult s); [|done].
    by apply tilesFit_retile_union.
  - destruct (handleNewCapture_cases img gps locationStatus now oracle s)
      as [(s0 & -> & _)|(_ & _ & -> & _)]; [|done].
    apply tilesFit_tileize.
  - destruct (isActionable s); [|done]. apply tilesFit_empty.
  - unfold initialImage_onload. case_decide; [done|]. apply tilesFit_tileize.
  - done.
  - by destruct (isActionable s).
  - by case_bool_decide.
Qed.

(** X27.  In every reachable state no stored tile is wider or higher than
    a grid cell, so a stitched cell never spills into its neighbours. *)
Lemma run_tilesFit (events : list Event) : tilesFit (tiles (fst (run events))).
Proof.
  unfold run. induction events as [|ev events IH] using rev_ind.
  - apply tilesFit_empty.
  - rewrite foldl_snoc. by apply step_tilesFit.
Qed.

(** ** At most one job, at most one merge per job *)







(** The timeout reads the render that set it.  On the placeholder world at
    zoom 1, a click on the zoom-in button sets the zoom to 1.25 and arms the
    timer; the [triggerInference] it will call still sees zoom 1, which is
    not above 1.01, so its firing creates no job. *)
Example first_zoom_click_does_not_inpaint :
  let sd := step (defaultWorldA, initialDisplay) ZoomInClick in
  zoom (fst sd) = 1.25%R ∧
  inferenceTimer (snd sd) = Some defaultWorldA ∧
  createsJob sd (InferenceTimerFires (Some lowCanvas) (1024%R, 768%R) true)
  = false.
Proof.
  assert (Hmounted : ∀ s, tiles s = tiles defaultWorldA →
                          appState s = LOADED → displayMounted s = true).
  { intros s Htiles Hloaded. unfold displayMounted. rewrite Htiles, Hloaded.
    apply andb_true_intro. split; apply bool_decide_eq_true.
    - change (tiles defaultWorldA) with (tileizeWith 512 worldA).
      rewrite tileizeWith_size by done. simpl.
      change (numTiles 512 512) with 1. simpl. lia.
    - rewrite !not_elem_of_cons. split_and!; [done..|apply not_elem_of_nil]. }
  assert (Henabled : zoomInDisabled defaultWorldA = false).
  { unfold zoomInDisabled, JS.ge. simpl.
    destruct (Rle_dec 50 1); [lra|done]. }
  assert (Hzoom : JS.Math_min (1 * 1.25) 50 = 1.25%R).
  { unfold JS.Math_min, Rmin. destruct (Rle_dec _ _); lra. }
  cbv zeta. unfold step, handle.
  rewrite (Hmounted defaultWorldA) by done. rewrite Henabled.
  simpl negb. cbv iota. unfold handleZoomIn, remount. simpl fst.
  rewrite (Hmounted _) by done. simpl. rewrite Hzoom.
  split_and!; [done..|].
  unfold triggerInference, JS.gt. simpl.
  destruct (Rlt_dec 1.01 1); [lra|done].
Qed.

(** ** The two views, evaluated *)

Lemma Zfloor_tile (r : R) (z : Z) :
  (IZR z * 512 <= r < (IZR z + 1) * 512)%R → Zfloor (r / IZR TILE_SIZE) = z.
Proof.
  intros Hr. apply Zfloor_eq. unfold TILE_SIZE.
  split.
  - apply (Rmult_le_reg_r 512); [lra|].
    replace (r / 512 * 512)%R with r by (field; lra). lra.
  - apply (Rmult_lt_reg_r 512); [lra|].
    replace (r / 512 * 512)%R with r by (field; lra). lra.
Qed.

Lemma handleInpaint_viewInside :
  handleInpaint true viewInside screen defaultWorldA
  = defaultWorldA
      |> setStitchedEnhanceImage (Some stitchedInside)
      |> setEnhancementJob (Some (mkJob viewInside screen))
      |> setAppState ENHANCING.
Proof.
  rewrite handleInpaint_accepted by done.
  cbn [viewInside rx ry rw rh].
  rewrite (Zfloor_tile 0 0), (Zfloor_tile (0 + 256) 0), (Zfloor_tile (0 + 192) 0)
    by (simpl; lra).
  done.
Qed.

Lemma handleInpaint_viewBeyond :
  handleInpaint true viewBeyond screen defaultWorldA
  = defaultWorldA
      |> setStitchedEnhanceImage (Some stitchedBeyond)
      |> setEnhancementJob (Some (mkJob viewBeyond screen))
      |> setAppState ENHANCING.
Proof.
  rewrite handleInpaint_accepted by done.
  cbn [viewBeyond rx ry rw rh].
  rewrite (Zfloor_tile 0 0), (Zfloor_tile (0 + 600) 1), (Zfloor_tile (0 + 192) 0)
    by (simpl; lra).
  done.
Qed.

Lemma defaultWorldA_tiles :
  tiles defaultWorldA = tileizeWith TILE_SIZE worldA ∧
  worldSize defaultWorldA = mkWorldSize 512 512 ∧
  appState defaultWorldA = LOADED ∧
  isDefaultWorld defaultWorldA = true.
Proof. done. Qed.

Lemma one_tile_world (img : Image) :
  naturalWidth img = 512 → naturalHeight img = 512 →
  tileizeWith TILE_SIZE img !! tileKey 0 0 = Some (tileAt TILE_SIZE img 0 0).
Proof.
  intros Hw Hh. apply tileizeWith_lookup; [done|].
  exists 0, 0. rewrite Hw, Hh. done.
Qed.

(** ** The merge does not look at the state it merges into *)

Lemma retile_lookup_cell (enhancedImage : Image) (worldRect : Rect Z) (x y : Z) :
  rx worldRect / TILE_SIZE ≤ x ≤ (rx worldRect + rw worldRect) / TILE_SIZE →
  ry worldRect / TILE_SIZE ≤ y ≤ (ry worldRect + rh worldRect) / TILE_SIZE →
  retile enhancedImage worldRect !! tileKey x y
  = Some (enhancedTileAt enhancedImage worldRect x y).
Proof. intros Hx Hy. apply retile_lookup. by exists x, y. Qed.

(** A tile position whose corner lies in the rectangle is in the retiling
    range. *)
Lemma retile_lookup_inside (enhancedImage : Image) (worldRect : Rect Z)
    (x y : Z) :
  rx worldRect ≤ x * TILE_SIZE < rx worldRect + rw worldRect →
  ry worldRect ≤ y * TILE_SIZE < ry worldRect + rh worldRect →
  retile enhancedImage worldRect !! tileKey x y
  = Some (enhancedTileAt enhancedImage worldRect x y).
Proof.
  intros Hx Hy. apply retile_lookup_cell.
  - split.
    + apply Z.div_le_upper_bound; [done|]. lia.
    + apply Z.div_le_lower_bound; [done|]. lia.
  - split.
    + apply Z.div_le_upper_bound; [done|]. lia.
    + apply Z.div_le_lower_bound; [done|]. lia.
Qed.

(** C2 (as amended).  The resumed continuations do not check that their job
    or world is still current.  Whatever the state is when the enhancer
    answers, [performEnhancement] records the answer for the rectangle that
    its closure holds and moves to ENHANCED; whatever the state is when the
    enhanced image has decoded, [handleEnhancementComplete] merges the
    retiled result into the tile map of that moment: every tile position
    whose corner lies in the result's rectangle then holds the enhanced
    tile, and a key that the retiling does not produce keeps the tile it
    had. *)
Theorem resumed_enhancement_merges_unconditionally :
  (∀ stitched found reply s,
     let s' := performEnhancement_resume stitched found reply s in
     enhancedResult s'
     = Some (mkRegion
               (fst (serviceEnhance (src stitched) enhancePrompt found reply))
               (worldRect stitched)) ∧
     appState s' = ENHANCED ∧ tiles s' = tiles s) ∧
  (∀ result s x y,
     rx (worldRect result) ≤ x * TILE_SIZE
       < rx (worldRect result) + rw (worldRect result) →
     ry (worldRect result) ≤ y * TILE_SIZE
       < ry (worldRect result) + rh (worldRect result) →
     tiles (enhancedImage_onload result s) !! tileKey x y
     = Some (enhancedTileAt (src result) (worldRect result) x y)) ∧
  (∀ result s k,
     retile (src result) (worldRect result) !! k = None →
     tiles (enhancedImage_onload result s) !! k = tiles s !! k) ∧
  (∀ result s, appState (enhancedImage_onload result s) = LOADED).
Proof.
  split_and!.
  - intros stitched found reply s. unfold performEnhancement_resume.
    destruct (serviceEnhance _ _ _ _) as [enhancedSrc []]; by repeat split.
  - intros result s x y Hx Hy. rewrite enhancedImage_onload_lookup.
    by rewrite retile_lookup_inside.
  - intros result s k Hk. by rewrite enhancedImage_onload_lookup, Hk.
  - done.
Qed.

(** The world is replaced while the enhancer call of a job is pending; the
    answer is merged into the new world all the same. *)
Lemma stale_result_merged_into_new_world :
  let job := handleInpaint true viewInside screen defaultWorldA in
  let reset :=
    handleNewCapture worldB (Some someGps) (Some ACQUIRED) 1
      (ModelAnswers (Some true)) job in
  let resumed :=
    performEnhancement_resume stitchedInside false
      (EnhanceParts [InlineDataPart enhancedA]) reset in
  let merged := handleEnhancementComplete resumed in
  stitchedEnhanceImage job = Some stitchedInside ∧
  captures reset
  = [mkCapture (capture_at 1) EQUIRECTANGULAR worldB (Some someGps)
       (Some ACQUIRED)] ∧
  tiles reset = tileizeWith TILE_SIZE worldB ∧
  tiles reset !! tileKey 0 0 = Some (tileAt TILE_SIZE worldB 0 0) ∧
  tiles merged !! tileKey 0 0
  = Some (enhancedTileAt enhancedA stitchedRectInside 0 0) ∧
  tiles merged ≠ tiles reset.
Proof.
  rewrite handleInpaint_viewInside. cbv zeta.
  set (reset := handleNewCapture _ _ _ _ _ _).
  assert (Hreset : reset
    = startNewWorld worldB (Some someGps) (Some ACQUIRED) 1
        (defaultWorldA
           |> setStitchedEnhanceImage (Some stitchedInside)
           |> setEnhancementJob (Some (mkJob viewInside screen))
           |> setAppState ENHANCING)) by done.
  assert (Hold : tiles reset !! tileKey 0 0 = Some (tileAt TILE_SIZE worldB 0 0)).
  { rewrite Hreset. simpl. by apply one_tile_world. }
  assert (Hnew : tiles (handleEnhancementComplete
                          (performEnhancement_resume stitchedInside false
                             (EnhanceParts [InlineDataPart enhancedA]) reset))
                   !! tileKey 0 0
                 = Some (enhancedTileAt enhancedA stitchedRectInside 0 0)).
  { unfold performEnhancement_resume.
    change (serviceEnhance _ _ _ _) with (enhancedA, false).
    unfold handleEnhancementComplete. simpl.
    apply lookup_union_Some_l. by apply retile_lookup_cell. }
  split_and!; [done|by rewrite Hreset|by rewrite Hreset|done|done|].
  intros Heq. rewrite Heq, Hold in Hnew. discriminate Hnew.
Qed.

(** ** The merge and the grid *)

Lemma gridExact_tileize (img : Image) :
  gridExact (tileizeWith TILE_SIZE img)
    (mkWorldSize (naturalWidth img) (naturalHeight img)).
Proof.
  intros k. simpl. split.
  - intros [t (x & y & Hx & Hy & -> & _)%tileizeWith_lookup]; [|done].
    by exists x, y.
  - intros (x & y & Hx & Hy & ->).
    exists (tileAt TILE_SIZE img x y).
    apply tileizeWith_lookup; [done|]. by exists x, y.
Qed.

Lemma tileizeImage_gridExact (capture : Capture) (s : App) :
  gridExact (tiles (tileizeImage capture s)) (worldSize (tileizeImage capture s)).
Proof. apply gridExact_tileize. Qed.

(** C4 (as amended).  Full tileization stores exactly one tile for every
    cell (col, row) of the grid, 0 <= col < ceil(width/TILE_SIZE) and
    0 <= row < ceil(height/TILE_SIZE), and nothing else.  The merge of an
    enhancement result leaves the world size as it is, adds or replaces
    keys and removes none, so every grid cell that had a tile keeps one; it
    is not clipped to the grid: every tile position whose corner lies in the
    result's rectangle gets a tile, a grid cell or not. *)
Theorem tile_store_mutations_keep_grid_covered :
  (∀ capture s,
     gridExact (tiles (tileizeImage capture s))
       (worldSize (tileizeImage capture s))) ∧
  (∀ result s,
     worldSize (enhancedImage_onload result s) = worldSize s ∧
     (∀ k, is_Some (tiles s !! k) →
           is_Some (tiles (enhancedImage_onload result s) !! k)) ∧
     (gridCovered (tiles s) (worldSize s) →
      gridCovered (tiles (enhancedImage_onload result s))
        (worldSize (enhancedImage_onload result s))) ∧
     (∀ x y,
        rx (worldRect result) ≤ x * TILE_SIZE
          < rx (worldRect result) + rw (worldRect result) →
        ry (worldRect result) ≤ y * TILE_SIZE
          < ry (worldRect result) + rh (worldRect result) →
        is_Some (tiles (enhancedImage_onload result s) !! tileKey x y))).
Proof.
  split; [apply tileizeImage_gridExact|].
  intros result s.
  assert (Hkeeps : ∀ k, is_Some (tiles s !! k) →
                        is_Some (tiles (enhancedImage_onload result s) !! k)).
  { intros k [t Ht]. rewrite enhancedImage_onload_lookup, Ht.
    by destruct (retile _ _ !! k). }
  split_and!; [done|done| |].
  - intros Hcovered col row Hcol Hrow. by apply Hkeeps, Hcovered.
  - intros x y Hx Hy. rewrite enhancedImage_onload_lookup.
    by rewrite retile_lookup_inside.
Qed.

(** A view wider than the one-tile world: the stitched region has a second
    column, and the merge stores a tile for it, outside the grid. *)
Lemma merge_stores_tile_outside_grid :
  let after :=
    defaultWorldA
      |> handleInpaint true viewBeyond screen
      |> performEnhancement EnhanceFails
      |> handleEnhancementComplete in
  gridExact (tiles defaultWorldA) (worldSize defaultWorldA) ∧
  worldSize after = mkWorldSize 512 512 ∧
  tiles after !! tileKey 1 0
  = Some (enhancedTileAt (src stitchedBeyond) stitchedRectBeyond 1 0) ∧
  ¬ gridExact (tiles after) (worldSize after).
Proof.
  rewrite handleInpaint_viewBeyond. cbv zeta.
  unfold performEnhancement. simpl.
  assert (Hkey : (retile (src stitchedBeyond) stitchedRectBeyond
                    ∪ tileizeWith TILE_SIZE worldA) !! tileKey 1 0
                 = Some (enhancedTileAt (src stitchedBeyond)
                           stitchedRectBeyond 1 0)).
  { apply lookup_union_Some_l. by apply retile_lookup_cell. }
  split_and!; [apply (gridExact_tileize worldA)|done|done|].
  intros Hexact.
  destruct (Hexact (tileKey 1 0)) as [Hgrid _].
  destruct Hgrid as (col & row & Hcol & _ & [Hone _]%tileKey_inj).
  - eexists. exact Hkey.
  - simpl in Hcol. change (JS.Math_ceil_div 512 TILE_SIZE) with 1 in Hcol. lia.
Qed.

(** The enhancer fails on a view inside the only tile: the tile comes back
    flagged as enhanced. *)
Lemma failed_enhancement_flags_tile :
  let after :=
    defaultWorldA
      |> handleInpaint true viewInside screen
      |> performEnhancement EnhanceFails
      |> handleEnhancementComplete in
  tiles defaultWorldA !! tileKey 0 0 = Some (tileAt TILE_SIZE worldA 0 0) ∧
  isEnhanced (tileAt TILE_SIZE worldA 0 0) = false ∧
  tiles after !! tileKey 0 0
  = Some (enhancedTileAt (src stitchedInside) stitchedRectInside 0 0) ∧
  isEnhanced (enhancedTileAt (src stitchedInside) stitchedRectInside 0 0)
  = true.
Proof.
  rewrite handleInpaint_viewInside. cbv zeta.
  unfold performEnhancement. simpl.
  split_and!; [by apply one_tile_world|done| |done].
  apply lookup_union_Some_l. by apply retile_lookup_cell.
Qed.

Lemma enhancer_failure_witness :
  let after :=
    defaultWorldA
      |> handleInpaint true viewInside screen
      |> performEnhancement EnhanceFails
      |> handleEnhancementComplete in
  appState after = LOADED ∧ enhancementJob after = None.
Proof.
  destruct (enhancer_failure_retiles_same_pixels viewInside screen defaultWorldA)
    as (Hstate & Hjob & _).
  - reflexivity.
  - apply tilesFit_tileize.
  - split; [exact Hstate|exact Hjob].
Defined.

(** ** Column wraparound *)

Lemma wrappedX_mod (numWorldTilesX x : Z) :
  0 < numWorldTilesX → wrappedX numWorldTilesX x = x mod numWorldTilesX.
Proof.
  intros Hn. unfold wrappedX, JS.rem.
  pose proof (Z.rem_bound_abs x numWorldTilesX ltac:(lia)) as Hbound.
  pose proof (Z.quot_rem' x numWorldTilesX) as Hquot.
  rewrite Z.rem_mod_nonneg by lia.
  replace (Z.rem x numWorldTilesX + numWorldTilesX)
    with (x + (1 - x ÷ numWorldTilesX) * numWorldTilesX) by lia.
  apply Z_mod_plus_full.
Qed.

Lemma wrappedX_idempotent (numWorldTilesX x : Z) :
  0 < numWorldTilesX →
  wrappedX numWorldTilesX (wrappedX numWorldTilesX x) = wrappedX numWorldTilesX x.
Proof.
  intros Hn. rewrite !wrappedX_mod by done. apply Z.mod_mod. lia.
Qed.

(** C9.  The tile that [draw] reads for grid column c and row r is the tile
    it reads for column ((c % numCols) + numCols) % numCols, where numCols =
    ceil(width / tileSize) and [%] is JavaScript's remainder; so it reads the
    same tile for column numCols as for column 0.  The wrapped column lies in
    [0, numCols) and is c modulo numCols. *)
Theorem draw_lookup_wraps_columns (tiles : gmap string TileData)
    (worldSize : WorldSize) (tileSize c r : Z) :
  0 < tileSize → 0 ≤ width worldSize →
  let numCols := JS.Math_ceil_div (width worldSize) tileSize in
  drawLookup tiles worldSize tileSize c r
  = drawLookup tiles worldSize tileSize
      (JS.rem (JS.rem c numCols + numCols) numCols) r ∧
  drawLookup tiles worldSize tileSize numCols r
  = drawLookup tiles worldSize tileSize 0 r ∧
  (width worldSize ≠ 0 →
   drawLookup tiles worldSize tileSize c r = tiles !! tileKey (c mod numCols) r ∧
   0 ≤ c mod numCols < numCols).
Proof.
  intros HT HW numCols. unfold drawLookup. fold numCols.
  case_decide as Hzero; [by split_and!|].
  assert (Hn : 0 < numCols).
  { apply (lt_numTiles tileSize HT). lia. }
  fold (wrappedX numCols c). rewrite wrappedX_idempotent by done.
  split_and!; [done| |].
  - rewrite !wrappedX_mod by done.
    by rewrite Z.mod_same, Z.mod_0_l by lia.
  - intros _. rewrite wrappedX_mod by done.
    split; [done|]. apply Z.mod_pos_bound. lia.
Qed.

Lemma draw_lookup_wraps_columns_witness :
  drawLookup (tileizeWith 512 wideWorld) (mkWorldSize 1024 512) 512 2 0
  = drawLookup (tileizeWith 512 wideWorld) (mkWorldSize 1024 512) 512 0 0.
Proof.
  destruct (draw_lookup_wraps_columns (tileizeWith 512 wideWorld)
              (mkWorldSize 1024 512) 512 2 0) as (_ & Hwrap & _).
  - lia.
  - simpl. lia.
  - exact Hwrap.
Defined.

(** ** Zoom range *)

Lemma clamp_zoom_range (z : R) :
  (0.1 <= JS.Math_max 0.1 (JS.Math_min z 50) <= 50)%R.
Proof.
  unfold JS.Math_max, JS.Math_min, Rmax, Rmin.
  repeat destruct (Rle_dec _ _); lra.
Qed.

Lemma handleWheel_zoomInRange canvas deltaY pos sd :
  zoomInRange (fst sd) → zoomInRange (fst (handleWheel canvas deltaY pos sd)).
Proof.
  destruct sd as [s d]. unfold zoomInRange, handleWheel. intros Hz.
  destruct (isBusy s); [done|]. simpl. apply clamp_zoom_range.
Qed.

Lemma handleZoomIn_zoomInRange sd :
  zoomInRange (fst sd) → zoomInRange (fst (handleZoomIn sd)).
Proof.
  destruct sd as [s d]. unfold zoomInRange, handleZoomIn. simpl. intros Hz.
  unfold JS.Math_min, Rmin. destruct (Rle_dec _ _); lra.
Qed.

Lemma handleZoomOut_zoomInRange sd :
  zoomInRange (fst sd) → zoomInRange (fst (handleZoomOut sd)).
Proof.
  destruct sd as [s d]. unfold zoomInRange, handleZoomOut. simpl. intros Hz.
  unfold JS.Math_max, Rmax. destruct (Rle_dec _ _); lra.
Qed.

Lemma handleResetZoom_zoomInRange canvas sd :
  zoomInRange (fst (handleResetZoom canvas sd)).
Proof.
  destruct sd as [s d]. unfold zoomInRange, handleResetZoom.
  destruct canvas; simpl; lra.
Qed.

Lemma startNewWorld_zoomInRange img gps locationStatus now s :
  zoomInRange (startNewWorld img gps locationStatus now s).
Proof. unfold zoomInRange. simpl. lra. Qed.

Lemma zoomInRange_same (s s' : App) :
  zoom s' = zoom s → zoomInRange s → zoomInRange s'.
Proof. unfold zoomInRange. by intros ->. Qed.

Lemma step_zoomInRange (sd : App * Display) (ev : Event) :
  zoomInRange (fst sd) → zoomInRange (fst (step sd ev)).
Proof.
  rewrite fst_step. destruct sd as [s d]. intros Hz.
  destruct ev; simpl.
  - destruct (displayMounted s); [|done].
    by apply (handleWheel_zoomInRange _ _ _ (s, d)).
  - destruct (displayMounted s); [|done].
    unfold handleMouseDown. by destruct (_ || _).
  - destruct (displayMounted s); [|done].
    unfold handleMouseMove. by destruct (isPanning d).
  - destruct (displayMounted s); [|done].
    unfold handleMouseUp. by destruct (isPanning d).
  - destruct (displayMounted s); [|done].
    unfold handleMouseLeave. by destruct (isPanning d).
  - destruct (displayMounted s && negb _); [|done].
    by apply (handleZoomIn_zoomInRange (s, d)).
  - destruct (displayMounted s && negb _); [|done].
    by apply (handleZoomOut_zoomInRange (s, d)).
  - destruct (displayMounted s && negb _); [|done].
    apply handleResetZoom_zoomInRange.
  - unfold inferenceTimerFires.
    destruct (inferenceTimer d) as [render|]; [|done].
    destruct (triggerInference _ _ _) as [[worldRect screenRect]|]; [|done].
    simpl.
    destruct (handleInpaint_sameTiles render has2dContext worldRect
                screenRect s) as (_ & _ & _ & _ & _ & Hzoom).
    by apply (zoomInRange_same s).
  - destruct (animatorMounted s); [|done]. simpl.
    unfold performEnhancement. destruct (stitchedEnhanceImage s); [|done].
    unfold performEnhancement_resume.
    by destruct (serviceEnhance _ _ _ _) as [enhancedSrc []].
  - destruct (dissolveMounted s); [|done]. simpl.
    unfold handleEnhancementComplete. by destruct (enhancedResult s).
  - unfold handleNewCapture.
    destruct (captures s) as [|baseCapture rest];
      [apply startNewWorld_zoomInRange|].
    destruct (isNewWorldGps _ _ _); [apply startNewWorld_zoomInRange|].
    destruct (isDefaultWorld s); [|done].
    destruct (serviceCompareScenes oracle) as [[]|]; simpl;
      [done|apply startNewWorld_zoomInRange|done].
  - by destruct (isActionable s).
  - unfold initialImage_onload. case_decide; [done|].
    unfold zoomInRange. simpl. lra.
  - done.
  - by destruct (isActionable s).
  - by case_bool_decide.
Qed.

(** C8.  Starting from a zoom in [0.1, 50], the zoom is in [0.1, 50] after
    every sequence of events of the application, in particular after every
    sequence of wheel ticks and clicks on the zoom-in and zoom-out buttons;
    each of the three handlers keeps the range on its own. *)
Theorem zoom_stays_in_range (sd : App * Display) (events : list Event) :
  zoomInRange (fst sd) →
  zoomInRange (fst (foldl step sd events)) ∧
  (∀ canvas deltaY pos,
     zoomInRange (fst (handleWheel canvas deltaY pos sd))) ∧
  zoomInRange (fst (handleZoomIn sd)) ∧
  zoomInRange (fst (handleZoomOut sd)).
Proof.
  intros Hz. split_and!.
  - revert sd Hz. induction events as [|ev events IH]; intros sd Hz; [done|].
    simpl. by apply IH, step_zoomInRange.
  - intros. by apply handleWheel_zoomInRange.
  - by apply handleZoomIn_zoomInRange.
  - by apply handleZoomOut_zoomInRange.
Qed.

Lemma zoom_stays_in_range_witness :
  zoomInRange
    (fst (foldl step mounted
            [InitialImageLoads 0 worldA; ZoomInClick;
             Wheel (Some lowCanvas) (-1) (mkPoint 10 10); ZoomOutClick])).
Proof.
  destruct (zoom_stays_in_range mounted
              [InitialImageLoads 0 worldA; ZoomInClick;
               Wheel (Some lowCanvas) (-1) (mkPoint 10 10); ZoomOutClick])
    as (Hrun & _).
  - unfold zoomInRange. simpl. lra.
  - exact Hrun.
Defined.

(** ** The vertical clamp *)

Lemma clampPanY_spec (box : CanvasBox) (worldSize : WorldSize) (zoom newPanY : R) :
  let worldPixelHeight := (IZR (height worldSize) * zoom)%R in
  let y := clampPanY (Some box) worldSize zoom newPanY in
  ((worldPixelHeight > cssHeight box)%R →
   (cssHeight box - worldPixelHeight <= y <= 0)%R) ∧
  (¬ (worldPixelHeight > cssHeight box)%R →
   y = ((cssHeight box - worldPixelHeight) / 2)%R).
Proof.
  simpl. unfold JS.gt, JS.Math_max, JS.Math_min, Rmax, Rmin.
  destruct (Rlt_dec _ _) as [Htall|Hsmall].
  - split; [|intros Hnot; by destruct Hnot].
    intros _. repeat destruct (Rle_dec _ _); lra.
  - split; [intros Htall; by destruct Hsmall|done].
Qed.

(** X26.  The wheel, the drag and the reset button leave the pan clamped:
    after a wheel tick that is not dropped, after a move during a drag and
    after a click on the reset button, a world taller than the canvas
    covers it vertically and a smaller one is centred. *)
Lemma vertical_clamp_after_wheel_drag_reset (box : CanvasBox)
    (s : App) (d : Display) :
  (∀ deltaY pos,
     isBusy s = false →
     verticalClamp box (fst (handleWheel (Some box) deltaY pos (s, d)))) ∧
  (∀ pos,
     isPanning d = true →
     verticalClamp box (fst (handleMouseMove (Some box) pos (s, d)))) ∧
  verticalClamp box (fst (handleResetZoom (Some box) (s, d))).
Proof.
  split_and!.
  - intros deltaY pos Hfree. unfold handleWheel. rewrite Hfree.
    unfold verticalClamp. simpl. apply clampPanY_spec.
  - intros pos Hpanning. unfold handleMouseMove. rewrite Hpanning.
    unfold verticalClamp. simpl. apply clampPanY_spec.
  - unfold handleResetZoom, verticalClamp, JS.gt. simpl.
    destruct (Rlt_dec _ _) as [Htall|Hsmall]; simpl.
    + split; [intros _; lra|intros Hnot; destruct Hnot; lra].
    + split; [intros Htall; destruct Hsmall; lra|intros _; lra].
Qed.

Lemma tallWorld_mounted :
  displayMounted tallWorld = true ∧ isBusy tallWorld = false.
Proof.
  split; [|done]. unfold displayMounted. apply andb_true_intro. split.
  - apply bool_decide_eq_true.
    change (tiles tallWorld) with (tileizeWith 512 (solidImage 1000 1000 3)).
    rewrite tileizeWith_size by done. simpl.
    change (numTiles 512 1000) with 2. simpl. lia.
  - apply bool_decide_eq_true.
    change (appState tallWorld) with LOADED.
    rewrite !not_elem_of_cons. split_and!; [done..|apply not_elem_of_nil].
Qed.

(** C10, at the failing input.  A world 1000 pixels high on a canvas 900
    pixels high, at zoom 1 and pan (0, 0): the clamp holds.  A click on the
    zoom-out button sets the zoom to 0.8 and leaves the pan, so the world is
    now 800 pixels high, smaller than the viewport, and not centred: the
    clamp asks for pan.y = 50. *)
Theorem button_zoom_skips_vertical_clamp :
  let after := fst (step (tallWorld, initialDisplay) ZoomOutClick) in
  verticalClamp lowCanvas tallWorld ∧
  zoom after = 0.8%R ∧
  pan after = mkPoint 0 0 ∧
  worldSize after = mkWorldSize 1000 1000 ∧
  ¬ verticalClamp lowCanvas after.
Proof.
  destruct tallWorld_mounted as [Hmounted Hfree].
  cbv zeta. rewrite fst_step. unfold handle, zoomOutDisabled.
  rewrite Hmounted, Hfree.
  simpl negb. cbv iota.
  unfold handleZoomOut. simpl.
  assert (Hzoom : JS.Math_max 0.1 (1 / 1.25) = 0.8%R).
  { unfold JS.Math_max, Rmax. destruct (Rle_dec _ _); lra. }
  rewrite Hzoom.
  split_and!; [|done..|].
  - unfold verticalClamp. simpl. split; [intros _; lra|intros Hnot; lra].
  - unfold verticalClamp. simpl. intros [_ Hcentre].
    assert (Hsmall : ¬ (1000 * 0.8 > 900)%R) by lra.
    apply Hcentre in Hsmall. lra.
Qed.

(** ** The haversine distance *)

Lemma Math_atan2_sin_cos (θ : R) :
  (- (PI / 2) < θ < PI / 2)%R → Math_atan2 (sin θ) (cos θ) = θ.
Proof.
  intros Hθ. unfold Math_atan2.
  pose proof (cos_gt_0 θ ltac:(lra) ltac:(lra)) as Hcos.
  destruct (Rlt_dec 0 (cos θ)); [|done].
  change (sin θ / cos θ)%R with (tan θ). by apply atan_tan.
Qed.

(** Two points on the equator, the second east of the first by less than
    half a turn: the distance is the arc between the longitudes. *)
Lemma calculateDistance_equator (λ1 λ2 : R) :
  (0 <= (λ2 - λ1) * PI / 180 < PI)%R →
  calculateDistance (mkGPS 0 λ1) (mkGPS 0 λ2)
  = (6371000 * ((λ2 - λ1) * PI / 180))%R.
Proof.
  intros Harc. unfold calculateDistance. simpl.
  set (θ := ((λ2 - λ1) * PI / 180 / 2)%R).
  assert (Hθ : (0 <= θ < PI / 2)%R) by (unfold θ; lra).
  replace (0 * PI / 180)%R with 0%R by lra.
  replace ((0 - 0) * PI / 180 / 2)%R with 0%R by lra.
  rewrite sin_0, cos_0.
  pose proof (sin_ge_0 θ ltac:(lra) ltac:(lra)) as Hsin.
  pose proof (cos_gt_0 θ ltac:(lra) ltac:(lra)) as Hcos.
  pose proof (sin2_cos2 θ) as Hone. unfold Rsqr in Hone.
  replace (0 * 0 + 1 * 1 * sin θ * sin θ)%R with (sin θ * sin θ)%R by lra.
  replace (1 - sin θ * sin θ)%R with (cos θ * cos θ)%R by lra.
  rewrite !sqrt_square by lra.
  rewrite Math_atan2_sin_cos by lra.
  unfold θ. lra.
Qed.


Lemma calculateDistance_50m :
  calculateDistance gpsOrigin gps50mEast = 50%R.
Proof.
  pose proof PI_RGT_0 as Hpi. pose proof PI2_1 as Hpi2.
  unfold gpsOrigin, gps50mEast.
  assert (Harc : ((50 * 180 / (6371000 * PI) - 0) * PI / 180
                  = 50 / 6371000)%R) by (field; lra).
  rewrite calculateDistance_equator; rewrite Harc; lra.
Qed.

(** X2.  The distance does not depend on the order of the two points. *)
Lemma calculateDistance_sym (coords1 coords2 : GPSCoordinates) :
  calculateDistance coords1 coords2 = calculateDistance coords2 coords1.
Proof.
  unfold calculateDistance.
  assert (Hodd : ∀ u v : R,
            (sin ((u - v) * PI / 180 / 2) * sin ((u - v) * PI / 180 / 2)
             = sin ((v - u) * PI / 180 / 2) * sin ((v - u) * PI / 180 / 2))%R).
  { intros u v.
    replace ((u - v) * PI / 180 / 2)%R with (- ((v - u) * PI / 180 / 2))%R by lra.
    rewrite sin_neg. lra. }
  do 4 f_equal.
  - rewrite (Hodd (latitude coords2) (latitude coords1)).
    rewrite !Rmult_assoc.
    rewrite (Hodd (longitude coords2) (longitude coords1)). lra.
  - f_equal. rewrite (Hodd (latitude coords2) (latitude coords1)).
    rewrite !Rmult_assoc.
    rewrite (Hodd (longitude coords2) (longitude coords1)). lra.
Qed.

(** ** World continuity *)


Lemma step_placeholderHasNoGps (sd : App * Display) (ev : Event) :
  placeholderHasNoGps (fst sd) → placeholderHasNoGps (fst (step sd ev)).
Proof.
  rewrite fst_step. destruct sd as [s d]. intros Hinv. simpl in Hinv.
  assert (Hsame : ∀ s', captures s' = captures s →
                        isDefaultWorld s' = isDefaultWorld s →
                        placeholderHasNoGps s').
  { intros s' Hc Hd. unfold placeholderHasNoGps. rewrite Hc, Hd. apply Hinv. }
  destruct ev; simpl.
  - destruct (displayMounted s); [|done].
    destruct (handleWheel_sameWorld canvas deltaY pos (s, d))
      as (_ & ? & _ & _ & _ & _ & _ & ?). by apply Hsame.
  - destruct (displayMounted s); [|done].
    destruct (handleMouseDown_sameWorld button pos (s, d))
      as (_ & ? & _ & _ & _ & _ & _ & ?). by apply Hsame.
  - destruct (displayMounted s); [|done].
    destruct (handleMouseMove_sameWorld canvas pos (s, d))
      as (_ & ? & _ & _ & _ & _ & _ & ?). by apply Hsame.
  - destruct (displayMounted s); [|done].
    destruct (handleMouseUp_sameWorld (s, d))
      as (_ & ? & _ & _ & _ & _ & _ & ?). by apply Hsame.
  - destruct (displayMounted s); [|done].
    destruct (handleMouseLeave_sameWorld (s, d))
      as (_ & ? & _ & _ & _ & _ & _ & ?). by apply Hsame.
  - destruct (displayMounted s && negb _); [|done].
    destruct (handleZoomIn_sameWorld (s, d))
      as (_ & ? & _ & _ & _ & _ & _ & ?). by apply Hsame.
  - destruct (displayMounted s && negb _); [|done].
    destruct (handleZoomOut_sameWorld (s, d))
      as (_ & ? & _ & _ & _ & _ & _ & ?). by apply Hsame.
  - destruct (displayMounted s && negb _); [|done].
    destruct (handleResetZoom_sameWorld canvas (s, d))
      as (_ & ? & _ & _ & _ & _ & _ & ?). by apply Hsame.
  - unfold inferenceTimerFires.
    destruct (inferenceTimer d) as [render|]; [|done].
    destruct (triggerInference _ _ _) as [[worldRect screenRect]|]; [|done].
    simpl.
    destruct (handleInpaint_sameTiles render has2dContext worldRect
                screenRect s) as (_ & ? & _ & ? & _). by apply Hsame.
  - destruct (animatorMounted s); [|done]. simpl.
    destruct (performEnhancement_sameTiles reply s) as (_ & ? & _ & ? & _).
    by apply Hsame.
  - destruct (dissolveMounted s); [|done]. simpl.
    unfold handleEnhancementComplete.
    destruct (enhancedResult s); [|done]. by apply Hsame.
  - destruct (handleNewCapture_cases img gps locationStatus now oracle s)
      as [(s0 & -> & _)|(_ & Hc & _ & _ & Hd & _)].
    + intros [=].
    + unfold placeholderHasNoGps. rewrite Hc, Hd. intros Hdefault.
      destruct (Hinv Hdefault) as (baseCapture & rest & -> & Hgps).
      by exists baseCapture, (rest ++ [mkCapture (capture_at now) PERSPECTIVE
                                          img gps locationStatus]).
  - destruct (isActionable s); [|done]. intros [=].
  - unfold initialImage_onload. case_decide; [done|].
    intros _. by eexists _, [].
  - by apply Hsame.
  - destruct (isActionable s); [|done]. by apply Hsame.
  - case_bool_decide; [|done]. by apply Hsame.
Qed.

Lemma run_placeholderHasNoGps (events : list Event) :
  placeholderHasNoGps (fst (run events)).
Proof.
  unfold run. induction events as [|ev events IH] using rev_ind.
  - intros [=].
  - rewrite foldl_snoc. by apply step_placeholderHasNoGps.
Qed.

Lemma isNewWorldGps_both (baseCapture : Capture) (gps baseGps : GPSCoordinates)
    (s : App) :
  capGps baseCapture = Some baseGps →
  isNewWorldGps baseCapture (Some gps) s
  = JS.gt (calculateDistance gps baseGps) GPS_DISTANCE_THRESHOLD_METERS.
Proof. intros Hbase. unfold isNewWorldGps. by rewrite Hbase. Qed.



Lemma world_continuity_50m :
  handleNewCapture worldA (Some gpsOrigin) None 2 ModelCallFails
    (startNewWorld worldB (Some gps50mEast) (Some ACQUIRED) 1 defaultWorldA)
  = addCapture worldA (Some gpsOrigin) None 2
      (startNewWorld worldB (Some gps50mEast) (Some ACQUIRED) 1 defaultWorldA).
Proof.
  unfold handleNewCapture. simpl captures. cbv iota.
  rewrite (isNewWorldGps_both _ _ gps50mEast) by done.
  rewrite calculateDistance_50m.
  unfold JS.gt, GPS_DISTANCE_THRESHOLD_METERS.
  destruct (Rlt_dec 100 50); [lra|done].
Qed.

(** ** The scene comparator fails *)

(** C6.  In a placeholder world, when the GPS rules do not start a new world
    and the scene comparison fails (the model call fails inside
    [serviceCompareScenes], or the promise rejects), [handleNewCapture]
    appends the capture to the capture sequence and leaves the tiles and the
    world size as they are. *)
Theorem comparator_failure_keeps_world (s : App) (baseCapture : Capture)
    (rest : list Capture) (img : Image) (gps : option GPSCoordinates)
    (locationStatus : option LocationStatus) (now : Z) (oracle : SceneOracle) :
  captures s = baseCapture :: rest →
  isDefaultWorld s = true →
  isNewWorldGps baseCapture gps s = false →
  oracle = ModelCallFails ∨ oracle = EncodingRejects →
  let s' := handleNewCapture img gps locationStatus now oracle s in
  captures s'
  = captures s ++ [mkCapture (capture_at now) PERSPECTIVE img gps locationStatus] ∧
  tiles s' = tiles s ∧
  worldSize s' = worldSize s ∧
  isDefaultWorld s' = true ∧
  appState s' = LOADED.
Proof.
  intros Hcaptures Hdefault Hgps Horacle. unfold handleNewCapture.
  rewrite Hcaptures, Hgps, Hdefault.
  destruct Horacle as [-> | ->]; simpl; by rewrite Hcaptures.
Qed.

Lemma comparator_failure_keeps_world_witness :
  tiles (handleNewCapture worldB None None 1 ModelCallFails defaultWorldA)
  = tiles defaultWorldA ∧
  captures (handleNewCapture worldB None None 1 ModelCallFails defaultWorldA)
  = captures defaultWorldA
    ++ [mkCapture (capture_at 1) PERSPECTIVE worldB None None].
Proof.
  destruct (comparator_failure_keeps_world defaultWorldA
              (mkCapture capture_default EQUIRECTANGULAR worldA None None) []
              worldB None None 1 ModelCallFails)
    as (Hcaptures & Htiles & _).
  - reflexivity.
  - reflexivity.
  - reflexivity.
  - left. reflexivity.
  - split; [exact Htiles|exact Hcaptures].
Defined.

(** * Further properties of the code *)

(** ** The haversine distance *)

(** The haversine term of two points lies in [0, 1], whatever the angles:
    it is half of one minus the scalar product of the two unit vectors. *)
Lemma haversine_term (φ1 φ2 Δλ : R) :
  let a := (sin ((φ2 - φ1) / 2) * sin ((φ2 - φ1) / 2) +
            cos φ1 * cos φ2 * sin (Δλ / 2) * sin (Δλ / 2))%R in
  (0 <= a <= 1)%R ∧
  (1 - 2 * a = sin φ1 * sin φ2 + cos φ1 * cos φ2 * cos Δλ)%R.
Proof.
  intros a.
  assert (Hdot : (1 - 2 * a = sin φ1 * sin φ2 + cos φ1 * cos φ2 * cos Δλ)%R).
  { unfold a.
    pose proof (cos_2a_sin ((φ2 - φ1) / 2)) as Hφ.
    replace (2 * ((φ2 - φ1) / 2))%R with (φ2 - φ1)%R in Hφ by lra.
    rewrite cos_minus in Hφ.
    pose proof (cos_2a_sin (Δλ / 2)) as Hλ.
    replace (2 * (Δλ / 2))%R with Δλ in Hλ by lra.
    rewrite Hλ. lra. }
  split; [|exact Hdot].
  pose proof (COS_bound (φ1 - φ2)) as Hminus. rewrite cos_minus in Hminus.
  pose proof (COS_bound (φ1 + φ2)) as Hplus. rewrite cos_plus in Hplus.
  pose proof (COS_bound Δλ) as Hc.
  assert (Hmix : (sin φ1 * sin φ2 + cos φ1 * cos φ2 * cos Δλ
                  = (1 + cos Δλ) / 2 * (cos φ1 * cos φ2 + sin φ1 * sin φ2)
                    + (1 - cos Δλ) / 2 * - (cos φ1 * cos φ2 - sin φ1 * sin φ2))%R)
    by lra.
  assert (Hrange : (-1 <= sin φ1 * sin φ2 + cos φ1 * cos φ2 * cos Δλ <= 1)%R).
  { rewrite Hmix. split; nra. }
  lra.
Qed.

(** [2 * Math.atan2(Math.sqrt(a), Math.sqrt(1 - a))] is the angle in
    [0, PI] whose cosine is [1 - 2 * a]. *)
Lemma haversine_angle (a : R) :
  (0 <= a <= 1)%R →
  let c := (2 * Math_atan2 (sqrt a) (sqrt (1 - a)))%R in
  (0 <= c <= PI)%R ∧ cos c = (1 - 2 * a)%R.
Proof.
  intros Ha c. unfold c, Math_atan2.
  destruct (Rlt_dec 0 (sqrt (1 - a))) as [Hpos|Hzero].
  - assert (Hlt : (a < 1)%R).
    { destruct (Rlt_dec a 1) as [|Hge]; [done|].
      replace (1 - a)%R with 0%R in Hpos by lra. rewrite sqrt_0 in Hpos. lra. }
    set (x := (sqrt a / sqrt (1 - a))%R).
    assert (Hx : (0 <= x)%R).
    { unfold x. apply Rmult_le_pos; [apply sqrt_pos|].
      left. by apply Rinv_0_lt_compat. }
    assert (Hx2 : (x * x = a / (1 - a))%R).
    { unfold x.
      replace (sqrt a / sqrt (1 - a) * (sqrt a / sqrt (1 - a)))%R
        with (sqrt a * sqrt a / (sqrt (1 - a) * sqrt (1 - a)))%R
        by (field; lra).
      by rewrite !sqrt_sqrt by lra. }
    pose proof (atan_bound x) as Hbound.
    assert (Hatan : (0 <= atan x)%R).
    { destruct Hx as [Hx|<-]; [|rewrite atan_0; lra].
      left. rewrite <- atan_0. by apply atan_increasing. }
    split; [lra|].
    rewrite cos_2a_cos, cos_atan.
    assert (Hsq : (sqrt (1 + x²) * sqrt (1 + x²) = 1 / (1 - a))%R).
    { rewrite sqrt_sqrt by (unfold Rsqr; nra).
      unfold Rsqr. rewrite Hx2. field. lra. }
    assert (Hne : (sqrt (1 + x²) ≠ 0)%R).
    { intros H0. rewrite H0 in Hsq.
      assert (0 < 1 / (1 - a))%R by (apply Rdiv_lt_0_compat; lra). lra. }
    replace (2 * (1 / sqrt (1 + x²)) * (1 / sqrt (1 + x²)))%R
      with (2 / (sqrt (1 + x²) * sqrt (1 + x²)))%R by (by field).
    rewrite Hsq. field. lra.
  - assert (Hone : a = 1%R).
    { destruct (Rlt_dec a 1) as [Hlt|Hge]; [|lra].
      destruct Hzero. apply sqrt_lt_R0. lra. }
    subst a. replace (1 - 1)%R with 0%R by lra. rewrite sqrt_0, sqrt_1.
    destruct (Rlt_dec 0 0) as [|_]; [lra|].
    destruct (Rlt_dec 0 1) as [_|]; [|lra].
    pose proof PI_RGT_0.
    replace (2 * (PI / 2))%R with PI by lra. rewrite cos_PI. lra.
Qed.

Lemma calculateDistance_acos (coords1 coords2 : GPSCoordinates) :
  let φ1 := (latitude coords1 * PI / 180)%R in
  let φ2 := (latitude coords2 * PI / 180)%R in
  let Δλ := ((longitude coords2 - longitude coords1) * PI / 180)%R in
  let θ := acos (sin φ1 * sin φ2 + cos φ1 * cos φ2 * cos Δλ) in
  calculateDistance coords1 coords2 = (6371000 * θ)%R ∧ (0 <= θ <= PI)%R.
Proof.
  intros φ1 φ2 Δλ. unfold calculateDistance. cbv zeta.
  fold φ1 φ2 Δλ.
  replace ((latitude coords2 - latitude coords1) * PI / 180)%R
    with (φ2 - φ1)%R by (unfold φ1, φ2; lra).
  destruct (haversine_term φ1 φ2 Δλ) as [Ha Hdot].
  destruct (haversine_angle _ Ha) as [Hc Hcos].
  cbv zeta in Hdot, Hc, Hcos. rewrite <- Hdot, <- Hcos.
  by rewrite acos_cos by exact Hc.
Qed.


Lemma calculateDistance_self (coords : GPSCoordinates) :
  calculateDistance coords coords = 0%R.
Proof.
  destruct (calculateDistance_acos coords coords) as [Heq _].
  cbv zeta in Heq. rewrite Heq.
  replace ((longitude coords - longitude coords) * PI / 180)%R with 0%R by lra.
  rewrite cos_0.
  pose proof (sin2_cos2 (latitude coords * PI / 180)) as Hone.
  unfold Rsqr in Hone.
  replace (sin (latitude coords * PI / 180) * sin (latitude coords * PI / 180) +
           cos (latitude coords * PI / 180) * cos (latitude coords * PI / 180) * 1)%R
    with 1%R by lra.
  rewrite acos_1. lra.
Qed.

(** ** What [draw] paints *)

Lemma Zfloor_le_iff (r : R) (z : Z) : Zfloor r ≤ z ↔ (r < IZR z + 1)%R.
Proof.
  pose proof (Zfloor_bound r) as Hr. split.
  - intros Hle. apply IZR_le in Hle. lra.
  - intros Hlt. apply Z.lt_succ_r, lt_IZR. rewrite succ_IZR. lra.
Qed.

Lemma lt_Zceil_iff (r : R) (z : Z) : z < Zceil r ↔ (IZR z < r)%R.
Proof.
  pose proof (Zceil_bound r) as Hr. split.
  - intros Hlt. assert (z + 1 ≤ Zceil r) as Hle by lia.
    apply IZR_le in Hle. rewrite plus_IZR in Hle. lra.
  - intros Hlt. apply lt_IZR. lra.
Qed.

Lemma div_lt_iff (r : R) (T z : Z) :
  0 < T → (r / IZR T < IZR z)%R ↔ (r < IZR (z * T))%R.
Proof.
  intros HT. apply IZR_lt in HT. rewrite mult_IZR. split; intros Hlt.
  - apply (Rmult_lt_reg_r (/ IZR T)); [by apply Rinv_0_lt_compat|].
    replace (IZR z * IZR T * / IZR T)%R with (IZR z) by (field; lra). done.
  - replace (IZR z) with (IZR z * IZR T * / IZR T)%R by (field; lra).
    apply Rmult_lt_compat_r; [by apply Rinv_0_lt_compat|done].
Qed.

Lemma lt_div_iff (r : R) (T z : Z) :
  0 < T → (IZR z < r / IZR T)%R ↔ (IZR (z * T) < r)%R.
Proof.
  intros HT. apply IZR_lt in HT. rewrite mult_IZR. split; intros Hlt.
  - apply (Rmult_lt_reg_r (/ IZR T)); [by apply Rinv_0_lt_compat|].
    replace (IZR z * IZR T * / IZR T)%R with (IZR z) by (field; lra). done.
  - replace (IZR z) with (IZR z * IZR T * / IZR T)%R by (field; lra).
    apply Rmult_lt_compat_r; [by apply Rinv_0_lt_compat|done].
Qed.

Lemma elem_of_drawRange (viewRectWorld : Rect R) (tileSize x y : Z) :
  (x, y) ∈ drawRange viewRectWorld tileSize ↔
  Zfloor (rx viewRectWorld / IZR tileSize) ≤ x
    < Zceil ((rx viewRectWorld + rw viewRectWorld) / IZR tileSize) ∧
  Zfloor (ry viewRectWorld / IZR tileSize) ≤ y
    < Zceil ((ry viewRectWorld + rh viewRectWorld) / IZR tileSize).
Proof.
  unfold drawRange. rewrite list_elem_of_bind. split.
  - intros (y' & Hx & Hy). apply list_elem_of_bind in Hx as (x' & Hxy & Hx).
    apply list_elem_of_singleton in Hxy. simplify_eq.
    apply elem_of_seqZ in Hx, Hy. lia.
  - intros [Hx Hy]. exists y. split; [|apply elem_of_seqZ; lia].
    apply list_elem_of_bind. exists x.
    split; [by apply list_elem_of_singleton|apply elem_of_seqZ; lia].
Qed.

Lemma drawRange_meets_view (viewRectWorld : Rect R) (tileSize x y : Z) :
  0 < tileSize →
  (x, y) ∈ drawRange viewRectWorld tileSize ↔
  (IZR (x * tileSize) < rx viewRectWorld + rw viewRectWorld)%R ∧
  (rx viewRectWorld < IZR ((x + 1) * tileSize))%R ∧
  (IZR (y * tileSize) < ry viewRectWorld + rh viewRectWorld)%R ∧
  (ry viewRectWorld < IZR ((y + 1) * tileSize))%R.
Proof.
  intros HT. rewrite elem_of_drawRange.
  rewrite !Zfloor_le_iff, !lt_Zceil_iff.
  rewrite <- !plus_IZR.
  rewrite !(div_lt_iff _ tileSize) by done.
  rewrite !(lt_div_iff _ tileSize) by done.
  tauto.
Qed.

(** X3.  [draw] paints exactly the grid cells that meet the view rectangle
    and have a tile under their wrapped column: there is a [drawImage] call
    for the tile found for cell (x, y), at (x * tileSize, y * tileSize) and
    of the size of a cell, if and only if the cell begins before the right
    and lower edge of the view and ends after its left and upper edge. *)
Theorem draw_paints_cells_that_meet_view (box : CanvasBox) (tileSize : Z)
    (s : App) (call : DrawCall) :
  0 < tileSize →
  let view := getTransform (Some box) s in
  call ∈ draw true (Some box) tileSize s ↔
  ∃ x y tile,
    ((IZR (x * tileSize) < rx view + rw view)%R ∧
     (rx view < IZR ((x + 1) * tileSize))%R ∧
     (IZR (y * tileSize) < ry view + rh view)%R ∧
     (ry view < IZR ((y + 1) * tileSize))%R) ∧
    drawLookup (tiles s) (worldSize s) tileSize x y = Some tile ∧
    call = mkDrawCall tile (x * tileSize) (y * tileSize) tileSize tileSize.
Proof.
  intros HT view. unfold draw. simpl.
  case_bool_decide as Hwidth.
  - split; [by intros ?%elem_of_nil|].
    intros (x & y & tile & _ & Hlookup & _).
    unfold drawLookup in Hlookup. by rewrite decide_True in Hlookup.
  - rewrite list_elem_of_omap. fold view. split.
    + intros ([x y] & Hin & Hcall).
      apply drawRange_meets_view in Hin; [|done].
      destruct (drawLookup _ _ _ x y) as [tile|] eqn:Hlookup; [|done].
      exists x, y, tile. by simplify_eq.
    + intros (x & y & tile & Hmeets & Hlookup & ->).
      exists (x, y). split; [by apply drawRange_meets_view|].
      by rewrite Hlookup.
Qed.

Lemma draw_paints_cells_that_meet_view_witness :
  mkDrawCall (tileAt TILE_SIZE (solidImage 1000 1000 3) 0 0) 0 0 512 512
    ∈ draw true (Some lowCanvas) 512 tallWorld.
Proof.
  apply (draw_paints_cells_that_meet_view lowCanvas 512 tallWorld); [done|].
  exists 0, 0, (tileAt TILE_SIZE (solidImage 1000 1000 3) 0 0).
  split_and!.
  - simpl. rewrite ?mult_IZR, ?plus_IZR. lra.
  - simpl. rewrite ?mult_IZR, ?plus_IZR. lra.
  - simpl. rewrite ?mult_IZR, ?plus_IZR. lra.
  - simpl. rewrite ?mult_IZR, ?plus_IZR. lra.
  - unfold drawLookup. rewrite decide_False by done.
    change (tiles tallWorld) with (tileizeWith 512 (solidImage 1000 1000 3)).
    apply tileizeWith_lookup; [done|]. exists 0, 0. done.
  - done.
Defined.

(** ** The region of an enhancement job *)

Lemma Zfloor_div_le (r : R) (T : Z) :
  0 < T → (IZR (Zfloor (r / IZR T) * T) <= r)%R.
Proof.
  intros HT. apply IZR_lt in HT. rewrite mult_IZR.
  pose proof (Zfloor_bound (r / IZR T)) as [Hlow _].
  apply (Rmult_le_compat_r (IZR T)) in Hlow; [|lra].
  replace (r / IZR T * IZR T)%R with r in Hlow by (field; lra). done.
Qed.

Lemma Zfloor_div_lt (r : R) (T : Z) :
  0 < T → (r < IZR ((Zfloor (r / IZR T) + 1) * T))%R.
Proof.
  intros HT. apply IZR_lt in HT. rewrite mult_IZR, plus_IZR.
  pose proof (Zfloor_bound (r / IZR T)) as [_ Hup].
  apply (Rmult_lt_compat_r (IZR T)) in Hup; [|lra].
  replace (r / IZR T * IZR T)%R with r in Hup by (field; lra). done.
Qed.

Lemma drawRange_in_stitch_range (view : Rect R) (x y : Z) :
  (x, y) ∈ drawRange view TILE_SIZE →
  Zfloor (rx view / IZR TILE_SIZE) ≤ x
    ≤ Zfloor ((rx view + rw view) / IZR TILE_SIZE) ∧
  Zfloor (ry view / IZR TILE_SIZE) ≤ y
    ≤ Zfloor ((ry view + rh view) / IZR TILE_SIZE).
Proof.
  intros Hin. apply elem_of_drawRange in Hin as [[Hx1 Hx2] [Hy1 Hy2]].
  split; (split; [done|]).
  - apply lt_Zceil_iff in Hx2. apply Zfloor_lub. lra.
  - apply lt_Zceil_iff in Hy2. apply Zfloor_lub. lra.
Qed.

Lemma Math_ceil_div_pos (a b : Z) : 0 < a → 0 < b → 0 < JS.Math_ceil_div a b.
Proof.
  intros Ha Hb. unfold JS.Math_ceil_div.
  pose proof (Z.div_mod (- a) b ltac:(lia)).
  pose proof (Z.mod_pos_bound (- a) b Hb). nia.
Qed.

(** X4.  The region that an accepted [handleInpaint] stitches for a view
    rectangle of non-negative size is aligned to the tile grid (corner and
    size are multiples of TILE_SIZE, the size is positive), contains the
    view rectangle, and contains every grid cell that [draw] visits for the
    same view; the stitched raster has the size of the region. *)
Theorem stitched_region_covers_view (view screenRect : Rect R) (s : App) :
  appState s = LOADED →
  (0 <= rw view)%R → (0 <= rh view)%R →
  ∃ region,
    stitchedEnhanceImage (handleInpaint true view screenRect s) = Some region ∧
    enhancementJob (handleInpaint true view screenRect s)
    = Some (mkJob view screenRect) ∧
    let r := worldRect region in
    ((TILE_SIZE | rx r) ∧ (TILE_SIZE | ry r) ∧
     (TILE_SIZE | rw r) ∧ (TILE_SIZE | rh r) ∧ 0 < rw r ∧ 0 < rh r) ∧
    ((IZR (rx r) <= rx view)%R ∧ (rx view + rw view < IZR (rx r + rw r))%R ∧
     (IZR (ry r) <= ry view)%R ∧ (ry view + rh view < IZR (ry r + rh r))%R) ∧
    (naturalWidth (src region) = rw r ∧ naturalHeight (src region) = rh r) ∧
    ∀ x y, (x, y) ∈ drawRange view TILE_SIZE →
      rx r ≤ x * TILE_SIZE ∧ (x + 1) * TILE_SIZE ≤ rx r + rw r ∧
      ry r ≤ y * TILE_SIZE ∧ (y + 1) * TILE_SIZE ≤ ry r + rh r.
Proof.
  intros Hloaded Hw Hh.
  rewrite (handleInpaint_accepted view screenRect s Hloaded). cbv zeta.
  set (sx := Zfloor (rx view / IZR TILE_SIZE)).
  set (sy := Zfloor (ry view / IZR TILE_SIZE)).
  set (ex := Zfloor ((rx view + rw view) / IZR TILE_SIZE)).
  set (ey := Zfloor ((ry view + rh view) / IZR TILE_SIZE)).
  assert (HT : 0 < TILE_SIZE) by done.
  assert (HTR : (0 < IZR TILE_SIZE)%R) by (by apply IZR_lt).
  assert (Hx : sx ≤ ex).
  { apply Zfloor_le. apply Rmult_le_compat_r; [|lra].
    left. by apply Rinv_0_lt_compat. }
  assert (Hy : sy ≤ ey).
  { apply Zfloor_le. apply Rmult_le_compat_r; [|lra].
    left. by apply Rinv_0_lt_compat. }
  eexists. split; [reflexivity|]. split; [reflexivity|]. simpl.
  split_and!.
  - by apply Z.divide_factor_r.
  - by apply Z.divide_factor_r.
  - by apply Z.divide_factor_r.
  - by apply Z.divide_factor_r.
  - unfold TILE_SIZE. lia.
  - unfold TILE_SIZE. lia.
  - by apply Zfloor_div_le.
  - replace (sx * TILE_SIZE + (ex - sx + 1) * TILE_SIZE)
      with ((ex + 1) * TILE_SIZE) by lia.
    by apply Zfloor_div_lt.
  - by apply Zfloor_div_le.
  - replace (sy * TILE_SIZE + (ey - sy + 1) * TILE_SIZE)
      with ((ey + 1) * TILE_SIZE) by lia.
    by apply Zfloor_div_lt.
  - apply stitchTiles_size.
  - apply stitchTiles_size.
  - intros x y Hin.
    apply drawRange_in_stitch_range in Hin as [Hx' Hy'].
    fold sx ex in Hx'. fold sy ey in Hy'. unfold TILE_SIZE. lia.
Qed.

Lemma stitched_region_covers_view_witness :
  ∃ region,
    stitchedEnhanceImage (handleInpaint true viewInside screen defaultWorldA)
    = Some region ∧
    naturalWidth (src region) = rw (worldRect region).
Proof.
  destruct (stitched_region_covers_view viewInside screen defaultWorldA)
    as (region & Hregion & _ & _ & _ & [Hwidth _] & _).
  - reflexivity.
  - simpl. lra.
  - simpl. lra.
  - exists region. split; [exact Hregion|exact Hwidth].
Defined.

(** X5.  [handleInpaint] reads the tile of a cell under the key of the cell
    itself, while [draw] reads it under the wrapped column.  So in a world
    whose tiles are those of its grid, a cell of the view that lies left or
    right of the grid (in a grid row) is painted by [draw] with a tile of
    the world, and is transparent in the raster that [handleInpaint]
    stitches for the same view. *)
Theorem stitched_raster_is_blank_where_draw_wraps (view screenRect : Rect R)
    (s : App) (x y i j : Z) :
  appState s = LOADED →
  gridExact (tiles s) (worldSize s) →
  tilesFit (tiles s) →
  0 < width (worldSize s) →
  (0 <= rw view)%R → (0 <= rh view)%R →
  (x, y) ∈ drawRange view TILE_SIZE →
  ¬ 0 ≤ x < JS.Math_ceil_div (width (worldSize s)) TILE_SIZE →
  0 ≤ y < JS.Math_ceil_div (height (worldSize s)) TILE_SIZE →
  0 ≤ i < TILE_SIZE → 0 ≤ j < TILE_SIZE →
  is_Some (drawLookup (tiles s) (worldSize s) TILE_SIZE x y) ∧
  ∃ region,
    stitchedEnhanceImage (handleInpaint true view screenRect s) = Some region ∧
    pixelAt (src region)
      (x * TILE_SIZE + i - rx (worldRect region))
      (y * TILE_SIZE + j - ry (worldRect region)) = None.
Proof.
  intros Hloaded Hgrid Hfit Hwidth Hw Hh Hin Hout Hrow Hi Hj.
  split.
  - unfold drawLookup. rewrite decide_False by lia.
    apply Hgrid.
    exists (wrappedX (JS.Math_ceil_div (width (worldSize s)) TILE_SIZE) x), y.
    split_and!; [| |lia|lia|done].
    + rewrite wrappedX_mod by (by apply Math_ceil_div_pos).
      apply Z.mod_pos_bound. by apply Math_ceil_div_pos.
    + rewrite wrappedX_mod by (by apply Math_ceil_div_pos).
      apply Z.mod_pos_bound. by apply Math_ceil_div_pos.
  - apply drawRange_in_stitch_range in Hin as [Hx Hy].
    rewrite (handleInpaint_accepted view screenRect s Hloaded). cbv zeta.
    eexists. split; [reflexivity|]. simpl.
    set (sx := Zfloor (rx view / IZR TILE_SIZE)) in *.
    set (sy := Zfloor (ry view / IZR TILE_SIZE)) in *.
    set (ex := Zfloor ((rx view + rw view) / IZR TILE_SIZE)) in *.
    set (ey := Zfloor ((ry view + rh view) / IZR TILE_SIZE)) in *.
    replace (x * TILE_SIZE + i - sx * TILE_SIZE)
      with ((x - sx) * TILE_SIZE + i) by lia.
    replace (y * TILE_SIZE + j - sy * TILE_SIZE)
      with ((y - sy) * TILE_SIZE + j) by lia.
    rewrite stitchTiles_pixel by done.
    destruct (tiles s !! tileKey x y) as [tile|] eqn:Hkey; [|done].
    destruct (proj1 (Hgrid (tileKey x y))) as (col & row & Hcol & _ & Heq).
    { by eexists. }
    apply tileKey_inj in Heq as [-> ->]. by destruct Hout.
Qed.

Lemma stitched_raster_is_blank_where_draw_wraps_witness :
  is_Some (drawLookup (tiles defaultWorldA) (worldSize defaultWorldA)
             TILE_SIZE 1 0) ∧
  ∃ region,
    stitchedEnhanceImage (handleInpaint true viewBeyond screen defaultWorldA)
    = Some region ∧
    pixelAt (src region) (1 * TILE_SIZE + 0 - rx (worldRect region))
      (0 * TILE_SIZE + 0 - ry (worldRect region)) = None.
Proof.
  apply (stitched_raster_is_blank_where_draw_wraps viewBeyond screen
           defaultWorldA 1 0 0 0).
  - reflexivity.
  - apply (gridExact_tileize worldA).
  - apply (tilesFit_tileize worldA).
  - simpl. lia.
  - simpl. lra.
  - simpl. lra.
  - apply drawRange_meets_view; [done|].
    unfold viewBeyond, TILE_SIZE. simpl. rewrite !mult_IZR, !plus_IZR.
    repeat split; lra.
  - vm_compute. intros [_ Hlt]. discriminate Hlt.
  - vm_compute. split; [discriminate|reflexivity].
  - unfold TILE_SIZE. lia.
  - unfold TILE_SIZE. lia.
Defined.

(** X24.  [draw] scales every tile to a full cell, [handleInpaint] draws it
    at its natural size.  In a world that has just been tileized, a tile of
    the last column or row that is narrower than TILE_SIZE is painted over
    the whole cell by [draw], while in the raster stitched for the same
    view the cell is transparent to the right of the tile's natural
    width. *)
Theorem draw_stretches_edge_tile_stitch_does_not (img : Image)
    (box : CanvasBox) (screenRect : Rect R) (s : App) (x y : Z) :
  appState s = LOADED →
  tiles s = tileizeWith TILE_SIZE img →
  worldSize s = mkWorldSize (naturalWidth img) (naturalHeight img) →
  let view := getTransform (Some box) s in
  (x, y) ∈ drawRange view TILE_SIZE →
  0 ≤ x < numTiles TILE_SIZE (naturalWidth img) →
  0 ≤ y < numTiles TILE_SIZE (naturalHeight img) →
  let tile := tileAt TILE_SIZE img x y in
  naturalWidth (image tile)
  = Z.min TILE_SIZE (naturalWidth img - x * TILE_SIZE) ∧
  mkDrawCall tile (x * TILE_SIZE) (y * TILE_SIZE) TILE_SIZE TILE_SIZE
    ∈ draw true (Some box) TILE_SIZE s ∧
  ∃ region,
    stitchedEnhanceImage (handleInpaint true view screenRect s) = Some region ∧
    ∀ i j,
      naturalWidth (image tile) ≤ i < TILE_SIZE → 0 ≤ j < TILE_SIZE →
      pixelAt (src region)
        (x * TILE_SIZE + i - rx (worldRect region))
        (y * TILE_SIZE + j - ry (worldRect region)) = None.
Proof.
  intros Hloaded Htiles Hsize view Hin Hx Hy tile.
  assert (HT : 0 < TILE_SIZE) by done.
  assert (Hkey : tiles s !! tileKey x y = Some tile).
  { rewrite Htiles. apply tileizeWith_lookup; [done|]. by exists x, y. }
  split_and!.
  - done.
  - unfold draw. simpl.
    assert (Hwidth : 0 < naturalWidth img).
    { pose proof (lt_numTiles TILE_SIZE HT (naturalWidth img) 0). lia. }
    rewrite Hsize. simpl.
    rewrite bool_decide_eq_false_2 by lia.
    apply list_elem_of_omap. exists (x, y). split; [done|].
    unfold drawLookup. simpl. rewrite decide_False by lia.
    fold (numTiles TILE_SIZE (naturalWidth img)).
    rewrite wrappedX_mod by lia. rewrite Z.mod_small by lia.
    by rewrite Hkey.
  - clearbody view. apply drawRange_in_stitch_range in Hin as [Hsx Hsy].
    rewrite (handleInpaint_accepted view screenRect s Hloaded). cbv zeta.
    eexists. split; [reflexivity|]. simpl.
    intros i j Hi Hj.
    set (sx := Zfloor (rx view / IZR TILE_SIZE)) in *.
    set (sy := Zfloor (ry view / IZR TILE_SIZE)) in *.
    set (ex := Zfloor ((rx view + rw view) / IZR TILE_SIZE)) in *.
    set (ey := Zfloor ((ry view + rh view) / IZR TILE_SIZE)) in *.
    replace (x * TILE_SIZE + i - sx * TILE_SIZE)
      with ((x - sx) * TILE_SIZE + i) by lia.
    replace (y * TILE_SIZE + j - sy * TILE_SIZE)
      with ((y - sy) * TILE_SIZE + j) by lia.
    assert (Hi' : 0 ≤ i < TILE_SIZE).
    { pose proof (lt_numTiles TILE_SIZE HT (naturalWidth img) x) as Hlt.
      pose proof Hi as Hmin. simpl in Hmin. lia. }
    rewrite stitchTiles_pixel; [|rewrite Htiles; apply tilesFit_tileize|
                                 done..].
    rewrite Hkey. apply sample_outside. simpl. lia.
Qed.

Lemma draw_stretches_edge_tile_stitch_does_not_witness :
  let tile := tileAt TILE_SIZE (solidImage 1000 1000 3) 1 0 in
  naturalWidth (image tile) = 488 ∧
  mkDrawCall tile 512 0 512 512 ∈ draw true (Some lowCanvas) TILE_SIZE tallWorld.
Proof.
  destruct (draw_stretches_edge_tile_stitch_does_not (solidImage 1000 1000 3)
              lowCanvas screen tallWorld 1 0) as (Hwidth & Hdraw & _).
  - reflexivity.
  - reflexivity.
  - reflexivity.
  - apply drawRange_meets_view; [done|].
    unfold lowCanvas, TILE_SIZE. simpl. rewrite !mult_IZR, !plus_IZR.
    repeat split; lra.
  - vm_compute. split; [discriminate|reflexivity].
  - vm_compute. split; [discriminate|reflexivity].
  - split; [exact Hwidth|exact Hdraw].
Defined.

(** ** Zooming with the wheel *)

Lemma exp_tenth : (1 < exp 0.1 < 3)%R ∧ (0 < exp (- (0.1)) < 1)%R ∧
                  (exp 0.1 * exp (- (0.1)) = 1)%R.
Proof.
  pose proof (exp_increasing 0 0.1 ltac:(lra)) as Hlow.
  pose proof (exp_increasing 0.1 1 ltac:(lra)) as Hup.
  pose proof (exp_increasing (- (0.1)) 0 ltac:(lra)) as Hneg.
  pose proof (exp_pos (- (0.1))) as Hpos.
  pose proof exp_le_3 as H3. rewrite exp_0 in Hlow, Hneg.
  split_and!; [lra..|].
  rewrite <- exp_plus. replace (0.1 + - (0.1))%R with 0%R by lra. apply exp_0.
Qed.

(** The state after a wheel tick that is not dropped. *)
Lemma handleWheel_free (canvas : option CanvasBox) (deltaY : R) (pos : Point)
    (s : App) (d : Display) :
  isBusy s = false →
  let zoomFactor := if JS.gt 0 deltaY then exp 0.1 else exp (- (0.1)) in
  let newZoom := JS.Math_max 0.1 (JS.Math_min (zoom s * zoomFactor) 50) in
  let newPanX := (px (pan s) - (px pos - px (pan s)) * (zoomFactor - 1))%R in
  let newPanY := (py (pan s) - (py pos - py (pan s)) * (zoomFactor - 1))%R in
  fst (handleWheel canvas deltaY pos (s, d))
  = s |> setZoom newZoom
      |> setPan (mkPoint newPanX (clampPanY canvas (worldSize s) newZoom newPanY)).
Proof. intros Hfree. unfold handleWheel. rewrite Hfree. reflexivity. Qed.

Lemma clamp_zoom_inactive (z : R) :
  (0.1 <= z <= 50)%R → JS.Math_max 0.1 (JS.Math_min z 50) = z.
Proof.
  intros Hz. unfold JS.Math_max, JS.Math_min, Rmax, Rmin.
  repeat destruct (Rle_dec _ _); lra.
Qed.

(** X6.  A wheel tick whose new zoom is not cut by the limits keeps the
    world column under the cursor where it is: the cursor at screen
    position pos.x shows the world coordinate (pos.x - pan.x) / zoom before
    and after.  The same holds for the world row when there is no canvas
    box to clamp against. *)
Theorem wheel_zoom_keeps_point_under_cursor (canvas : option CanvasBox)
    (deltaY : R) (pos : Point) (s : App) (d : Display) :
  isBusy s = false →
  (0 < zoom s)%R →
  let zoomFactor := if JS.gt 0 deltaY then exp 0.1 else exp (- (0.1)) in
  (0.1 <= zoom s * zoomFactor <= 50)%R →
  let s' := fst (handleWheel canvas deltaY pos (s, d)) in
  zoom s' = (zoom s * zoomFactor)%R ∧
  ((px pos - px (pan s')) / zoom s' = (px pos - px (pan s)) / zoom s)%R ∧
  (canvas = None →
   ((py pos - py (pan s')) / zoom s' = (py pos - py (pan s)) / zoom s)%R).
Proof.
  intros Hfree Hzoom zoomFactor Hrange s'. unfold s'.
  rewrite handleWheel_free by done. fold zoomFactor.
  rewrite clamp_zoom_inactive by done. simpl.
  assert (Hfactor : (0 < zoomFactor)%R).
  { unfold zoomFactor. destruct (JS.gt 0 deltaY); apply exp_pos. }
  split_and!; [done| |intros ->; simpl]; field; lra.
Qed.

Lemma wheel_zoom_keeps_point_under_cursor_witness :
  let s' := fst (handleWheel None (-1) (mkPoint 10 10)
                   (defaultWorldA, initialDisplay)) in
  ((10 - px (pan s')) / zoom s' = (10 - 0) / 1)%R.
Proof.
  destruct (wheel_zoom_keeps_point_under_cursor None (-1) (mkPoint 10 10)
              defaultWorldA initialDisplay) as (_ & Hx & _).
  - reflexivity.
  - simpl. lra.
  - pose proof exp_tenth as (? & ? & _).
    simpl. unfold JS.gt. destruct (Rlt_dec (-1) 0); lra.
  - exact Hx.
Defined.

(** X7.  At the upper limit of the zoom a wheel tick towards the image
    leaves the zoom at 50 and still moves the pan as if the zoom had grown:
    the pan.x changes by (pos.x - pan.x) * (exp 0.1 - 1), so the image
    slides under a cursor that is not on the world's origin column. *)
Theorem wheel_at_zoom_limit_still_pans (canvas : option CanvasBox)
    (deltaY : R) (pos : Point) (s : App) (d : Display) :
  isBusy s = false →
  zoom s = 50%R →
  (deltaY < 0)%R →
  let s' := fst (handleWheel canvas deltaY pos (s, d)) in
  zoom s' = 50%R ∧
  px (pan s') = (px (pan s) - (px pos - px (pan s)) * (exp 0.1 - 1))%R ∧
  (px pos ≠ px (pan s) → px (pan s') ≠ px (pan s)).
Proof.
  intros Hfree Hzoom Hdelta s'. unfold s'.
  rewrite handleWheel_free by done.
  assert (Hin : JS.gt 0 deltaY = true).
  { unfold JS.gt. by destruct (Rlt_dec deltaY 0). }
  rewrite Hin, Hzoom. simpl.
  pose proof exp_tenth as (Hexp & _ & _).
  split_and!.
  - unfold JS.Math_max, JS.Math_min, Rmax, Rmin.
    repeat destruct (Rle_dec _ _); lra.
  - done.
  - intros Hne Heq.
    assert ((px pos - px (pan s)) * (exp 0.1 - 1) = 0)%R as Hprod by lra.
    apply Rmult_integral in Hprod as [Hzero|Hzero]; lra.
Qed.

Lemma wheel_at_zoom_limit_still_pans_witness :
  let s := setZoom 50 defaultWorldA in
  let s' := fst (handleWheel None (-1) (mkPoint 10 10) (s, initialDisplay)) in
  zoom s' = 50%R ∧ px (pan s') ≠ px (pan s).
Proof.
  destruct (wheel_at_zoom_limit_still_pans None (-1) (mkPoint 10 10)
              (setZoom 50 defaultWorldA) initialDisplay)
    as (Hzoom & _ & Hpan).
  - reflexivity.
  - reflexivity.
  - lra.
  - split; [exact Hzoom|]. apply Hpan. simpl. lra.
Defined.



(** ** Dragging *)

(** X9.  A press of the main button at [p0] followed by a move to [p]
    moves the pan horizontally by exactly the cursor's displacement and
    vertically by the displacement cut to the vertical clamp; the zoom
    stays, the pending inference timer is cancelled, and the release arms
    the timer again with the state of that render.  A press of another
    button, or a press while the application is busy, starts no drag: the
    following move changes nothing. *)
Theorem drag_moves_pan_with_cursor (canvas : option CanvasBox)
    (p0 p : Point) (s : App) (d : Display) :
  (isBusy s = false →
   let moved := handleMouseMove canvas p (handleMouseDown 0 p0 (s, d)) in
   px (pan (fst moved)) = (px (pan s) + (px p - px p0))%R ∧
   py (pan (fst moved))
   = clampPanY canvas (worldSize s) (zoom s) (py (pan s) + (py p - py p0)) ∧
   zoom (fst moved) = zoom s ∧
   inferenceTimer (snd moved) = None ∧
   isPanning (snd (handleMouseUp moved)) = false ∧
   inferenceTimer (snd (handleMouseUp moved)) = Some (fst moved)) ∧
  (∀ button,
     isPanning d = false →
     isBusy s = true ∨ button ≠ 0 →
     handleMouseMove canvas p (handleMouseDown button p0 (s, d)) = (s, d)).
Proof.
  split.
  - intros Hfree. unfold handleMouseDown. rewrite Hfree. simpl.
    unfold handleMouseMove. simpl.
    split_and!.
    + lra.
    + f_equal. lra.
    + done.
    + done.
    + unfold handleMouseUp. simpl.
      change (isBusy (setPan _ s)) with (isBusy s). by rewrite Hfree.
    + unfold handleMouseUp. simpl.
      change (isBusy (setPan _ s)) with (isBusy s). by rewrite Hfree.
  - intros button Hidle Hdropped.
    assert (Hguard : isBusy s || bool_decide (button ≠ 0) = true).
    { destruct Hdropped as [->|Hbutton]; [done|].
      rewrite (bool_decide_eq_true_2 _ Hbutton). apply orb_true_r. }
    unfold handleMouseDown. rewrite Hguard.
    unfold handleMouseMove. by rewrite Hidle.
Qed.

(** ** What holds in every reachable state *)

Lemma withView_self (s : App) : withView (pan s) (zoom s) s = s.
Proof. by destruct s. Qed.

(** An event of the viewport changes the pan and the zoom and nothing
    else. *)
Lemma handle_viewport (s : App) (d : Display) (ev : Event) :
  isViewportEvent ev = true →
  ∃ pan zoom, fst (handle (s, d) ev) = withView pan zoom s.
Proof.
  intros Hev.
  assert (Hself : ∃ pan zoom, s = withView pan zoom s).
  { exists (pan s), (zoom s). by rewrite withView_self. }
  destruct ev; try discriminate Hev; simpl.
  - destruct (displayMounted s); [|done]. unfold handleWheel.
    destruct (isBusy s); [done|]. by eexists _, _.
  - destruct (displayMounted s); [|done]. unfold handleMouseDown.
    by destruct (_ || _).
  - destruct (displayMounted s); [|done]. unfold handleMouseMove.
    destruct (isPanning d); [|done]. exists (mkPoint
      (px pos - px (panStart (clearInferenceTimer d)))
      (clampPanY canvas (worldSize s) (zoom s)
         (py pos - py (panStart (clearInferenceTimer d))))), (zoom s).
    by destruct s.
  - destruct (displayMounted s); [|done]. unfold handleMouseUp.
    by destruct (isPanning d).
  - destruct (displayMounted s); [|done]. unfold handleMouseLeave.
    by destruct (isPanning d).
  - destruct (displayMounted s && negb _); [|done]. unfold handleZoomIn.
    exists (pan s), (JS.Math_min (zoom s * 1.25) 50). by destruct s.
  - destruct (displayMounted s && negb _); [|done]. unfold handleZoomOut.
    exists (pan s), (JS.Math_max 0.1 (zoom s / 1.25)). by destruct s.
  - destruct (displayMounted s && negb _); [|done]. unfold handleResetZoom.
    destruct canvas as [box|]; by eexists _, _.
Qed.


Lemma reachableInvariant_withView (pan : Point) (zoom : R) (s : App) :
  reachableInvariant s → reachableInvariant (withView pan zoom s).
Proof. by destruct s. Qed.

Lemma displayMounted_tiles (s : App) :
  displayMounted s = true → tiles s ≠ ∅.
Proof.
  unfold displayMounted. intros [Hsize _]%andb_prop.
  apply bool_decide_eq_true in Hsize. intros Hempty.
  rewrite Hempty, map_size_empty in Hsize. lia.
Qed.

Lemma tileizeWith_nonempty (img : Image) :
  tileizeWith TILE_SIZE img ≠ ∅ →
  0 < naturalWidth img ∧ 0 < naturalHeight img.
Proof.
  intros Hne. apply map_choose in Hne as (k & t & Hk).
  apply tileizeWith_lookup in Hk as (x & y & Hx & Hy & _); [|done].
  assert (HT : 0 < TILE_SIZE) by done.
  pose proof (lt_numTiles TILE_SIZE HT (naturalWidth img) 0) as Hw.
  pose proof (lt_numTiles TILE_SIZE HT (naturalHeight img) 0) as Hh.
  lia.
Qed.

Lemma gridCovered_tileize (img : Image) :
  gridCovered (tileizeWith TILE_SIZE img)
    (mkWorldSize (naturalWidth img) (naturalHeight img)).
Proof.
  intros col row Hcol Hrow. apply (gridExact_tileize img). by exists col, row.
Qed.

(** The state after [startNewWorld], whatever the state before. *)
Lemma startNewWorld_reachableInvariant img gps locationStatus now s :
  reachableInvariant (startNewWorld img gps locationStatus now s).
Proof.
  unfold reachableInvariant, capturesInvariant, gridInvariant,
    animationInvariant, bannerInvariant. simpl.
  split_and!; try done.
  - apply gridCovered_tileize.
  - apply tileizeWith_nonempty.
Qed.

Lemma initialImage_onload_reachableInvariant capturesLength img s :
  reachableInvariant s →
  reachableInvariant (initialImage_onload capturesLength img s).
Proof.
  intros Hinv. unfold initialImage_onload. case_decide; [done|].
  destruct Hinv as (_ & _ & _ & Hbanner).
  unfold reachableInvariant, capturesInvariant, gridInvariant,
    animationInvariant, bannerInvariant. simpl.
  split_and!; try done.
  - apply gridCovered_tileize.
  - apply tileizeWith_nonempty.
Qed.

Lemma addCapture_reachableInvariant img gps locationStatus now state s :
  reachableInvariant s →
  captures s ≠ [] →
  state = appState s ∨ state = LOADED →
  reachableInvariant
    (s |> addCapture img gps locationStatus now |> setAppState state).
Proof.
  intros (Hcaptures & Hgrid & Hanimation & Hbanner) Hne Hstate.
  unfold reachableInvariant, capturesInvariant, gridInvariant,
    animationInvariant, bannerInvariant in *. simpl.
  destruct (captures s) as [|baseCapture rest]; [done|]. simpl.
  destruct Hcaptures as (Hbase & Hrest & Hflag).
  split; [split_and!; [done| |done]|].
  { apply Forall_app. split; [done|]. by apply Forall_singleton. }
  split; [done|]. split; [|done].
  destruct Hstate as [->| ->]; [exact Hanimation|done].
Qed.

Lemma handleNewCapture_reachableInvariant img gps locationStatus now oracle s :
  reachableInvariant s →
  reachableInvariant (handleNewCapture img gps locationStatus now oracle s).
Proof.
  intros Hinv. unfold handleNewCapture.
  destruct (captures s) as [|baseCapture rest] eqn:Hcaptures.
  { apply startNewWorld_reachableInvariant. }
  destruct (isNewWorldGps baseCapture gps s).
  { apply startNewWorld_reachableInvariant. }
  assert (Hne : captures s ≠ []) by (by rewrite Hcaptures).
  destruct (isDefaultWorld s) eqn:Hdefault.
  - destruct (serviceCompareScenes oracle) as [[]|]; simpl.
    + apply (addCapture_reachableInvariant img gps locationStatus now LOADED s);
        [done|done|by right].
    + apply startNewWorld_reachableInvariant.
    + apply (addCapture_reachableInvariant img gps locationStatus now LOADED s);
        [done|done|by right].
  - pose proof (addCapture_reachableInvariant img gps locationStatus now
                  (appState s) s Hinv Hne ltac:(by left)) as Hadd.
    replace (addCapture img gps locationStatus now s)
      with (s |> addCapture img gps locationStatus now
              |> setAppState (appState s)); [done|].
    by destruct s.
Qed.

Lemma gridCovered_union (m tiles : gmap string TileData) (ws : WorldSize) :
  gridCovered tiles ws → gridCovered (m ∪ tiles) ws.
Proof.
  intros Hcovered col row Hcol Hrow.
  destruct (Hcovered col row Hcol Hrow) as [tile Htile].
  destruct (m !! tileKey col row) as [tile'|] eqn:Hm.
  - exists tile'. by apply lookup_union_Some_l.
  - exists tile. rewrite lookup_union_r; done.
Qed.

Lemma mounted_states (s : App) :
  (animatorMounted s = true → appState s = ENHANCING) ∧
  (dissolveMounted s = true → appState s = ENHANCED) ∧
  (isActionable s = true → appState s = LOADED).
Proof.
  unfold animatorMounted, dissolveMounted, isActionable. split_and!.
  - intros [[H _]%andb_prop _]%andb_prop. by apply bool_decide_eq_true in H.
  - intros [[H _]%andb_prop _]%andb_prop. by apply bool_decide_eq_true in H.
  - intros H. by apply bool_decide_eq_true in H.
Qed.

Ltac open_hyps := repeat match goal with H : _ ∧ _ |- _ => destruct H end.
Ltac invariant_leaves := open_hyps; split_and!; done.

Lemma step_reachableInvariant (sd : App * Display) (ev : Event) :
  reachableInvariant (fst sd) → reachableInvariant (fst (step sd ev)).
Proof.
  rewrite fst_step. destruct sd as [s d]. intros Hinv. simpl in Hinv.
  destruct (isViewportEvent ev) eqn:Hview.
  { destruct (handle_viewport s d ev Hview) as (pan & zoom & Heq).
    rewrite Heq. by apply reachableInvariant_withView. }
  pose proof (mounted_states s) as (Hanimator & Hdissolve & Hactionable).
  destruct ev; try discriminate Hview; simpl.
  - (* the timer fires *)
    unfold inferenceTimerFires.
    destruct (inferenceTimer d) as [render|]; [|done].
    destruct (triggerInference _ _ _) as [[worldRect screenRect]|] eqn:Htrigger;
      [|done].
    simpl. unfold handleInpaint_from.
    case_decide; [done|]. destruct has2dContext; [|done]. simpl.
    assert (Hmounted : displayMounted s = true).
    { destruct (displayMounted s); [done|].
      unfold triggerInference in Htrigger. simpl in Htrigger.
      by rewrite orb_true_r in Htrigger. }
    apply displayMounted_tiles in Hmounted.
    destruct Hinv as (Hcaptures & Hgrid & Hanimation & Hbanner).
    unfold reachableInvariant, capturesInvariant, gridInvariant,
      animationInvariant, bannerInvariant in *. simpl.
    destruct (captures s) as [|baseCapture rest].
    { by destruct Hcaptures as (Hempty & _). }
    invariant_leaves.
  - (* the selection animation completes *)
    destruct (animatorMounted s) eqn:Hmounted; [|done]. simpl.
    specialize (Hanimator eq_refl).
    unfold performEnhancement.
    destruct (stitchedEnhanceImage s) as [stitched|] eqn:Hstitched; [|done].
    unfold performEnhancement_resume.
    destruct (serviceEnhance _ _ _ _) as [enhancedStitchedSrc foundTheBanana].
    destruct Hinv as (Hcaptures & Hgrid & Hanimation & Hbanner).
    destruct Hanimation as (Henhancing & _).
    destruct (Henhancing Hanimator) as [_ Htiles].
    unfold reachableInvariant, capturesInvariant, gridInvariant,
      animationInvariant, bannerInvariant, dissolveMounted in *.
    destruct (captures s) as [|baseCapture rest] eqn:Hcaps.
    { destruct Hcaptures as (_ & _ & _ & _ & _ & [Hs|Hs]);
        rewrite Hs in Hanimator; discriminate. }
    destruct foundTheBanana; simpl; rewrite Hcaps, Hstitched;
      invariant_leaves.
  - (* the dissolve completes *)
    destruct (dissolveMounted s) eqn:Hmounted; [|done]. simpl.
    specialize (Hdissolve eq_refl).
    unfold handleEnhancementComplete.
    destruct (enhancedResult s) as [result|]; [|done].
    destruct Hinv as (Hcaptures & Hgrid & Hanimation & Hbanner).
    destruct Hanimation as (_ & Henhanced & _).
    destruct (Henhanced Hdissolve) as [_ Htiles].
    unfold reachableInvariant, capturesInvariant, gridInvariant,
      animationInvariant, bannerInvariant, enhancedImage_onload in *. simpl.
    destruct (captures s) as [|baseCapture rest] eqn:Hcaps.
    { destruct Hcaptures as (_ & _ & _ & _ & _ & [Hs|Hs]);
        rewrite Hs in Hdissolve; discriminate. }
    destruct Hgrid as (Hsize & Hcovered & Hpositive). open_hyps.
    split_and!; try done.
    + by apply gridCovered_union.
    + intros _. by apply Hpositive.
  - by apply handleNewCapture_reachableInvariant.
  - (* Reset *)
    destruct (isActionable s); [|done]. simpl.
    unfold reachableInvariant, capturesInvariant, gridInvariant,
      animationInvariant, bannerInvariant. simpl.
    split_and!; try done. by left.
  - by apply initialImage_onload_reachableInvariant.
  - (* the starter image fails *)
    destruct Hinv as (Hcaptures & Hgrid & Hanimation & Hbanner).
    unfold reachableInvariant, capturesInvariant, gridInvariant,
      animationInvariant, bannerInvariant, initialImage_onerror in *. simpl.
    destruct (captures s) as [|baseCapture rest].
    + destruct Hcaptures as (? & ? & ? & ? & ? & _).
      split_and!; try done. by right.
    + invariant_leaves.
  - (* Use Device Cam *)
    destruct (isActionable s) eqn:Hloaded; [|done]. simpl.
    specialize (Hactionable eq_refl).
    destruct Hinv as (Hcaptures & Hgrid & Hanimation & Hbanner).
    unfold reachableInvariant, capturesInvariant, gridInvariant,
      animationInvariant, bannerInvariant, handleUseDeviceCamClick in *. simpl.
    destruct (captures s) as [|baseCapture rest].
    + destruct Hcaptures as (_ & _ & _ & _ & _ & [Hs|Hs]);
        rewrite Hs in Hactionable; discriminate.
    + invariant_leaves.
  - (* the camera closes *)
    case_bool_decide as Hcamera; [|done]. simpl.
    destruct Hinv as (Hcaptures & Hgrid & Hanimation & Hbanner).
    unfold reachableInvariant, capturesInvariant, gridInvariant,
      animationInvariant, bannerInvariant, handleCameraClose in *. simpl.
    destruct (captures s) as [|baseCapture rest].
    + destruct Hcaptures as (_ & _ & _ & _ & _ & [Hs|Hs]);
        rewrite Hs in Hcamera; discriminate.
    + invariant_leaves.
Qed.

Lemma run_reachableInvariant (events : list Event) :
  reachableInvariant (fst (run events)).
Proof.
  unfold run. induction events as [|ev events IH] using rev_ind.
  - unfold reachableInvariant, capturesInvariant, gridInvariant,
      animationInvariant, bannerInvariant. simpl.
    split_and!; try done. by left.
  - rewrite foldl_app. simpl. by apply step_reachableInvariant.
Qed.


(** X11.  Whenever the ImageDisplay is mounted in a reachable state, [draw]
    finds a tile for every column, also left and right of the world, in
    every row of the world's grid. *)
Theorem draw_finds_tile_in_every_grid_row (events : list Event) (x y : Z) :
  let s := fst (run events) in
  displayMounted s = true →
  0 ≤ y < JS.Math_ceil_div (height (worldSize s)) TILE_SIZE →
  is_Some (drawLookup (tiles s) (worldSize s) TILE_SIZE x y).
Proof.
  intros s Hmounted Hy.
  destruct (run_reachableInvariant events) as (Hcaptures & Hgrid & _).
  fold s in Hcaptures, Hgrid.
  apply displayMounted_tiles in Hmounted.
  unfold capturesInvariant, gridInvariant in *.
  destruct (captures s) as [|baseCapture rest].
  { by destruct Hcaptures as (Hempty & _). }
  destruct Hgrid as (_ & Hcovered & Hpositive).
  destruct (Hpositive Hmounted) as [Hwidth _].
  unfold drawLookup. rewrite decide_False by lia.
  apply Hcovered; [|done].
  rewrite wrappedX_mod by (by apply Math_ceil_div_pos).
  apply Z.mod_pos_bound. by apply Math_ceil_div_pos.
Qed.

Lemma draw_finds_tile_in_every_grid_row_witness :
  is_Some (drawLookup (tiles defaultWorldA) (worldSize defaultWorldA)
             TILE_SIZE (-3) 0).
Proof.
  apply (draw_finds_tile_in_every_grid_row [InitialImageLoads 0 worldA] (-3) 0).
  - vm_compute. reflexivity.
  - vm_compute. split; [discriminate|reflexivity].
Defined.

(** X12.  In every reachable state (every handler finishes, with its
    awaits, before the next event), a live job has the component mounted
    that ends its phase: in state ENHANCING the job and the stitched raster
    are set, so the SelectionAnimator is mounted; in state ENHANCED the
    stitched raster and the result are set, so the PixelDissolve is
    mounted; and there are tiles.  The state SELECTING never occurs. *)
Theorem live_job_has_its_component_mounted (events : list Event) :
  animationInvariant (fst (run events)).
Proof. apply run_reachableInvariant. Qed.

(** X13.  In every reachable state the banana banner is shown only if the
    banana of the current world has been found. *)
Theorem banner_only_after_banana (events : list Event) :
  bannerInvariant (fst (run events)).
Proof. apply run_reachableInvariant. Qed.

(** ** New captures *)

(** X14.  In a user-defined world the scene comparator has no say: the
    outcome of [handleNewCapture] is the same for every answer, and a
    capture is appended whenever it or the baseline carries no GPS
    coordinates. *)
Theorem user_world_never_asks_comparator (img : Image)
    (gps : option GPSCoordinates) (locationStatus : option LocationStatus)
    (now : Z) (oracle oracle' : SceneOracle) (s : App) :
  isDefaultWorld s = false →
  handleNewCapture img gps locationStatus now oracle s
  = handleNewCapture img gps locationStatus now oracle' s ∧
  (∀ baseCapture rest,
     captures s = baseCapture :: rest →
     gps = None ∨ capGps baseCapture = None →
     handleNewCapture img gps locationStatus now oracle s
     = addCapture img gps locationStatus now s).
Proof.
  intros Huser. unfold handleNewCapture. split.
  - destruct (captures s) as [|baseCapture rest]; [done|].
    destruct (isNewWorldGps baseCapture gps s); [done|]. by rewrite Huser.
  - intros baseCapture rest -> Hgps.
    assert (Hflag : isNewWorldGps baseCapture gps s = false).
    { unfold isNewWorldGps. destruct Hgps as [->| ->]; [done|].
      by destruct gps. }
    by rewrite Hflag, Huser.
Qed.

Lemma user_world_never_asks_comparator_witness :
  let s := startNewWorld worldB None None 1 defaultWorldA in
  handleNewCapture worldA None None 2 (ModelAnswers (Some false)) s
  = handleNewCapture worldA None None 2 ModelCallFails s.
Proof.
  destruct (user_world_never_asks_comparator worldA None None 2
              (ModelAnswers (Some false)) ModelCallFails
              (startNewWorld worldB None None 1 defaultWorldA))
    as [Hsame _].
  - reflexivity.
  - exact Hsame.
Defined.

(** X15.  In a reachable placeholder world, a capture that carries GPS
    coordinates always starts a new world, without asking the comparator;
    so does an image file whose EXIF data has a numeric latitude and
    longitude, which [handleFileLoad] tags as ACQUIRED. *)
Theorem tagged_capture_replaces_placeholder (events : list Event)
    (img : Image) (gps : GPSCoordinates)
    (locationStatus : option LocationStatus) (now : Z) (oracle : SceneOracle) :
  let s := fst (run events) in
  isDefaultWorld s = true →
  handleNewCapture img (Some gps) locationStatus now oracle s
  = startNewWorld img (Some gps) locationStatus now s ∧
  (∀ file,
     String.prefix "image/" (fileType file) = true →
     handleFileLoad (Some file)
       (ExifObject (Some (latitude gps)) (Some (longitude gps)))
       (Some img) now oracle s
     = startNewWorld img (Some gps) (Some ACQUIRED) now s).
Proof.
  intros s Hplaceholder.
  destruct (run_placeholderHasNoGps events Hplaceholder)
    as (baseCapture & rest & Hcaptures & Hgps).
  fold s in Hcaptures.
  assert (Hnew : ∀ status,
            handleNewCapture img (Some gps) status now oracle s
            = startNewWorld img (Some gps) status now s).
  { intros status. unfold handleNewCapture, isNewWorldGps.
    by rewrite Hcaptures, Hgps, Hplaceholder. }
  split; [apply Hnew|].
  intros file Himage. unfold handleFileLoad. rewrite Himage. simpl.
  destruct gps as [lat lon]. apply Hnew.
Qed.

Lemma tagged_capture_replaces_placeholder_witness :
  handleNewCapture worldB (Some someGps) None 1 ModelCallFails
    (fst (run [InitialImageLoads 0 worldA]))
  = startNewWorld worldB (Some someGps) None 1
      (fst (run [InitialImageLoads 0 worldA])).
Proof.
  destruct (tagged_capture_replaces_placeholder [InitialImageLoads 0 worldA]
              worldB someGps None 1 ModelCallFails) as [Hnew _].
  - reflexivity.
  - exact Hnew.
Defined.

(** X16.  In a reachable placeholder world, an image file without usable
    EXIF coordinates (the parser failed, found nothing, or found only one
    of the two) is judged by the scene comparator alone: it starts a new
    world when the comparator answers that the scene differs or answers
    without the field, and is appended when the comparator says the scene
    is the same or fails.  A file that is not an image changes nothing. *)
Theorem untagged_file_is_judged_by_comparator (events : list Event)
    (file : File) (exif : ExifResult) (img : Image) (now : Z)
    (oracle : SceneOracle) :
  let s := fst (run events) in
  isDefaultWorld s = true →
  (∀ latitude longitude, exif ≠ ExifObject (Some latitude) (Some longitude)) →
  let s' := handleFileLoad (Some file) exif (Some img) now oracle s in
  (String.prefix "image/" (fileType file) = false → s' = s) ∧
  (String.prefix "image/" (fileType file) = true →
   (oracle = ModelAnswers (Some false) ∨ oracle = ModelAnswers None →
    s' = startNewWorld img None None now (setAppState ANALYZING s)) ∧
   (oracle = ModelAnswers (Some true) ∨ oracle = ModelCallFails ∨
    oracle = EncodingRejects →
    s' = s |> setAppState ANALYZING
           |> addCapture img None None now
           |> setAppState LOADED)).
Proof.
  intros s Hplaceholder Hexif s'.
  destruct (run_placeholderHasNoGps events Hplaceholder)
    as (baseCapture & rest & Hcaptures & Hgps).
  fold s in Hcaptures.
  split.
  { intros Hother. unfold s', handleFileLoad. by rewrite Hother. }
  intros Himage.
  assert (Hfile : s' = handleNewCapture img None None now oracle s).
  { unfold s', handleFileLoad. rewrite Himage. simpl.
    destruct exif as [| |[latitude|] [longitude|]]; try done.
    by destruct (Hexif latitude longitude). }
  rewrite Hfile. unfold handleNewCapture, isNewWorldGps.
  rewrite Hcaptures, Hplaceholder.
  split.
  - by intros [->| ->].
  - by intros [->|[->| ->]].
Qed.

Lemma untagged_file_is_judged_by_comparator_witness :
  let s := fst (run [InitialImageLoads 0 worldA]) in
  handleFileLoad (Some (mkFile "image/png")) ExifNothing (Some worldB) 1
    ModelCallFails s
  = s |> setAppState ANALYZING
      |> addCapture worldB None None 1
      |> setAppState LOADED.
Proof.
  destruct (untagged_file_is_judged_by_comparator [InitialImageLoads 0 worldA]
              (mkFile "image/png") ExifNothing worldB 1 ModelCallFails)
    as [_ Himage].
  - reflexivity.
  - intros latitude longitude. discriminate.
  - destruct (Himage eq_refl) as [_ Hsame]. apply Hsame. right. by left.
Defined.



(** X18.  The distance of a point to itself is 0, so in a user-defined
    world a capture taken at the coordinates of the baseline is always
    appended. *)
Theorem capture_at_baseline_coordinates_is_appended (img : Image)
    (gps : GPSCoordinates) (locationStatus : option LocationStatus) (now : Z)
    (oracle : SceneOracle) (s : App) (baseCapture : Capture)
    (rest : list Capture) :
  captures s = baseCapture :: rest →
  capGps baseCapture = Some gps →
  isDefaultWorld s = false →
  calculateDistance gps gps = 0%R ∧
  handleNewCapture img (Some gps) locationStatus now oracle s
  = addCapture img (Some gps) locationStatus now s.
Proof.
  intros Hcaptures Hgps Huser.
  pose proof (calculateDistance_self gps) as Hzero.
  split; [done|].
  unfold handleNewCapture, isNewWorldGps.
  rewrite Hcaptures, Hgps, Hzero, Huser.
  unfold JS.gt, GPS_DISTANCE_THRESHOLD_METERS.
  destruct (Rlt_dec 100 0); [lra|done].
Qed.

Lemma capture_at_baseline_coordinates_is_appended_witness :
  let s := startNewWorld worldB (Some someGps) (Some ACQUIRED) 1 defaultWorldA in
  handleNewCapture worldA (Some someGps) None 2 ModelCallFails s
  = addCapture worldA (Some someGps) None 2 s.
Proof.
  destruct (capture_at_baseline_coordinates_is_appended worldA someGps None 2
              ModelCallFails
              (startNewWorld worldB (Some someGps) (Some ACQUIRED) 1
                 defaultWorldA)
              (mkCapture (capture_at 1) EQUIRECTANGULAR worldB (Some someGps)
                 (Some ACQUIRED)) [])
    as [_ Happended].
  - reflexivity.
  - reflexivity.
  - reflexivity.
  - exact Happended.
Defined.

(** ** The answer of the enhancer *)

Lemma serviceEnhance_parts (parts : list ResponsePart) (imageSrc : Image)
    (foundTheBanana : bool) :
  foldl (λ '(imageSrc, foundTheBanana) part,
           match part with
           | TextPart (Some true) => (imageSrc, true)
           | TextPart _ => (imageSrc, foundTheBanana)
           | InlineDataPart data => (data, foundTheBanana)
           | EmptyPart => (imageSrc, foundTheBanana)
           end)
        (imageSrc, foundTheBanana) parts
  = (default imageSrc (lastInlineData parts),
     foundTheBanana || reportsBanana parts).
Proof.
  revert imageSrc foundTheBanana.
  induction parts as [|part parts IH]; intros imageSrc foundTheBanana.
  { simpl. by rewrite orb_false_r. }
  unfold lastInlineData, reportsBanana in *.
  destruct part as [[[]|]|data|]; simpl; rewrite IH; try done.
  - by rewrite orb_true_r.
  - rewrite last_cons. by destruct (last _).
Qed.

(** X19.  [serviceEnhance] returns the data of the last inline-data part of
    the answer, or its input when the answer has none, when the prompt is
    empty or when the call fails; the banana is reported exactly when some
    text part of a delivered answer says so.  Text parts do not touch the
    image and the order of the parts matters only among the inline-data
    parts. *)
Theorem serviceEnhance_returns_last_image (croppedImageDataUrl : Image)
    (prompt : string) (hasFoundBanana : bool) (reply : EnhanceReply) :
  serviceEnhance croppedImageDataUrl prompt hasFoundBanana reply
  = if decide (prompt = "") then (croppedImageDataUrl, false)
    else
      match reply with
      | EnhanceFails => (croppedImageDataUrl, false)
      | EnhanceParts parts =>
          (default croppedImageDataUrl (lastInlineData parts),
           reportsBanana parts)
      end.
Proof.
  unfold serviceEnhance. case_decide; [done|].
  destruct reply as [|parts]; [done|]. by rewrite serviceEnhance_parts.
Qed.

(** ** The job that a timer starts *)

(** X20.  The inference timer calls the [triggerInference] of the render
    that armed it.  After a click on the zoom-in button, or a wheel tick
    towards the image, the timer therefore sees the zoom and the pan from
    before that click or tick: at a zoom of at most 1.01 before it, the
    timer starts no job (whatever the zoom is now), and otherwise the job's
    world rectangle is the view from before it. *)
Theorem timer_job_shows_view_before_last_zoom (box : CanvasBox)
    (window : R * R) (deltaY : R) (pos : Point) (s : App) (d : Display) :
  isBusy s = false →
  (deltaY < 0)%R →
  ∀ zoomed,
    zoomed = handleZoomIn (s, d) ∨
    zoomed = handleWheel (Some box) deltaY pos (s, d) →
    let fired := inferenceTimerFires (Some box) window true zoomed in
    ((zoom s <= 1.01)%R → fst fired = fst zoomed) ∧
    ((1.01 < zoom s)%R →
     appState (fst fired) = ENHANCING ∧
     enhancementJob (fst fired)
     = Some (mkJob (getTransform (Some box) s)
               (mkRect 0%R 0%R (fst window) (snd window)))).
Proof.
  intros Hfree Hdelta zoomed Hzoomed fired.
  assert (Hloaded : appState s = LOADED).
  { unfold isBusy in Hfree. apply bool_decide_eq_false in Hfree.
    by destruct (decide (appState s = LOADED)). }
  assert (Htimer : ∃ s1 d1, zoomed = (s1, d1) ∧ inferenceTimer d1 = Some s).
  { destruct Hzoomed as [->| ->].
    - unfold handleZoomIn. by eexists _, _.
    - unfold handleWheel. rewrite Hfree.
      assert (Hin : JS.gt 0 deltaY = true).
      { unfold JS.gt. by destruct (Rlt_dec deltaY 0). }
      rewrite Hin. by eexists _, _. }
  destruct Htimer as (s1 & d1 & -> & Htimer).
  unfold fired, inferenceTimerFires. rewrite Htimer.
  unfold triggerInference. rewrite Hfree. simpl.
  unfold JS.gt. destruct (Rlt_dec 1.01 (zoom s)) as [Hin|Hout]; simpl.
  - split; [intros Hle; lra|]. intros _.
    unfold handleInpaint_from. rewrite decide_False by (by intros ?). done.
  - split; [done|]. intros Hlt. lra.
Qed.

Lemma timer_job_shows_view_before_last_zoom_witness :
  let zoomed := handleZoomIn (defaultWorldA, initialDisplay) in
  fst (inferenceTimerFires (Some lowCanvas) (1024%R, 768%R) true zoomed)
  = fst zoomed.
Proof.
  destruct (timer_job_shows_view_before_last_zoom lowCanvas (1024%R, 768%R)
              (-1) (mkPoint 0 0) defaultWorldA initialDisplay
              ltac:(reflexivity) ltac:(lra)
              (handleZoomIn (defaultWorldA, initialDisplay))
              ltac:(left; reflexivity)) as [Hnone _].
  apply Hnone. simpl. lra.
Defined.

(** ** A result that arrives after a reset *)



(** ** Data URLs *)

Lemma String_split_no_comma (s : string) :
  hasComma s = false → String_split "," s = [s].
Proof.
  induction s as [|c s IH]; [done|]. simpl.
  case_decide; [done|]. intros Hs. by rewrite (IH Hs).
Qed.

Lemma String_split_at_comma (a b : string) :
  hasComma a = false →
  String_split "," (a +:+ String "," b) = a :: String_split "," b.
Proof.
  induction a as [|c a IH]; [done|]. simpl.
  case_decide; [done|]. intros Ha. by rewrite (IH Ha).
Qed.

Lemma hasComma_app (a b : string) :
  hasComma (a +:+ b) = hasComma a || hasComma b.
Proof.
  induction a as [|c a IH]; [done|]. simpl. by case_decide.
Qed.

Lemma String_app_assoc (a b c : string) : (a +:+ b) +:+ c = a +:+ (b +:+ c).
Proof.
  induction a as [|x a IH]; [done|].
  change (String x ((a +:+ b) +:+ c) = String x (a +:+ (b +:+ c))).
  by rewrite IH.
Qed.

(** X22.  The two copies of [dataUrlToBase64] agree on every string, give
    the empty string when there is no comma, and undo the data URL that
    [serviceEnhance] builds: for a MIME type and data without a comma (as
    base64 data is), the data comes back unchanged. *)
Theorem dataUrlToBase64_round_trip (mimeType imageData dataUrl : string) :
  ServiceEnhance.dataUrlToBase64 dataUrl
  = ServiceCompareScenes.dataUrlToBase64 dataUrl ∧
  (hasComma dataUrl = false → ServiceEnhance.dataUrlToBase64 dataUrl = "") ∧
  (hasComma mimeType = false → hasComma imageData = false →
   ServiceEnhance.dataUrlToBase64
     (ServiceEnhance.imageSrcOf mimeType imageData) = imageData).
Proof.
  unfold ServiceEnhance.dataUrlToBase64, ServiceCompareScenes.dataUrlToBase64.
  split_and!.
  - cbv zeta. case_bool_decide as Hlen; [done|].
    rewrite lookup_ge_None_2; [done|lia].
  - intros Hnone. by rewrite String_split_no_comma.
  - intros Hmime Hdata. unfold ServiceEnhance.imageSrcOf.
    change (";base64," +:+ imageData)
      with (";base64" +:+ String "," imageData).
    rewrite <- (String_app_assoc mimeType ";base64").
    rewrite <- (String_app_assoc "data:").
    rewrite String_split_at_comma.
    + by rewrite String_split_no_comma.
    + rewrite !hasComma_app, Hmime. done.
Qed.

(** ** The hook [useGps] *)

Lemma gpsStep_invariant (g : Gps) (ev : GpsEvent) :
  Forall pointWellFormed (path g) →
  let g' := gpsStep g ev in
  pathMirrorsStatus g' ∧ Forall pointWellFormed (path g') ∧
  length (path g') = S (length (path g)) ∧
  (is_Some (currentCoordinates g') ↔ gpsStatus g' = GpsStatus.ACQUIRED) ∧
  (gpsStatus g' = GpsStatus.ACQUIRED ∨ gpsStatus g' = GpsStatus.UNAVAILABLE) ∧
  path g `prefix_of` path g'.
Proof.
  intros Hpath. destruct ev as [position now|now]; simpl.
  - split_and!.
    + unfold pathMirrorsStatus. simpl. eexists.
      split; [apply last_snoc|done].
    + apply Forall_app. split; [done|]. apply Forall_singleton.
      unfold pointWellFormed. simpl. split; [done|by eexists].
    + rewrite length_app. simpl. lia.
    + split; [done|by eexists].
    + by left.
    + by apply prefix_app_r.
  - split_and!.
    + unfold pathMirrorsStatus. simpl. eexists.
      split; [apply last_snoc|done].
    + apply Forall_app. split; [done|]. apply Forall_singleton.
      unfold pointWellFormed. simpl. split; [by intros [? ?]|done].
    + rewrite length_app. simpl. lia.
    + split; [by intros [? ?]|done].
    + by right.
    + by apply prefix_app_r.
Qed.

Lemma useGps_snoc (now : Z) (events : list GpsEvent) (ev : GpsEvent) :
  useGps true now (events ++ [ev]) = gpsStep (useGps true now events) ev.
Proof. unfold useGps. simpl. by rewrite foldl_app. Qed.

Lemma useGps_invariant (now : Z) (events : list GpsEvent) :
  let g := useGps true now events in
  pathMirrorsStatus g ∧ Forall pointWellFormed (path g) ∧
  length (path g) = S (length events) ∧
  (is_Some (currentCoordinates g) ↔ gpsStatus g = GpsStatus.ACQUIRED) ∧
  gpsStatus g ≠ GpsStatus.IDLE.
Proof.
  induction events as [|ev events IH] using rev_ind.
  - split_and!; try done.
    + by eexists.
    + apply Forall_singleton. unfold pointWellFormed. simpl.
      split; [by intros [? ?]|done].
    + split; [by intros [? ?]|done].
  - cbv zeta in *. rewrite useGps_snoc.
    destruct IH as (_ & Hpath & Hlength & _).
    destruct (gpsStep_invariant _ ev Hpath)
      as (Hmirror & Hpath' & Hlength' & Hcoordinates & Hstatus & _).
    cbv zeta in *.
    split_and!; [done|done| |done|].
    + rewrite Hlength', Hlength, length_app. simpl. lia.
    + by destruct Hstatus as [-> | ->].
Qed.

(** X23.  The hook [useGps].  Without [navigator.geolocation] the status is
    UNAVAILABLE and the path stays empty.  With it, after the mount and any
    sequence of reports of the watch: the path has one point for the mount
    and one per report, in order (it only grows); its last point shows the
    current status and coordinates; a point, like the hook itself, carries
    coordinates exactly when its status is ACQUIRED; and the status is
    never IDLE again. *)
Theorem useGps_path_mirrors_status (now : Z) (events : list GpsEvent) :
  (let g := useGps false now events in
   gpsStatus g = GpsStatus.UNAVAILABLE ∧ currentCoordinates g = None ∧
   path g = []) ∧
  (let g := useGps true now events in
   pathMirrorsStatus g ∧
   Forall pointWellFormed (path g) ∧
   length (path g) = S (length events) ∧
   (is_Some (currentCoordinates g) ↔ gpsStatus g = GpsStatus.ACQUIRED) ∧
   gpsStatus g ≠ GpsStatus.IDLE ∧
   ∀ ev, path g `prefix_of` path (useGps true now (events ++ [ev]))).
Proof.
  split; [done|]. cbv zeta.
  destruct (useGps_invariant now events)
    as (Hmirror & Hpath & Hlength & Hcoordinates & Hstatus).
  split_and!; [done..|].
  intros ev. rewrite useGps_snoc.
  by destruct (gpsStep_invariant _ ev Hpath) as (_ & _ & _ & _ & _ & Hprefix).
Qed.

